(** * AudioSyncEngine (src/scripts/audio-sync.js)

    A shallow embedding of the timing engine of the lyrics viewer and the
    properties of its cursor, its sort and its notifications.

    Conventions of the embedding.
    - Times are JavaScript numbers.  The song data carries finite decimal
      literals and the media clock is finite, so they are modelled as
      rationals [Q]; on finite numbers [<=], [>=] and the sign of a
      difference agree with the rational ones.  [NaN] only occurs for a
      duration that is not known yet and is modelled by [None].
    - Array indices that the code computes with ([currentIndex],
      [length - 1], [currentIndex - 1]) are integers [Z]; reading an array
      out of range yields [undefined], here [None].
    - A property access on [undefined] raises a [TypeError]: operations
      return a [Result].
    - Callbacks are opaque observers identified by a handle; they receive a
      payload and do not call back into the engine. *)

From Stdlib Require Import String Bool ZArith QArith Lia Lqa List.
From Stdlib Require Import Sorted Permutation.
Import ListNotations.

Local Open Scope Z_scope.

(* ===================================================================== *)
(** ** JavaScript arrays *)
(* ===================================================================== *)

Module JsArray.

(** [a[i]]: [undefined] outside [0 .. length-1]. *)
Definition get {A : Type} (a : list A) (i : Z) : option A :=
  if i <? 0 then None else nth_error a (Z.to_nat i).

(** [a.length] *)
Definition len {A : Type} (a : list A) : Z := Z.of_nat (length a).

(** [a.push(x)] *)
Definition push {A : Type} (a : list A) (x : A) : list A := a ++ [x].

(** [a.forEach((x, i) => body)], the body acting on a state [T]. *)
Fixpoint forEach_from {A T : Type} (body : A -> nat -> T -> T)
         (a : list A) (i : nat) (s : T) : T :=
  match a with
  | [] => s
  | x :: a' => forEach_from body a' (S i) (body x i s)
  end.

Definition forEach {A T : Type} (body : A -> nat -> T -> T) (a : list A) (s : T) : T :=
  forEach_from body a 0%nat s.

(** [a.sort(cmp)].  The language fixes the result for a consistent
    comparator: the elements in comparator order, equal ones in their
    original order (the sort is stable).  [sort] computes that list by
    insertion: [x], which stood before everything in [l], goes in front of
    the first element it does not exceed. *)
Fixpoint insert {A : Type} (cmp : A -> A -> Q) (x : A) (l : list A) : list A :=
  match l with
  | [] => [x]
  | y :: l' => if Qle_bool (cmp x y) 0 then x :: l else y :: insert cmp x l'
  end.

Fixpoint sort {A : Type} (cmp : A -> A -> Q) (l : list A) : list A :=
  match l with
  | [] => []
  | x :: l' => insert cmp x (sort cmp l')
  end.

End JsArray.

(* ===================================================================== *)
(** ** Song data and text units *)
(* ===================================================================== *)

Module Song.

(** One entry of [verse.characters] in the song data. *)
Record CharData := mkCharData {
  char : string;
  pinyin : option string;
  meaning : option string;
  time : Q
}.

Record Verse := mkVerse {
  characters : list CharData;
  translation : string
}.

Record SongData := mkSongData {
  verses : list Verse
}.

End Song.

(** The object pushed by [flattenCharacters]:
    [{...charData, verseIdx, charIdx, globalIdx}]. *)
Record TextUnit := mkTextUnit {
  char : string;
  pinyin : option string;
  meaning : option string;
  time : Q;
  verseIdx : nat;
  charIdx : nat;
  globalIdx : nat
}.

Definition spread (charData : Song.CharData) (verseIdx charIdx globalIdx : nat) : TextUnit :=
  {| char := Song.char charData;
     pinyin := Song.pinyin charData;
     meaning := Song.meaning charData;
     time := Song.time charData;
     verseIdx := verseIdx;
     charIdx := charIdx;
     globalIdx := globalIdx |}.

(** The comparator [(a, b) => a.time - b.time]. *)
Definition byTime (a b : TextUnit) : Q := time a - time b.

(** The inner [verse.characters.forEach] of [flattenCharacters]. *)
Definition pushVerse (verse : Song.Verse) (verseIdx : nat) (chars : list TextUnit) : list TextUnit :=
  JsArray.forEach
    (fun charData charIdx chars =>
       JsArray.push chars (spread charData verseIdx charIdx (length chars)))
    (Song.characters verse) chars.

(** [chars] as it stands after the two nested [forEach], before the sort. *)
Definition pushAll (songData : Song.SongData) : list TextUnit :=
  JsArray.forEach pushVerse (Song.verses songData) [].

Definition flattenCharacters (songData : Song.SongData) : list TextUnit :=
  JsArray.sort byTime (pushAll songData).

(* ===================================================================== *)
(** ** Results of operations *)
(* ===================================================================== *)

Inductive Error := TypeError.

(** [OutOfFuel] is what a loop of the model returns when its iteration
    budget is used up; the theorems show that the budgets given by the
    operations are never exhausted. *)
Inductive Result (A : Type) : Type :=
| Ok (a : A)
| Throw (err : Error)
| OutOfFuel.

Arguments Ok {A} a.
Arguments Throw {A} err.
Arguments OutOfFuel {A}.

Definition bind {A B : Type} (r : Result A) (k : A -> Result B) : Result B :=
  match r with
  | Ok a => k a
  | Throw err => Throw err
  | OutOfFuel => OutOfFuel
  end.

Notation "x <- r ;; k" := (bind r (fun x => k))
  (at level 61, r at next level, right associativity).
Notation "' p <- r ;; k" := (bind r (fun p => k))
  (at level 61, p pattern, r at next level, right associativity).

(* ===================================================================== *)
(** ** Observers: insertion-ordered sets of callbacks *)
(* ===================================================================== *)

(** A callback is known to the engine by its identity only. *)
Definition Callback := nat.

Module JsSet.

Definition has (s : list Callback) (x : Callback) : bool := existsb (Nat.eqb x) s.

(** [s.add(x)]: appended unless already a member. *)
Definition add (x : Callback) (s : list Callback) : list Callback :=
  if has s x then s else s ++ [x].

(** [s.delete(x)] *)
Definition delete (x : Callback) (s : list Callback) : list Callback :=
  filter (fun y => negb (Nat.eqb x y)) s.

End JsSet.

(** What an [emit] carries. *)
Inductive Payload :=
| CharacterData (character : TextUnit)
| VerseData (verseIdx : nat) (character : TextUnit)
| TimeData (currentTime duration : Q).

(** One call [this.emit(event, data)]. *)
Definition Emission : Type := string * Payload.

(** One call [callback(data)]. *)
Definition Invocation : Type := Callback * Payload.

Definition CHARACTER_CHANGE : string := "character-change".
Definition VERSE_CHANGE : string := "verse-change".
Definition TIME_UPDATE : string := "time-update".

Definition characterChange (character : TextUnit) : Emission :=
  (CHARACTER_CHANGE, CharacterData character).
Definition verseChange (character : TextUnit) : Emission :=
  (VERSE_CHANGE, VerseData (verseIdx character) character).
Definition timeUpdate (currentTime duration : Q) : Emission :=
  (TIME_UPDATE, TimeData currentTime duration).

(** [this.handlers]: an object literal with three own properties, each a
    [Set]. *)
Record Handlers := mkHandlers {
  character_change : list Callback;
  verse_change : list Callback;
  time_update : list Callback
}.

(** The names every object literal inherits from [Object.prototype]. *)
Definition objectPrototype : list string :=
  [ "constructor"; "__proto__"; "hasOwnProperty"; "isPrototypeOf";
    "propertyIsEnumerable"; "toLocaleString"; "toString"; "valueOf";
    "__defineGetter__"; "__defineSetter__"; "__lookupGetter__";
    "__lookupSetter__" ]%string.

(** The value of [this.handlers[event]]. *)
Inductive Property :=
| OwnSet (s : list Callback)   (* one of the three sets *)
| Inherited                    (* a member of Object.prototype: truthy, not a Set *)
| Undefined.

Definition property (h : Handlers) (event : string) : Property :=
  if (event =? CHARACTER_CHANGE)%string then OwnSet (character_change h)
  else if (event =? VERSE_CHANGE)%string then OwnSet (verse_change h)
  else if (event =? TIME_UPDATE)%string then OwnSet (time_update h)
  else if existsb (String.eqb event) objectPrototype then Inherited
  else Undefined.

(** The set [this.handlers[event]] after it was mutated into [s]. *)
Definition withSet (h : Handlers) (event : string) (s : list Callback) : Handlers :=
  if (event =? CHARACTER_CHANGE)%string then
    {| character_change := s; verse_change := verse_change h; time_update := time_update h |}
  else if (event =? VERSE_CHANGE)%string then
    {| character_change := character_change h; verse_change := s; time_update := time_update h |}
  else if (event =? TIME_UPDATE)%string then
    {| character_change := character_change h; verse_change := verse_change h; time_update := s |}
  else h.

(* ===================================================================== *)
(** ** The engine *)
(* ===================================================================== *)

(** What [update] reads from its collaborators: [audio.currentTime],
    [audio.duration] and [stateManager.state.duration] ([None]: [NaN] or
    [undefined]). *)
Record Clock := mkClock {
  currentTime : Q;
  audioDuration : option Q;
  stateDuration : option Q
}.

(** [syncLoop] is the handle of the pending animation frame or [null];
    only whether one is pending matters. *)
Record Engine := mkEngine {
  characters : list TextUnit;
  currentIndex : Z;
  isRunning : bool;
  syncLoop : bool;
  handlers : Handlers
}.

Definition setCurrentIndex (e : Engine) (i : Z) : Engine :=
  {| characters := characters e; currentIndex := i; isRunning := isRunning e;
     syncLoop := syncLoop e; handlers := handlers e |}.

Definition setIsRunning (e : Engine) (b : bool) : Engine :=
  {| characters := characters e; currentIndex := currentIndex e; isRunning := b;
     syncLoop := syncLoop e; handlers := handlers e |}.

Definition setSyncLoop (e : Engine) (b : bool) : Engine :=
  {| characters := characters e; currentIndex := currentIndex e; isRunning := isRunning e;
     syncLoop := b; handlers := handlers e |}.

Definition setHandlers (e : Engine) (h : Handlers) : Engine :=
  {| characters := characters e; currentIndex := currentIndex e; isRunning := isRunning e;
     syncLoop := syncLoop e; handlers := h |}.

(** [new AudioSyncEngine(audio, songData, stateManager)] *)
Definition constructor (songData : Song.SongData) : Engine :=
  {| characters := flattenCharacters songData;
     currentIndex := 0;
     isRunning := false;
     syncLoop := false;
     handlers := {| character_change := []; verse_change := []; time_update := [] |} |}.

(** *** on / off / emit *)

Definition on (event : string) (callback : Callback) (e : Engine) : Result Engine :=
  match property (handlers e) event with
  | OwnSet s => Ok (setHandlers e (withSet (handlers e) event (JsSet.add callback s)))
  | Inherited => Throw TypeError
  | Undefined => Ok e
  end.

Definition off (event : string) (callback : Callback) (e : Engine) : Result Engine :=
  match property (handlers e) event with
  | OwnSet s => Ok (setHandlers e (withSet (handlers e) event (JsSet.delete callback s)))
  | Inherited => Throw TypeError
  | Undefined => Ok e
  end.

(** [emit] returns the calls it makes, in the set's order. *)
Definition emit (event : string) (data : Payload) (e : Engine) : Result (list Invocation) :=
  match property (handlers e) event with
  | OwnSet s => Ok (map (fun callback => (callback, data)) s)
  | Inherited => Throw TypeError
  | Undefined => Ok []
  end.

(** *** update *)

(** [a || b] on numbers: [NaN], [undefined] and [0] are falsy. *)
Definition truthy (x : option Q) : bool :=
  match x with
  | Some q => negb (Qeq_bool q 0)
  | None => false
  end.

Definition orElse (a b : option Q) : option Q := if truthy a then a else b.

(** [this.audio.duration || this.stateManager.state.duration || 0] *)
Definition guardedDuration (clock : Clock) : Q :=
  match orElse (orElse (audioDuration clock) (stateDuration clock)) (Some 0%Q) with
  | Some q => q
  | None => 0%Q
  end.

(** The [while] loop of [update]; [fuel] bounds the number of tests of its
    condition. *)
Fixpoint advance (fuel : nat) (currentTime : Q) (e : Engine) : Result (Engine * list Emission) :=
  match fuel with
  | O => OutOfFuel
  | S fuel' =>
    if currentIndex e <? JsArray.len (characters e) - 1 then
      match JsArray.get (characters e) (currentIndex e + 1) with
      | None => Throw TypeError
      | Some nextChar =>
        if Qle_bool (time nextChar) currentTime then
          let e1 := setCurrentIndex e (currentIndex e + 1) in
          match JsArray.get (characters e1) (currentIndex e1) with
          | None => Throw TypeError
          | Some currentChar =>
            let prevChar := JsArray.get (characters e1) (currentIndex e1 - 1) in
            let verse :=
              match prevChar with
              | None => [verseChange currentChar]
              | Some prev =>
                if Nat.eqb (verseIdx prev) (verseIdx currentChar) then []
                else [verseChange currentChar]
              end in
            '(e2, log) <- advance fuel' currentTime e1 ;;
            Ok (e2, verse ++ characterChange currentChar :: log)
          end
        else Ok (e, [])
      end
    else Ok (e, [])
  end.

(** One tick.  The frame requested at the end is the next call of [update]
    by the host. *)
Definition update (clock : Clock) (e : Engine) : Result (Engine * list Emission) :=
  if negb (isRunning e) then Ok (e, [])
  else
    let duration := guardedDuration clock in
    '(e1, log) <- advance (S (length (characters e))) (currentTime clock) e ;;
    Ok (setSyncLoop e1 true, timeUpdate (currentTime clock) duration :: log).

(** *** startSync / stopSync *)

Definition startSync (clock : Clock) (e : Engine) : Result (Engine * list Emission) :=
  if isRunning e then Ok (e, [])
  else
    let e1 := setIsRunning e true in
    initial <-
      (if 0 <? JsArray.len (characters e1) then
         match JsArray.get (characters e1) (currentIndex e1) with
         | None => Throw TypeError
         | Some firstChar => Ok [verseChange firstChar; characterChange firstChar]
         end
       else Ok []) ;;
    '(e2, log) <- update clock e1 ;;
    Ok (e2, initial ++ log).

Definition stopSync (e : Engine) : Engine :=
  let e1 := setIsRunning e false in
  if syncLoop e1 then setSyncLoop e1 false else e1.

(** *** seekTo *)

(** The [for] loop of [seekTo], entered with the loop variable [i]. *)
Fixpoint seekScan (fuel : nat) (chars : list TextUnit) (time' : Q) (i newIndex : Z) : Result Z :=
  match fuel with
  | O => OutOfFuel
  | S fuel' =>
    if i <? JsArray.len chars then
      match JsArray.get chars i with
      | None => Throw TypeError
      | Some c =>
        if Qle_bool (time c) time' then seekScan fuel' chars time' (i + 1) i
        else Ok newIndex
      end
    else Ok newIndex
  end.

Definition seekTo (time' : Q) (e : Engine) : Result (Engine * list Emission) :=
  newIndex <- seekScan (S (length (characters e))) (characters e) time' 0 0 ;;
  let e1 := setCurrentIndex e newIndex in
  match JsArray.get (characters e1) (currentIndex e1) with
  | Some currentChar => Ok (e1, [verseChange currentChar; characterChange currentChar])
  | None => Ok (e1, [])
  end.

(** *** reset *)

Definition reset (e : Engine) : Engine := stopSync (setCurrentIndex e 0).

(** *** Histories of calls *)

Inductive Call :=
| StartSync (clock : Clock)
| StopSync
| Update (clock : Clock)
| SeekTo (time' : Q)
| Reset
| On (event : string) (callback : Callback)
| Off (event : string) (callback : Callback).

Definition call (c : Call) (e : Engine) : Result (Engine * list Emission) :=
  match c with
  | StartSync clock => startSync clock e
  | StopSync => Ok (stopSync e, [])
  | Update clock => update clock e
  | SeekTo t => seekTo t e
  | Reset => Ok (reset e, [])
  | On event callback => e' <- on event callback e ;; Ok (e', [])
  | Off event callback => e' <- off event callback e ;; Ok (e', [])
  end.

(** The calls of a history in turn, with everything emitted on the way. *)
Fixpoint run (history : list Call) (e : Engine) : Result (Engine * list Emission) :=
  match history with
  | [] => Ok (e, [])
  | c :: rest =>
    '(e1, log1) <- call c e ;;
    '(e2, log2) <- run rest e1 ;;
    Ok (e2, log1 ++ log2)
  end.

(** The callbacks invoked while a log is emitted. *)
Fixpoint deliver (e : Engine) (log : list Emission) : Result (list Invocation) :=
  match log with
  | [] => Ok []
  | (event, data) :: rest =>
    calls <- emit event data e ;;
    more <- deliver e rest ;;
    Ok (calls ++ more)
  end.

(** *** Vocabulary of the properties *)

Definition inBounds (e : Engine) : Prop :=
  0 <= currentIndex e < JsArray.len (characters e).

(** The cursor of an engine built by the constructor: within the array, and
    0 when the array is empty. *)
Definition cursorOk (e : Engine) : Prop :=
  0 <= currentIndex e <= Z.max 0 (JsArray.len (characters e) - 1).

(** The calls that are neither [seekTo] nor [reset]. *)
Definition keepsPosition (c : Call) : bool :=
  match c with
  | SeekTo _ | Reset => false
  | _ => true
  end.

(** No callback is twice in a set. *)
Definition handlersOk (h : Handlers) : Prop :=
  NoDup (character_change h) /\ NoDup (verse_change h) /\ NoDup (time_update h).

(** How often [emit] called [callback]. *)
Definition timesCalled (callback : Callback) (calls : list Invocation) : nat :=
  count_occ Nat.eq_dec (map fst calls) callback.

Definition isVerseChange (x : Emission) : bool := (fst x =? VERSE_CHANGE)%string.
Definition isCharacterChange (x : Emission) : bool := (fst x =? CHARACTER_CHANGE)%string.

Definition leTime (a b : TextUnit) : Prop := (time a <= time b)%Q.

(** The times of the song data in reading order: verse by verse, character
    by character. *)
Definition inputTimes (songData : Song.SongData) : list Q :=
  flat_map (fun verse => map Song.time (Song.characters verse)) (Song.verses songData).

(** Each number is at most the next one. *)
Fixpoint nondecreasing (l : list Q) : bool :=
  match l with
  | [] => true
  | x :: l' =>
    match l' with
    | [] => true
    | y :: _ => Qle_bool x y && nondecreasing l'
    end
  end.

(** A scan for units of time at most [t] has to stop at index [k]: [k] is
    past the end, or the unit there is later than [t]. *)
Definition stopsAt (chars : list TextUnit) (t : Q) (k : Z) : Prop :=
  k = JsArray.len chars \/ exists c, JsArray.get chars k = Some c /\ (t < time c)%Q.

(** What entering the unit at index [j] emits: "verse-change" first when the
    verse differs from that of the unit before it, then "character-change". *)
Definition entering (chars : list TextUnit) (j : Z) : list Emission :=
  match JsArray.get chars j with
  | None => []
  | Some cur =>
    match JsArray.get chars (j - 1) with
    | Some prev =>
      if Nat.eqb (verseIdx prev) (verseIdx cur) then [characterChange cur]
      else [verseChange cur; characterChange cur]
    | None => [verseChange cur; characterChange cur]
    end
  end.

(** The emissions of entering the [n] units after index [i], in order. *)
Fixpoint enteringFrom (chars : list TextUnit) (i : Z) (n : nat) : list Emission :=
  match n with
  | O => []
  | S n' => entering chars (i + 1) ++ enteringFrom chars (i + 1) n'
  end.

(** How many of the [n] steps after index [i] lead into a unit of another
    verse. *)
Fixpoint verseTransitions (chars : list TextUnit) (i : Z) (n : nat) : nat :=
  match n with
  | O => 0%nat
  | S n' =>
    (match JsArray.get chars i, JsArray.get chars (i + 1) with
     | Some prev, Some cur => if Nat.eqb (verseIdx prev) (verseIdx cur) then 0 else 1
     | _, _ => 0
     end + verseTransitions chars (i + 1) n')%nat
  end.

(** The units at the [n] indices after [i]. *)
Fixpoint unitsFrom (chars : list TextUnit) (i : Z) (n : nat) : list TextUnit :=
  match n with
  | O => []
  | S n' =>
    match JsArray.get chars (i + 1) with
    | Some u => u :: unitsFrom chars (i + 1) n'
    | None => []
    end
  end.

(* ===================================================================== *)
(** ** Sample data (scenario A of the specification, and variations) *)
(* ===================================================================== *)

Module Sample.

Definition cd (c : string) (t : Q) : Song.CharData :=
  {| Song.char := c; Song.pinyin := None; Song.meaning := None; Song.time := t |}.

(** Two verses in time order: times 0, 2 | 5. *)
Definition song : Song.SongData :=
  {| Song.verses :=
       [ {| Song.characters := [cd "a" 0; cd "b" 2]; Song.translation := "one" |};
         {| Song.characters := [cd "c" 5]; Song.translation := "two" |} ] |}.

(** One verse whose characters are out of time order: times 5, 2. *)
Definition shuffled : Song.SongData :=
  {| Song.verses :=
       [ {| Song.characters := [cd "x" 5; cd "y" 2]; Song.translation := "" |} ] |}.

Definition empty : Song.SongData := {| Song.verses := [] |}.

Definition at_ (t : Q) : Clock :=
  {| currentTime := t; audioDuration := Some 10%Q; stateDuration := Some 0%Q |}.

(** The units of [song], as flattened. *)
Definition a : TextUnit := spread (cd "a" 0) 0 0 0.
Definition b : TextUnit := spread (cd "b" 2) 0 1 1.
Definition c : TextUnit := spread (cd "c" 5) 1 0 2.

(** The cursor and the log of a result. *)
Definition cursor (r : Result (Engine * list Emission)) : option Z :=
  match r with
  | Ok (e, _) => Some (currentIndex e)
  | _ => None
  end.

Definition emitted (r : Result (Engine * list Emission)) : option (list Emission) :=
  match r with
  | Ok (_, log) => Some log
  | _ => None
  end.

End Sample.

(* ===================================================================== *)
(** ** Arrays: reading by index *)
(* ===================================================================== *)

Section ArrayFacts.

Context {A : Type}.
Implicit Types (a : list A) (i : Z).

Lemma get_Some a i x :
  JsArray.get a i = Some x <-> 0 <= i /\ nth_error a (Z.to_nat i) = Some x.
Proof.
  unfold JsArray.get. destruct (Z.ltb_spec i 0); split.
  - discriminate.
  - intros [? _]. lia.
  - auto.
  - now intros [_ ?].
Qed.

Lemma get_in_range a i x : JsArray.get a i = Some x -> 0 <= i < JsArray.len a.
Proof.
  intros H. apply get_Some in H. destruct H as [H0 H].
  assert (Hlt : (Z.to_nat i < length a)%nat)
    by (apply nth_error_Some; congruence).
  unfold JsArray.len. lia.
Qed.

Lemma get_defined a i : 0 <= i < JsArray.len a -> exists x, JsArray.get a i = Some x.
Proof.
  unfold JsArray.len. intros H.
  destruct (nth_error a (Z.to_nat i)) eqn:E.
  - exists a0. apply get_Some. split; [lia | assumption].
  - apply nth_error_None in E. lia.
Qed.

Lemma len_nonempty a : a <> [] <-> 0 < JsArray.len a.
Proof.
  unfold JsArray.len. destruct a; simpl; split; intros; try congruence; lia.
Qed.

(** Distinct positions of a duplicate-free array hold distinct values. *)
Lemma get_inj a i j x :
  NoDup a -> JsArray.get a i = Some x -> JsArray.get a j = Some x -> i = j.
Proof.
  intros Hnd Hi Hj.
  pose proof (get_in_range _ _ _ Hi). pose proof (get_in_range _ _ _ Hj).
  apply get_Some in Hi. apply get_Some in Hj.
  destruct Hi as [_ Hi]. destruct Hj as [_ Hj].
  assert (Z.to_nat i = Z.to_nat j).
  { eapply NoDup_nth_error; eauto.
    - apply nth_error_Some. congruence.
    - congruence. }
  lia.
Qed.

End ArrayFacts.

(* ===================================================================== *)
(** ** The sort *)
(* ===================================================================== *)

Lemma byTime_test x y : Qle_bool (byTime x y) 0 = true <-> leTime x y.
Proof.
  rewrite Qle_bool_iff. unfold byTime, leTime. split; intros; lra.
Qed.

Lemma byTime_test_false x y : Qle_bool (byTime x y) 0 = false -> (time y < time x)%Q.
Proof.
  intros H. apply Qnot_le_lt. intros Hle.
  apply byTime_test in Hle. congruence.
Qed.

Section Sort.

Context {A : Type} (cmp : A -> A -> Q).

Lemma insert_perm x l : Permutation (JsArray.insert cmp x l) (x :: l).
Proof.
  induction l as [|y l IH]; simpl.
  - reflexivity.
  - destruct (Qle_bool (cmp x y) 0).
    + reflexivity.
    + rewrite IH. apply perm_swap.
Qed.

Lemma sort_perm l : Permutation (JsArray.sort cmp l) l.
Proof.
  induction l as [|x l IH]; simpl.
  - constructor.
  - rewrite insert_perm. now constructor.
Qed.

Lemma sort_length l : length (JsArray.sort cmp l) = length l.
Proof. apply Permutation_length, sort_perm. Qed.

End Sort.

Lemma insert_sorted x l :
  StronglySorted leTime l -> StronglySorted leTime (JsArray.insert byTime x l).
Proof.
  induction 1 as [|y l Hs IH Hall]; simpl.
  - repeat constructor.
  - destruct (Qle_bool (byTime x y) 0) eqn:E.
    + apply byTime_test in E.
      constructor; [now constructor |].
      constructor; [assumption |].
      eapply Forall_impl; [| exact Hall].
      intros z Hz. unfold leTime in *. lra.
    + apply byTime_test_false in E.
      constructor; [assumption |].
      eapply Permutation_Forall.
      * symmetry. apply insert_perm.
      * constructor; [unfold leTime; lra | assumption].
Qed.

Lemma sort_sorted l : StronglySorted leTime (JsArray.sort byTime l).
Proof.
  induction l; simpl; [constructor | now apply insert_sorted].
Qed.

(** On an array already in order the sort changes nothing (stability). *)
Lemma sort_id l : StronglySorted leTime l -> JsArray.sort byTime l = l.
Proof.
  induction 1 as [|x l Hs IH Hall]; simpl; [reflexivity |].
  rewrite IH. destruct l as [|y l']; simpl; [reflexivity |].
  assert (Hxy : leTime x y) by (inversion Hall; assumption).
  apply byTime_test in Hxy. now rewrite Hxy.
Qed.

Lemma sorted_nth (l : list TextUnit) :
  StronglySorted leTime l ->
  forall i j a b, (i < j)%nat ->
    nth_error l i = Some a -> nth_error l j = Some b -> leTime a b.
Proof.
  induction 1 as [|x l Hs IH Hall]; intros i j a b Hij Ha Hb.
  - destruct i; discriminate.
  - destruct j as [|j]; [lia |]. simpl in Hb.
    destruct i as [|i]; simpl in Ha.
    + injection Ha as <-. rewrite Forall_forall in Hall.
      apply Hall. eapply nth_error_In, Hb.
    + eapply IH; [| exact Ha | exact Hb]. lia.
Qed.

Lemma sorted_get (l : list TextUnit) i j a b :
  StronglySorted leTime l -> i < j ->
  JsArray.get l i = Some a -> JsArray.get l j = Some b -> leTime a b.
Proof.
  intros Hs Hij Ha Hb.
  apply get_Some in Ha. apply get_Some in Hb.
  destruct Ha as [H0 Ha]. destruct Hb as [_ Hb].
  eapply sorted_nth; [exact Hs | | exact Ha | exact Hb]. lia.
Qed.

(* ===================================================================== *)
(** ** flattenCharacters *)
(* ===================================================================== *)

Section Flatten.

(** Every [push] numbers the new unit with the length so far. *)
Lemma pushChars_globalIdx verseIdx :
  forall cs charIdx chars,
    map globalIdx chars = seq 0 (length chars) ->
    let chars' :=
      JsArray.forEach_from
        (fun charData charIdx chars =>
           JsArray.push chars (spread charData verseIdx charIdx (length chars)))
        cs charIdx chars in
    map globalIdx chars' = seq 0 (length chars')
    /\ map time chars' = map time chars ++ map Song.time cs.
Proof.
  induction cs as [|c cs IH]; intros charIdx chars H; simpl.
  - split; [assumption | now rewrite app_nil_r].
  - specialize (IH (S charIdx)
                   (JsArray.push chars (spread c verseIdx charIdx (length chars)))).
    simpl in IH. unfold JsArray.push in *.
    destruct IH as [IH1 IH2].
    + rewrite map_app, length_app, H. simpl.
      rewrite Nat.add_1_r, seq_S. reflexivity.
    + split; [exact IH1 |].
      rewrite IH2, map_app. simpl. now rewrite <- app_assoc.
Qed.

Lemma pushVerse_globalIdx verse verseIdx chars :
  map globalIdx chars = seq 0 (length chars) ->
  map globalIdx (pushVerse verse verseIdx chars)
  = seq 0 (length (pushVerse verse verseIdx chars))
  /\ map time (pushVerse verse verseIdx chars)
     = map time chars ++ map Song.time (Song.characters verse).
Proof. intros H. now apply pushChars_globalIdx. Qed.

Lemma pushVerses_globalIdx :
  forall vs verseIdx chars,
    map globalIdx chars = seq 0 (length chars) ->
    let chars' := JsArray.forEach_from pushVerse vs verseIdx chars in
    map globalIdx chars' = seq 0 (length chars')
    /\ map time chars' =
       map time chars ++ flat_map (fun verse => map Song.time (Song.characters verse)) vs.
Proof.
  induction vs as [|v vs IH]; intros verseIdx chars H; simpl.
  - split; [assumption | now rewrite app_nil_r].
  - destruct (pushVerse_globalIdx v verseIdx chars H) as [H1 H2].
    destruct (IH (S verseIdx) (pushVerse v verseIdx chars) H1) as [IH1 IH2].
    split; [exact IH1 |].
    rewrite IH2, H2. now rewrite <- app_assoc.
Qed.

Lemma pushAll_globalIdx songData :
  map globalIdx (pushAll songData) = seq 0 (length (pushAll songData)).
Proof. now apply (pushVerses_globalIdx (Song.verses songData) 0%nat []). Qed.

Lemma pushAll_times songData : map time (pushAll songData) = inputTimes songData.
Proof. now apply (pushVerses_globalIdx (Song.verses songData) 0%nat []). Qed.

Lemma flatten_perm songData : Permutation (flattenCharacters songData) (pushAll songData).
Proof. apply sort_perm. Qed.

Lemma flatten_globalIdx_perm songData :
  Permutation (map globalIdx (flattenCharacters songData))
              (seq 0 (length (flattenCharacters songData))).
Proof.
  unfold flattenCharacters. rewrite sort_length, <- pushAll_globalIdx.
  apply Permutation_map, sort_perm.
Qed.

(** The units of the sequence are pairwise distinct (they differ in
    [globalIdx]). *)
Lemma flatten_NoDup songData : NoDup (flattenCharacters songData).
Proof.
  apply (NoDup_map_inv globalIdx).
  eapply Permutation_NoDup.
  - symmetry. apply flatten_globalIdx_perm.
  - apply seq_NoDup.
Qed.

Lemma flatten_sorted songData : StronglySorted leTime (flattenCharacters songData).
Proof. apply sort_sorted. Qed.

Lemma sorted_of_times (l : list TextUnit) :
  Sorted Qle (map time l) -> StronglySorted leTime l.
Proof.
  intros H. apply Sorted_StronglySorted in H.
  - induction l as [|x l IH]; [constructor |].
    simpl in H. inversion H as [|? ? Hs Hall]; subst.
    constructor; [now apply IH |].
    rewrite Forall_map in Hall. exact Hall.
  - intros p q r. apply Qle_trans.
Qed.

Lemma flatten_of_sorted songData :
  Sorted Qle (inputTimes songData) -> flattenCharacters songData = pushAll songData.
Proof.
  intros H. apply sort_id, sorted_of_times. now rewrite pushAll_times.
Qed.

End Flatten.

Lemma nondecreasing_Sorted l : nondecreasing l = true -> Sorted Qle l.
Proof.
  induction l as [|x l IH]; intros H; [constructor |].
  simpl in H. destruct l as [|y l'].
  - repeat constructor.
  - apply andb_prop in H. destruct H as [Hxy Hrest].
    constructor; [now apply IH |].
    constructor. now apply Qle_bool_iff.
Qed.

Lemma seq_map_nth {B : Type} (f : B -> nat) (l : list B) n u :
  map f l = seq 0 (length l) -> nth_error l n = Some u -> f u = n.
Proof.
  intros Hmap Hn.
  assert (Hlt : (n < length l)%nat) by (apply nth_error_Some; congruence).
  pose proof (f_equal (fun m => nth n m (f u)) Hmap) as E. simpl in E.
  rewrite map_nth, seq_nth in E by assumption.
  rewrite (nth_error_nth _ _ _ Hn) in E. exact E.
Qed.

(** C5 — P1, sort invariant.  For every song data the flattened sequence is
    non-decreasing in time: whenever indices [i] and [i+1] are both in
    range, [sequence[i].time <= sequence[i+1].time], whatever the order of
    the characters in the input. *)
Theorem flattenCharacters_nondecreasing :
  forall songData i a b,
    JsArray.get (flattenCharacters songData) i = Some a ->
    JsArray.get (flattenCharacters songData) (i + 1) = Some b ->
    (time a <= time b)%Q.
Proof.
  intros songData i a b Ha Hb.
  apply (sorted_get (flattenCharacters songData) i (i + 1) a b);
    [apply flatten_sorted | lia | assumption | assumption].
Qed.

Lemma flattenCharacters_nondecreasing_witness :
  exists a b,
    JsArray.get (flattenCharacters Sample.shuffled) 0 = Some a
    /\ JsArray.get (flattenCharacters Sample.shuffled) (0 + 1) = Some b
    /\ (time a <= time b)%Q.
Proof.
  eexists. eexists.
  split; [reflexivity |]. split; [reflexivity |].
  apply (flattenCharacters_nondecreasing Sample.shuffled 0); reflexivity.
Defined.

(** C4, as stated, fails: with one verse whose characters carry the times 5
    and 2, the unit at position 0 of the sequence has [globalIdx] 1. *)
Lemma globalIdx_is_not_sorted_position :
  ~ (forall songData i u,
        JsArray.get (flattenCharacters songData) i = Some u ->
        Z.of_nat (globalIdx u) = i).
Proof.
  intros H. specialize (H Sample.shuffled 0 _ eq_refl).
  vm_compute in H. discriminate H.
Qed.

(** C4, amended.  [globalIdx] is the unit's position in the array before
    the sort (reading order: verse by verse, character by character); the
    sequence therefore carries each of 0 .. length-1 once; and when the
    times of the song data are already non-decreasing in reading order,
    [sequence[i].globalIdx = i] for every index in range. *)
Theorem globalIdx_is_reading_position :
  forall songData,
    (forall n u, nth_error (pushAll songData) n = Some u -> globalIdx u = n)
    /\ Permutation (flattenCharacters songData) (pushAll songData)
    /\ Permutation (map globalIdx (flattenCharacters songData))
                   (seq 0 (length (flattenCharacters songData)))
    /\ (nondecreasing (inputTimes songData) = true ->
        forall i u,
          JsArray.get (flattenCharacters songData) i = Some u ->
          Z.of_nat (globalIdx u) = i).
Proof.
  intros songData. repeat split.
  - intros n u. apply seq_map_nth, pushAll_globalIdx.
  - apply flatten_perm.
  - apply flatten_globalIdx_perm.
  - intros Hsorted i u Hu.
    rewrite flatten_of_sorted in Hu by now apply nondecreasing_Sorted.
    apply get_Some in Hu. destruct Hu as [H0 Hu].
    apply (seq_map_nth globalIdx _ _ _ (pushAll_globalIdx songData)) in Hu.
    lia.
Qed.

Lemma globalIdx_is_reading_position_witness :
  nondecreasing (inputTimes Sample.song) = true
  /\ forall i u,
       JsArray.get (flattenCharacters Sample.song) i = Some u ->
       Z.of_nat (globalIdx u) = i.
Proof.
  split; [reflexivity |].
  apply (globalIdx_is_reading_position Sample.song). reflexivity.
Defined.

(* ===================================================================== *)
(** ** seekTo *)
(* ===================================================================== *)

Lemma Qle_bool_false x y : Qle_bool x y = false -> (y < x)%Q.
Proof.
  intros H. apply Qnot_le_lt. intros Hle.
  apply Qle_bool_iff in Hle. congruence.
Qed.

(** The loop returns: it either stops at once and keeps [newIndex], or it
    ends on the last index of the run of units of time at most [t] that
    starts at [i]. *)
Lemma seekScan_spec chars t :
  forall fuel i newIndex,
    0 <= i <= JsArray.len chars ->
    JsArray.len chars - i < Z.of_nat fuel ->
    exists r,
      seekScan fuel chars t i newIndex = Ok r
      /\ ((r = newIndex /\ stopsAt chars t i)
          \/ (i <= r < JsArray.len chars
              /\ (forall j c, i <= j <= r -> JsArray.get chars j = Some c -> (time c <= t)%Q)
              /\ stopsAt chars t (r + 1))).
Proof.
  induction fuel as [|fuel IH]; intros i newIndex Hi Hfuel; [lia |].
  simpl. destruct (Z.ltb_spec i (JsArray.len chars)) as [Hlt|Hge].
  - destruct (get_defined chars i) as [c Hc]; [lia |]. rewrite Hc.
    destruct (Qle_bool (time c) t) eqn:Hle.
    + apply Qle_bool_iff in Hle.
      destruct (IH (i + 1) i) as [r [Hr Hcases]]; [lia | lia |].
      exists r. split; [exact Hr | right].
      destruct Hcases as [[-> Hstop] | [Hrange [Hall Hstop]]].
      * split; [lia |]. split; [| exact Hstop].
        intros j c' Hj Hc'. assert (j = i) by lia. subst j.
        rewrite Hc in Hc'. now injection Hc' as <-.
      * split; [lia |]. split; [| exact Hstop].
        intros j c' Hj Hc'. destruct (Z.eq_dec j i) as [-> | Hne].
        -- rewrite Hc in Hc'. now injection Hc' as <-.
        -- apply (Hall j); [lia | assumption].
    + exists newIndex. split; [reflexivity | left].
      split; [reflexivity |]. right. exists c. split; [exact Hc |].
      now apply Qle_bool_false.
  - exists newIndex. split; [reflexivity | left].
    split; [reflexivity |]. left. lia.
Qed.

(** [seekTo] on any array: it never throws, changes the cursor only, and
    the cursor is described by the scan from index 0. *)
Lemma seekTo_spec t e :
  exists r log,
    seekTo t e = Ok (setCurrentIndex e r, log)
    /\ log = match JsArray.get (characters e) r with
             | Some u => [verseChange u; characterChange u]
             | None => []
             end
    /\ ((r = 0 /\ stopsAt (characters e) t 0)
        \/ (0 <= r < JsArray.len (characters e)
            /\ (forall j c, 0 <= j <= r ->
                  JsArray.get (characters e) j = Some c -> (time c <= t)%Q)
            /\ stopsAt (characters e) t (r + 1))).
Proof.
  destruct (seekScan_spec (characters e) t (S (length (characters e))) 0 0)
    as [r [Hr Hcases]].
  - unfold JsArray.len. lia.
  - unfold JsArray.len. lia.
  - exists r. unfold seekTo. rewrite Hr. simpl.
    destruct (JsArray.get (characters e) r) as [u|]; eauto.
Qed.

(** No sorted array has a unit of time at most [t] at or after an index
    where the scan has to stop. *)
Lemma stopsAt_sorted chars t k j c :
  StronglySorted leTime chars ->
  stopsAt chars t k -> k <= j ->
  JsArray.get chars j = Some c -> ~ (time c <= t)%Q.
Proof.
  intros Hs [Hend | [c0 [Hc0 Hlater]]] Hkj Hc Hle.
  - apply get_in_range in Hc. lia.
  - destruct (Z.eq_dec j k) as [-> | Hne].
    + rewrite Hc0 in Hc. injection Hc as <-. lra.
    + assert (leTime c0 c)
        by (apply (sorted_get chars k j); [assumption | lia | assumption | assumption]).
      unfold leTime in *. lra.
Qed.

(** C1 — P3, seek correctness.  On a flattened sequence [seekTo(t)] returns
    and sets the cursor to the highest index whose unit has time at most
    [t]: that unit's time is at most [t], no higher index qualifies, and the
    cursor is the last index or the next unit is later than [t].  When no
    index qualifies ([t] is before the first unit's time) the cursor is 0. *)
Theorem seekTo_highest_index :
  forall songData e t,
    characters e = flattenCharacters songData ->
    characters e <> [] ->
    exists e' log,
      seekTo t e = Ok (e', log)
      /\ characters e' = characters e
      /\ ((exists j c, JsArray.get (characters e) j = Some c /\ (time c <= t)%Q) ->
          (exists c, JsArray.get (characters e) (currentIndex e') = Some c
                     /\ (time c <= t)%Q)
          /\ (forall j c, JsArray.get (characters e) j = Some c ->
                          (time c <= t)%Q -> j <= currentIndex e')
          /\ (currentIndex e' = JsArray.len (characters e) - 1
              \/ exists next, JsArray.get (characters e) (currentIndex e' + 1) = Some next
                              /\ (t < time next)%Q))
      /\ ((forall j c, JsArray.get (characters e) j = Some c -> ~ (time c <= t)%Q) ->
          currentIndex e' = 0)
      /\ (forall first, JsArray.get (characters e) 0 = Some first ->
                        (t < time first)%Q -> currentIndex e' = 0).
Proof.
  intros songData e t Hflat _.
  assert (Hs : StronglySorted leTime (characters e))
    by (rewrite Hflat; apply flatten_sorted).
  destruct (seekTo_spec t e) as [r [log [Hseek [_ Hcases]]]].
  exists (setCurrentIndex e r), log. simpl.
  split; [exact Hseek |]. split; [reflexivity |].
  destruct Hcases as [[-> Hstop] | [Hrange [Hall Hstop]]].
  - split; [| split; [reflexivity | reflexivity]].
    intros [j [c [Hc Hle]]]. exfalso.
    apply (stopsAt_sorted _ _ _ j c Hs Hstop); [| assumption | assumption].
    apply get_in_range in Hc. lia.
  - destruct (get_defined (characters e) r) as [c Hc]; [lia |].
    assert (Hle : (time c <= t)%Q) by (apply (Hall r); [lia | assumption]).
    split; [| split].
    + intros _. split; [eauto |]. split.
      * intros j c' Hc' Hle'.
        destruct (Z_le_gt_dec j r) as [|Hgt]; [assumption | exfalso].
        apply (stopsAt_sorted _ _ _ j c' Hs Hstop); [lia | assumption | assumption].
      * destruct Hstop as [Hend | Hnext]; [left; lia | right; exact Hnext].
    + intros Hnone. exfalso. apply (Hnone r c); assumption.
    + intros first Hfirst Hlater.
      destruct (Z.eq_dec r 0) as [|Hne]; [assumption | exfalso].
      assert (Hle0 : (time first <= t)%Q) by (apply (Hall 0); [lia | assumption]).
      lra.
Qed.

Lemma seekTo_highest_index_witness :
  characters (constructor Sample.song) = flattenCharacters Sample.song
  /\ characters (constructor Sample.song) <> []
  /\ exists e' log,
       seekTo 4 (constructor Sample.song) = Ok (e', log)
       /\ currentIndex e' = 1.
Proof.
  split; [reflexivity |]. split; [discriminate |].
  destruct (seekTo_highest_index Sample.song (constructor Sample.song) 4 eq_refl)
    as [e' [log [Hseek _]]]; [discriminate |].
  exists e', log. split; [exact Hseek |].
  vm_compute in Hseek. injection Hseek as <- _. reflexivity.
Defined.

(* ===================================================================== *)
(** ** update *)
(* ===================================================================== *)

Lemma setCurrentIndex_same e : setCurrentIndex e (currentIndex e) = e.
Proof. now destruct e. Qed.

(** What one successful test of the loop emits is [entering]. *)
Lemma entering_step chars j cur (log : list Emission) :
  JsArray.get chars j = Some cur ->
  (match JsArray.get chars (j - 1) with
   | Some prev =>
     if Nat.eqb (verseIdx prev) (verseIdx cur) then [] else [verseChange cur]
   | None => [verseChange cur]
   end) ++ characterChange cur :: log
  = entering chars j ++ log.
Proof.
  intros Hcur. unfold entering. rewrite Hcur.
  destruct (JsArray.get chars (j - 1)) as [prev|]; [| reflexivity].
  now destruct (Nat.eqb (verseIdx prev) (verseIdx cur)).
Qed.

(** The loop returns within its budget.  It moves the cursor over [n]
    units, each of time at most [t], emits what entering them emits, and
    stops at the last index or in front of a later unit. *)
Lemma advance_spec t :
  forall fuel e,
    -1 <= currentIndex e ->
    Z.max 0 (JsArray.len (characters e) - 1 - currentIndex e) < Z.of_nat fuel ->
    exists n,
      advance fuel t e
      = Ok (setCurrentIndex e (currentIndex e + Z.of_nat n),
            enteringFrom (characters e) (currentIndex e) n)
      /\ (n = 0%nat \/ currentIndex e + Z.of_nat n <= JsArray.len (characters e) - 1)
      /\ (forall k, 0 < k <= Z.of_nat n ->
            exists c, JsArray.get (characters e) (currentIndex e + k) = Some c
                      /\ (time c <= t)%Q)
      /\ (JsArray.len (characters e) - 1 <= currentIndex e + Z.of_nat n
          \/ exists c, JsArray.get (characters e) (currentIndex e + Z.of_nat n + 1) = Some c
                       /\ (t < time c)%Q).
Proof.
  induction fuel as [|fuel IH]; intros e Hlow Hfuel; [lia |].
  cbn [advance].
  destruct (Z.ltb_spec (currentIndex e) (JsArray.len (characters e) - 1)) as [Hlt|Hge].
  - destruct (get_defined (characters e) (currentIndex e + 1)) as [next Hnext]; [lia |].
    rewrite Hnext.
    destruct (Qle_bool (time next) t) eqn:Hle.
    + cbn [characters currentIndex setCurrentIndex]. rewrite Hnext.
      destruct (IH (setCurrentIndex e (currentIndex e + 1))) as [n [Hadv [Hbound [Hall Hstop]]]];
        cbn [characters currentIndex setCurrentIndex]; [lia | lia |].
      cbn [characters currentIndex setCurrentIndex] in *.
      exists (S n). rewrite Hadv. cbn [bind enteringFrom].
      rewrite entering_step by assumption.
      split; [| split; [| split]].
      * do 2 f_equal. destruct e; unfold setCurrentIndex; cbn. f_equal. lia.
      * right. lia.
      * intros k Hk. destruct (Z.eq_dec k 1) as [-> | Hne].
        -- exists next. split; [assumption | now apply Qle_bool_iff].
        -- destruct (Hall (k - 1)) as [c [Hc Hct]]; [lia |].
           exists c. split; [| assumption].
           rewrite <- Hc. f_equal. lia.
      * destruct Hstop as [Hend | [c [Hc Hct]]]; [left; lia | right].
        exists c. split; [| assumption]. rewrite <- Hc. f_equal. lia.
    + exists 0%nat. cbn [enteringFrom]. rewrite Z.add_0_r, setCurrentIndex_same.
      split; [reflexivity |]. split; [now left |]. split; [intros; lia |].
      right. exists next. split; [assumption | now apply Qle_bool_false].
  - exists 0%nat. cbn [enteringFrom]. rewrite Z.add_0_r, setCurrentIndex_same.
    split; [reflexivity |]. split; [now left |]. split; [intros; lia |].
    left. lia.
Qed.

Lemma update_stopped clock e : isRunning e = false -> update clock e = Ok (e, []).
Proof. intros H. unfold update. now rewrite H. Qed.

Lemma update_running clock e :
  -1 <= currentIndex e -> isRunning e = true ->
  exists n,
    update clock e
    = Ok (setSyncLoop (setCurrentIndex e (currentIndex e + Z.of_nat n)) true,
          timeUpdate (currentTime clock) (guardedDuration clock)
            :: enteringFrom (characters e) (currentIndex e) n)
    /\ (n = 0%nat \/ currentIndex e + Z.of_nat n <= JsArray.len (characters e) - 1)
    /\ (forall k, 0 < k <= Z.of_nat n ->
          exists c, JsArray.get (characters e) (currentIndex e + k) = Some c
                    /\ (time c <= currentTime clock)%Q)
    /\ (JsArray.len (characters e) - 1 <= currentIndex e + Z.of_nat n
        \/ exists c, JsArray.get (characters e) (currentIndex e + Z.of_nat n + 1) = Some c
                     /\ (currentTime clock < time c)%Q).
Proof.
  intros Hlow Hrun.
  destruct (advance_spec (currentTime clock) (S (length (characters e))) e)
    as [n [Hadv Hrest]]; [assumption | unfold JsArray.len; lia |].
  exists n. split; [| exact Hrest].
  unfold update. rewrite Hrun. cbn [negb]. rewrite Hadv. reflexivity.
Qed.

(** The first two emissions of [startSync]. *)
Lemma startSync_initial e :
  cursorOk e ->
  (if 0 <? JsArray.len (characters e) then
     match JsArray.get (characters e) (currentIndex e) with
     | None => Throw TypeError
     | Some firstChar => Ok [verseChange firstChar; characterChange firstChar]
     end
   else Ok [])
  = Ok (match JsArray.get (characters e) (currentIndex e) with
        | Some u => [verseChange u; characterChange u]
        | None => []
        end).
Proof.
  unfold cursorOk. intros Hc.
  destruct (Z.ltb_spec 0 (JsArray.len (characters e))) as [Hpos|Hempty].
  - destruct (get_defined (characters e) (currentIndex e)) as [u Hu]; [lia |].
    now rewrite Hu.
  - destruct (JsArray.get (characters e) (currentIndex e)) eqn:E; [| reflexivity].
    apply get_in_range in E. lia.
Qed.

Lemma startSync_running clock e : isRunning e = true -> startSync clock e = Ok (e, []).
Proof. intros H. unfold startSync. now rewrite H. Qed.

Lemma startSync_stopped clock e :
  cursorOk e -> isRunning e = false ->
  exists e' rest,
    startSync clock e
    = Ok (e', match JsArray.get (characters e) (currentIndex e) with
              | Some u => [verseChange u; characterChange u]
              | None => []
              end ++ rest)
    /\ update clock (setIsRunning e true) = Ok (e', rest).
Proof.
  intros Hc Hrun.
  destruct (update_running clock (setIsRunning e true)) as [n [Hupd _]];
    [unfold cursorOk in Hc; simpl; lia | reflexivity |].
  eexists. eexists. split; [| exact Hupd].
  unfold startSync. rewrite Hrun.
  pose proof (startSync_initial (setIsRunning e true) Hc) as Hinit.
  cbn [characters currentIndex setIsRunning] in Hinit |- *.
  rewrite Hinit. cbn [bind]. rewrite Hupd. reflexivity.
Qed.

(** *** What every call preserves *)

Lemma on_characters event callback e e' :
  on event callback e = Ok e' ->
  characters e' = characters e /\ currentIndex e' = currentIndex e
  /\ isRunning e' = isRunning e.
Proof.
  unfold on. destruct (property (handlers e) event); intros H;
    inversion H; subst; auto.
Qed.

Lemma off_characters event callback e e' :
  off event callback e = Ok e' ->
  characters e' = characters e /\ currentIndex e' = currentIndex e
  /\ isRunning e' = isRunning e.
Proof.
  unfold off. destruct (property (handlers e) event); intros H;
    inversion H; subst; auto.
Qed.

Lemma stopSync_fields e :
  characters (stopSync e) = characters e
  /\ currentIndex (stopSync e) = currentIndex e
  /\ isRunning (stopSync e) = false.
Proof. unfold stopSync. simpl. destruct (syncLoop e); auto. Qed.

Lemma call_invariant c e e' log :
  cursorOk e -> call c e = Ok (e', log) ->
  characters e' = characters e /\ cursorOk e'.
Proof.
  intros Hc Hcall. unfold cursorOk in *. destruct c; simpl in Hcall.
  - (* startSync *)
    destruct (isRunning e) eqn:Hrun.
    + rewrite startSync_running in Hcall by assumption.
      inversion Hcall; subst; auto.
    + destruct (startSync_stopped clock e Hc Hrun) as [e1 [rest [Hs Hupd]]].
      rewrite Hs in Hcall. inversion Hcall; subst e1 log; clear Hcall.
      destruct (update_running clock (setIsRunning e true)) as [n [Hupd' [Hb _]]];
        [simpl; lia | reflexivity |].
      rewrite Hupd' in Hupd. inversion Hupd; subst; clear Hupd. simpl in *.
      split; [reflexivity | lia].
  - inversion Hcall; subst. destruct (stopSync_fields e) as [-> [-> _]]. auto.
  - (* update *)
    destruct (isRunning e) eqn:Hrun.
    + destruct (update_running clock e) as [n [Hupd [Hb _]]]; [lia | assumption |].
      rewrite Hupd in Hcall. inversion Hcall; subst; clear Hcall. simpl.
      split; [reflexivity | lia].
    + rewrite update_stopped in Hcall by assumption. inversion Hcall; subst; auto.
  - (* seekTo *)
    destruct (seekTo_spec time' e) as [r [log' [Hseek [_ Hcases]]]].
    rewrite Hseek in Hcall. inversion Hcall; subst; clear Hcall. simpl.
    split; [reflexivity |]. destruct Hcases as [[-> _] | [Hr _]]; lia.
  - inversion Hcall; subst. unfold reset.
    destruct (stopSync_fields (setCurrentIndex e 0)) as [-> [-> _]]. simpl.
    split; [reflexivity | lia].
  - destruct (on event callback e) as [e1| |] eqn:Hon; simpl in Hcall; try discriminate.
    inversion Hcall; subst.
    destruct (on_characters _ _ _ _ Hon) as [-> [-> _]]. auto.
  - destruct (off event callback e) as [e1| |] eqn:Hoff; simpl in Hcall; try discriminate.
    inversion Hcall; subst.
    destruct (off_characters _ _ _ _ Hoff) as [-> [-> _]]. auto.
Qed.

Lemma run_invariant history :
  forall e e' log,
    cursorOk e -> run history e = Ok (e', log) ->
    characters e' = characters e /\ cursorOk e'.
Proof.
  induction history as [|c rest IH]; intros e e' log Hc Hrun; simpl in Hrun.
  - inversion Hrun; subst; auto.
  - destruct (call c e) as [[e1 log1]| |] eqn:Hcall; simpl in Hrun; try discriminate.
    destruct (run rest e1) as [[e2 log2]| |] eqn:Hrest; simpl in Hrun; try discriminate.
    inversion Hrun; subst; clear Hrun.
    destruct (call_invariant _ _ _ _ Hc Hcall) as [Hch1 Hc1].
    destruct (IH _ _ _ Hc1 Hrest) as [Hch2 Hc2].
    split; [congruence | assumption].
Qed.

Lemma constructor_cursorOk songData : cursorOk (constructor songData).
Proof. unfold cursorOk. simpl. lia. Qed.

(** Every engine reached from the constructor holds the flattened sequence
    of its song data and a cursor within it. *)
Lemma reached_invariant songData history e log :
  run history (constructor songData) = Ok (e, log) ->
  characters e = flattenCharacters songData /\ cursorOk e.
Proof.
  intros H. apply run_invariant in H; [| apply constructor_cursorOk].
  exact H.
Qed.

Lemma cursorOk_inBounds e : cursorOk e -> characters e <> [] -> inBounds e.
Proof.
  unfold cursorOk, inBounds. intros Hc Hne. apply len_nonempty in Hne. lia.
Qed.

(** *** The emissions of a scan *)

Lemma entering_cases chars j cur :
  JsArray.get chars j = Some cur ->
  entering chars j = [characterChange cur]
  \/ entering chars j = [verseChange cur; characterChange cur].
Proof.
  intros H. unfold entering. rewrite H.
  destruct (JsArray.get chars (j - 1)) as [prev|]; [| now right].
  destruct (Nat.eqb (verseIdx prev) (verseIdx cur)); [now left | now right].
Qed.

Lemma entering_characterChange chars j cur :
  JsArray.get chars j = Some cur ->
  filter isCharacterChange (entering chars j) = [characterChange cur].
Proof.
  intros H. destruct (entering_cases chars j cur H) as [-> | ->]; reflexivity.
Qed.

Section Scan.

Variable chars : list TextUnit.

(** All of the [n] indices after [i] are in range. *)
Let defined (i : Z) (n : nat) : Prop :=
  forall k, 0 < k <= Z.of_nat n -> exists c, JsArray.get chars (i + k) = Some c.

Lemma defined_step i n : defined i (S n) -> defined (i + 1) n.
Proof.
  intros H k Hk. destruct (H (k + 1)) as [c Hc]; [lia |].
  exists c. rewrite <- Hc. f_equal. lia.
Qed.

Lemma defined_first i n : defined i (S n) -> exists c, JsArray.get chars (i + 1) = Some c.
Proof. intros H. apply H. lia. Qed.

Lemma enteringFrom_characterChange :
  forall n i, defined i n ->
    filter isCharacterChange (enteringFrom chars i n)
    = map characterChange (unitsFrom chars i n).
Proof.
  induction n as [|n IH]; intros i Hdef; [reflexivity |].
  destruct (defined_first _ _ Hdef) as [c Hc].
  cbn [enteringFrom unitsFrom]. rewrite Hc, filter_app.
  rewrite (entering_characterChange _ _ _ Hc), IH by now apply defined_step.
  reflexivity.
Qed.

Lemma unitsFrom_nth :
  forall n i, defined i n ->
    length (unitsFrom chars i n) = n
    /\ forall k, (k < n)%nat ->
         nth_error (unitsFrom chars i n) k = JsArray.get chars (i + 1 + Z.of_nat k).
Proof.
  induction n as [|n IH]; intros i Hdef; [split; [reflexivity | intros; lia] |].
  destruct (defined_first _ _ Hdef) as [c Hc].
  destruct (IH (i + 1) (defined_step _ _ Hdef)) as [Hlen Hnth].
  cbn [unitsFrom]. rewrite Hc. split; [simpl; now rewrite Hlen |].
  intros [|k] Hk; simpl.
  - rewrite Z.add_0_r. now rewrite Hc.
  - rewrite Hnth by lia. f_equal. lia.
Qed.

Lemma enteringFrom_verseChange :
  forall n i, 0 <= i -> (exists c, JsArray.get chars i = Some c) -> defined i n ->
    length (filter isVerseChange (enteringFrom chars i n)) = verseTransitions chars i n.
Proof.
  induction n as [|n IH]; intros i Hi [p Hp] Hdef; [reflexivity |].
  destruct (defined_first _ _ Hdef) as [c Hc].
  cbn [enteringFrom verseTransitions].
  rewrite filter_app, length_app, IH; [| lia | eauto | now apply defined_step].
  f_equal. unfold entering. rewrite Hc, Hp.
  replace (i + 1 - 1) with i by lia. rewrite Hp.
  now destruct (Nat.eqb (verseIdx p) (verseIdx c)).
Qed.

Lemma enteringFrom_In :
  forall n i x, In x (enteringFrom chars i n) ->
    exists k cur, 0 < k <= Z.of_nat n
                  /\ JsArray.get chars (i + k) = Some cur
                  /\ (x = verseChange cur \/ x = characterChange cur).
Proof.
  induction n as [|n IH]; intros i x Hin; [contradiction |].
  cbn [enteringFrom] in Hin. apply in_app_or in Hin. destruct Hin as [Hin | Hin].
  - destruct (JsArray.get chars (i + 1)) as [cur|] eqn:Hcur.
    + exists 1, cur. split; [lia |]. split; [assumption |].
      destruct (entering_cases _ _ _ Hcur) as [E | E]; rewrite E in Hin;
        simpl in Hin; intuition auto.
    + unfold entering in Hin. rewrite Hcur in Hin. contradiction.
  - destruct (IH _ _ Hin) as [k [cur [Hk [Hcur Hx]]]].
    exists (k + 1), cur. split; [lia |]. split; [| assumption].
    rewrite <- Hcur. f_equal. lia.
Qed.

End Scan.

(** C2 — the forward-scan rule.  On an engine that is running on a
    non-empty sequence, [update] returns; it moves the cursor forward over
    [n] units, all of time at most the playback time, and stops at the last
    index or in front of a unit that is later; "character-change" is
    emitted once for each unit reached, in order, and nothing else about
    the sequence or the cursor changes. *)
Theorem update_forward_scan :
  forall songData history e log0 clock,
    run history (constructor songData) = Ok (e, log0) ->
    characters e <> [] ->
    isRunning e = true ->
    exists e' log (n : nat),
      update clock e = Ok (e', log)
      /\ characters e' = characters e
      /\ currentIndex e' = currentIndex e + Z.of_nat n
      /\ currentIndex e' <= JsArray.len (characters e) - 1
      /\ (forall k, 0 < k <= Z.of_nat n ->
            exists c, JsArray.get (characters e) (currentIndex e + k) = Some c
                      /\ (time c <= currentTime clock)%Q)
      /\ (currentIndex e' = JsArray.len (characters e) - 1
          \/ exists next, JsArray.get (characters e) (currentIndex e' + 1) = Some next
                          /\ (currentTime clock < time next)%Q)
      /\ filter isCharacterChange log
         = map characterChange (unitsFrom (characters e) (currentIndex e) n)
      /\ length (unitsFrom (characters e) (currentIndex e) n) = n
      /\ (forall k, (k < n)%nat ->
            nth_error (unitsFrom (characters e) (currentIndex e) n) k
            = JsArray.get (characters e) (currentIndex e + 1 + Z.of_nat k)).
Proof.
  intros songData history e log0 clock Hreach Hne Hrun.
  destruct (reached_invariant _ _ _ _ Hreach) as [_ Hc].
  pose proof (cursorOk_inBounds e Hc Hne) as Hb. unfold inBounds in Hb.
  destruct (update_running clock e) as [n [Hupd [Hbound [Hall Hstop]]]];
    [lia | assumption |].
  assert (Hdef : forall k, 0 < k <= Z.of_nat n ->
                   exists c, JsArray.get (characters e) (currentIndex e + k) = Some c).
  { intros k Hk. destruct (Hall k Hk) as [c [Hcget _]]. eauto. }
  destruct (unitsFrom_nth (characters e) n (currentIndex e) Hdef) as [Hlen Hnth].
  eexists. eexists. exists n. split; [exact Hupd |].
  cbn [characters currentIndex setSyncLoop setCurrentIndex].
  split; [reflexivity |]. split; [reflexivity |]. split; [lia |].
  split; [exact Hall |]. split.
  - destruct Hstop as [Hend | Hnext]; [left; lia | right; exact Hnext].
  - split; [| split; [exact Hlen | exact Hnth]].
    cbn [filter isCharacterChange fst timeUpdate].
    change (TIME_UPDATE =? CHARACTER_CHANGE)%string with false.
    now apply enteringFrom_characterChange.
Qed.

Lemma update_forward_scan_witness :
  run [StartSync (Sample.at_ 0)] (constructor Sample.song)
  = Ok (setSyncLoop (setIsRunning (constructor Sample.song) true) true,
        [verseChange (spread (Sample.cd "a" 0) 0 0 0);
         characterChange (spread (Sample.cd "a" 0) 0 0 0);
         timeUpdate 0 10])
  /\ exists e' log,
       update (Sample.at_ 3) (setSyncLoop (setIsRunning (constructor Sample.song) true) true)
       = Ok (e', log)
       /\ currentIndex e' = 1.
Proof.
  split; [reflexivity |].
  destruct (update_forward_scan Sample.song [StartSync (Sample.at_ 0)] _ _ (Sample.at_ 3)
              eq_refl)
    as [e' [log [n [Hupd _]]]]; [discriminate | reflexivity |].
  exists e', log. split; [exact Hupd |].
  vm_compute in Hupd. injection Hupd as <- _. reflexivity.
Defined.

(* ===================================================================== *)
(** ** The cursor only moves forward between seeks and resets *)
(* ===================================================================== *)

Lemma update_total clock e :
  cursorOk e ->
  exists e' log,
    update clock e = Ok (e', log)
    /\ characters e' = characters e
    /\ cursorOk e'
    /\ currentIndex e <= currentIndex e'.
Proof.
  intros Hc. destruct (isRunning e) eqn:Hrun.
  - destruct (update_running clock e) as [n [Hupd [Hb _]]];
      [unfold cursorOk in Hc; lia | assumption |].
    eexists. eexists. split; [exact Hupd |].
    unfold cursorOk in *. simpl. split; [reflexivity |]. split; lia.
  - exists e, []. split; [now apply update_stopped |].
    split; [reflexivity |]. split; [assumption | lia].
Qed.

Lemma updates_total clocks :
  forall e, cursorOk e ->
    exists e' log,
      run (map Update clocks) e = Ok (e', log)
      /\ currentIndex e <= currentIndex e'.
Proof.
  induction clocks as [|clock clocks IH]; intros e Hc.
  - exists e, []. split; [reflexivity | lia].
  - destruct (update_total clock e Hc) as [e1 [log1 [Hupd [_ [Hc1 Hle1]]]]].
    destruct (IH e1 Hc1) as [e2 [log2 [Hrun Hle2]]].
    exists e2, (log1 ++ log2). split; [| lia].
    cbn [map run call]. rewrite Hupd. cbn [bind]. rewrite Hrun. reflexivity.
Qed.

Lemma call_keepsPosition c e e' log :
  cursorOk e -> keepsPosition c = true -> call c e = Ok (e', log) ->
  currentIndex e <= currentIndex e'.
Proof.
  intros Hc Hkeep Hcall. destruct c; simpl in Hcall; try discriminate Hkeep.
  - destruct (isRunning e) eqn:Hrun.
    + rewrite startSync_running in Hcall by assumption.
      inversion Hcall; subst; lia.
    + destruct (startSync_stopped clock e Hc Hrun) as [e1 [rest [Hs Hupd]]].
      rewrite Hs in Hcall. inversion Hcall; subst e1 log; clear Hcall.
      destruct (update_total clock (setIsRunning e true) Hc) as [e2 [l2 [Hupd' [_ [_ Hle]]]]].
      rewrite Hupd' in Hupd. inversion Hupd; subst. exact Hle.
  - inversion Hcall; subst. destruct (stopSync_fields e) as [_ [-> _]]. lia.
  - destruct (update_total clock e Hc) as [e2 [l2 [Hupd [_ [_ Hle]]]]].
    rewrite Hupd in Hcall. inversion Hcall; subst. exact Hle.
  - destruct (on event callback e) as [e1| |] eqn:Hon; simpl in Hcall; try discriminate.
    inversion Hcall; subst.
    destruct (on_characters _ _ _ _ Hon) as [_ [-> _]]. lia.
  - destruct (off event callback e) as [e1| |] eqn:Hoff; simpl in Hcall; try discriminate.
    inversion Hcall; subst.
    destruct (off_characters _ _ _ _ Hoff) as [_ [-> _]]. lia.
Qed.

Lemma run_keepsPosition calls :
  forall e e' log,
    cursorOk e -> forallb keepsPosition calls = true ->
    run calls e = Ok (e', log) ->
    currentIndex e <= currentIndex e'.
Proof.
  induction calls as [|c calls IH]; intros e e' log Hc Hkeep Hrun; simpl in *.
  - inversion Hrun; subst; lia.
  - apply andb_prop in Hkeep. destruct Hkeep as [Hk Hks].
    destruct (call c e) as [[e1 log1]| |] eqn:Hcall; simpl in Hrun; try discriminate.
    destruct (run calls e1) as [[e2 log2]| |] eqn:Hrest; simpl in Hrun; try discriminate.
    inversion Hrun; subst; clear Hrun.
    pose proof (call_keepsPosition _ _ _ _ Hc Hk Hcall).
    destruct (call_invariant _ _ _ _ Hc Hcall) as [_ Hc1].
    pose proof (IH _ _ _ Hc1 Hks Hrest). lia.
Qed.

(** C3, as stated, fails in its last clause: [reset] is not [seekTo], and it
    takes the cursor of the sample song back from index 2 to index 0. *)
Lemma reset_moves_the_cursor_back :
  ~ (forall songData history e log0 c e' log,
        run history (constructor songData) = Ok (e, log0) ->
        call c e = Ok (e', log) ->
        currentIndex e' < currentIndex e ->
        exists t, c = SeekTo t).
Proof.
  intros H.
  destruct (H Sample.song [SeekTo 6] _ _ Reset _ _ eq_refl eq_refl) as [t Ht].
  - vm_compute. reflexivity.
  - discriminate Ht.
Qed.

(** C3, amended — P2, forward only.  From any engine reached from the
    constructor, a call of [update] returns and never lowers the cursor,
    whatever its playback time (also one smaller than on the tick before);
    so does any sequence of [update] calls; and no sequence of calls that
    contains neither [seekTo] nor [reset] lowers it: the cursor moves
    backward only through [seekTo] or [reset]. *)
Theorem cursor_forward_only :
  forall songData history e log0,
    run history (constructor songData) = Ok (e, log0) ->
    (forall clock, exists e' log,
        update clock e = Ok (e', log) /\ currentIndex e <= currentIndex e')
    /\ (forall clocks, exists e' log,
          run (map Update clocks) e = Ok (e', log)
          /\ currentIndex e <= currentIndex e')
    /\ (forall calls e' log,
          forallb keepsPosition calls = true ->
          run calls e = Ok (e', log) ->
          currentIndex e <= currentIndex e').
Proof.
  intros songData history e log0 Hreach.
  destruct (reached_invariant _ _ _ _ Hreach) as [_ Hc].
  split; [| split].
  - intros clock.
    destruct (update_total clock e Hc) as [e' [log [Hupd [_ [_ Hle]]]]].
    eauto.
  - intros clocks. now apply updates_total.
  - intros calls e' log. now apply run_keepsPosition.
Qed.

Lemma cursor_forward_only_witness :
  exists e log0,
    run [StartSync (Sample.at_ 0); Update (Sample.at_ 6)] (constructor Sample.song)
    = Ok (e, log0)
    /\ currentIndex e = 2
    /\ exists e' log,
         update (Sample.at_ 1) e = Ok (e', log) /\ currentIndex e <= currentIndex e'.
Proof.
  eexists. eexists. split; [reflexivity |]. split; [reflexivity |].
  apply (cursor_forward_only Sample.song
           [StartSync (Sample.at_ 0); Update (Sample.at_ 6)] _ _ eq_refl).
Defined.

(* ===================================================================== *)
(** ** Verse notifications *)
(* ===================================================================== *)

Lemma entering_between chars j prev cur :
  JsArray.get chars (j - 1) = Some prev ->
  JsArray.get chars j = Some cur ->
  entering chars j
  = (if Nat.eqb (verseIdx prev) (verseIdx cur) then [] else [verseChange cur])
      ++ [characterChange cur].
Proof.
  intros Hprev Hcur. unfold entering. rewrite Hcur, Hprev.
  now destruct (Nat.eqb (verseIdx prev) (verseIdx cur)).
Qed.

Lemma seekTo_nonempty t e :
  characters e <> [] ->
  exists e' u,
    seekTo t e = Ok (e', [verseChange u; characterChange u])
    /\ characters e' = characters e
    /\ JsArray.get (characters e) (currentIndex e') = Some u.
Proof.
  intros Hne. apply len_nonempty in Hne.
  destruct (seekTo_spec t e) as [r [log [Hseek [Hlog Hcases]]]].
  destruct (get_defined (characters e) r) as [u Hu].
  { destruct Hcases as [[-> _] | [Hr _]]; lia. }
  rewrite Hu in Hlog. subst log.
  exists (setCurrentIndex e r), u. split; [exact Hseek |].
  split; [reflexivity | exact Hu].
Qed.

(** C6, as stated, fails: on an empty sequence [seekTo] emits nothing, so
    "verse-change" is not emitted once on every seek call. *)
Lemma seekTo_on_empty_emits_no_verse_change :
  ~ (forall songData t, exists e' log,
        seekTo t (constructor songData) = Ok (e', log)
        /\ length (filter isVerseChange log) = 1%nat).
Proof.
  intros H. destruct (H Sample.empty 3%Q) as [e' [log [Hseek Hlen]]].
  vm_compute in Hseek. injection Hseek as _ <-. discriminate Hlen.
Qed.

(** C6, amended — P4, verse-boundary notification.  On a non-empty
    sequence: a tick emits, after "time-update", for every unit it reaches
    and in order, "verse-change" exactly when the unit's verse differs from
    that of the unit before it, and then "character-change" for the unit, so
    that the number of "verse-change" emissions is the number of verse
    transitions crossed; every [seekTo] emits exactly one "verse-change"
    followed by exactly one "character-change", both for the unit the cursor
    lands on, whether or not verse and unit changed.  (On an empty sequence
    [seekTo] emits nothing.) *)
Theorem verse_change_rule :
  forall songData history e log0,
    run history (constructor songData) = Ok (e, log0) ->
    characters e <> [] ->
    (forall clock, isRunning e = true ->
       exists e' (n : nat),
         update clock e
         = Ok (e', timeUpdate (currentTime clock) (guardedDuration clock)
                     :: enteringFrom (characters e) (currentIndex e) n)
         /\ currentIndex e' = currentIndex e + Z.of_nat n
         /\ (forall k, 0 < k <= Z.of_nat n ->
               exists prev cur,
                 JsArray.get (characters e) (currentIndex e + k - 1) = Some prev
                 /\ JsArray.get (characters e) (currentIndex e + k) = Some cur
                 /\ entering (characters e) (currentIndex e + k)
                    = (if Nat.eqb (verseIdx prev) (verseIdx cur) then []
                       else [verseChange cur]) ++ [characterChange cur])
         /\ length (filter isVerseChange
                      (enteringFrom (characters e) (currentIndex e) n))
            = verseTransitions (characters e) (currentIndex e) n)
    /\ (forall t,
          exists e' u,
            seekTo t e = Ok (e', [verseChange u; characterChange u])
            /\ JsArray.get (characters e) (currentIndex e') = Some u).
Proof.
  intros songData history e log0 Hreach Hne.
  destruct (reached_invariant _ _ _ _ Hreach) as [_ Hc].
  pose proof (cursorOk_inBounds e Hc Hne) as Hb. unfold inBounds in Hb.
  split.
  - intros clock Hrun.
    destruct (update_running clock e) as [n [Hupd [Hbound [Hall _]]]];
      [lia | assumption |].
    assert (Hdef : forall k, 0 < k <= Z.of_nat n ->
                     exists c, JsArray.get (characters e) (currentIndex e + k) = Some c).
    { intros k Hk. destruct (Hall k Hk) as [c [Hcget _]]. eauto. }
    eexists. exists n. split; [exact Hupd |]. split; [reflexivity |]. split.
    + intros k Hk. destruct (Hdef k Hk) as [cur Hcur].
      destruct (get_defined (characters e) (currentIndex e + k - 1)) as [prev Hprev];
        [apply get_in_range in Hcur; lia |].
      exists prev, cur. split; [assumption |]. split; [assumption |].
      now apply entering_between.
    + apply enteringFrom_verseChange; [lia | apply get_defined; lia | exact Hdef].
  - intros t. destruct (seekTo_nonempty t e Hne) as [e' [u [Hseek [_ Hu]]]].
    eauto.
Qed.

Lemma verse_change_rule_witness :
  exists e log0,
    run [StartSync (Sample.at_ 3)] (constructor Sample.song) = Ok (e, log0)
    /\ characters e <> []
    /\ isRunning e = true
    /\ currentIndex e = 1
    /\ (exists e' n, update (Sample.at_ 6) e
                     = Ok (e', timeUpdate 6 (guardedDuration (Sample.at_ 6))
                                 :: enteringFrom (characters e) (currentIndex e) n))
    /\ exists e' u, seekTo 1 e = Ok (e', [verseChange u; characterChange u]).
Proof.
  eexists. eexists. split; [reflexivity |]. split; [discriminate |].
  split; [reflexivity |]. split; [reflexivity |].
  destruct (verse_change_rule Sample.song [StartSync (Sample.at_ 3)] _ _ eq_refl)
    as [Htick Hseek]; [discriminate |].
  split.
  - destruct (Htick (Sample.at_ 6) eq_refl) as [e' [n [Hupd _]]]. eauto.
  - destruct (Hseek 1%Q) as [e' [u [Hs _]]]. eauto.
Defined.

(* ===================================================================== *)
(** ** startSync *)
(* ===================================================================== *)

Lemma verseChange_inj u v : verseChange u = verseChange v -> u = v.
Proof. unfold verseChange. intros H. now injection H. Qed.

Lemma characterChange_inj u v : characterChange u = characterChange v -> u = v.
Proof. unfold characterChange. intros H. now injection H. Qed.

(** A scan emits nothing for the unit it starts from. *)
Lemma enteringFrom_fresh chars i n u x :
  NoDup chars -> JsArray.get chars i = Some u ->
  x = verseChange u \/ x = characterChange u ->
  ~ In x (enteringFrom chars i n).
Proof.
  intros Hnd Hu Hx Hin.
  destruct (enteringFrom_In _ _ _ _ Hin) as [k [cur [Hk [Hcur Hcases]]]].
  assert (u = cur).
  { destruct Hx as [-> | ->]; destruct Hcases as [E | E];
      try discriminate E.
    - now apply verseChange_inj.
    - now apply characterChange_inj. }
  subst cur. pose proof (get_inj _ _ _ _ Hnd Hu Hcur). lia.
Qed.

(** C7 — start.  On an engine that holds a non-empty sequence: if it is not
    running, [startSync] returns, marks it running and emits first
    "verse-change" and then "character-change" for the unit at the cursor,
    each exactly once (what follows is what the first [update] emits, which
    [startSync] runs itself and which emits neither of them for that unit);
    if it is running already, [startSync] changes nothing and emits
    nothing. *)
Theorem startSync_initial_notifications :
  forall songData history e log0 clock,
    run history (constructor songData) = Ok (e, log0) ->
    characters e <> [] ->
    (isRunning e = false ->
       exists u e' rest,
         JsArray.get (characters e) (currentIndex e) = Some u
         /\ startSync clock e = Ok (e', verseChange u :: characterChange u :: rest)
         /\ isRunning e' = true
         /\ update clock (setIsRunning e true) = Ok (e', rest)
         /\ ~ In (verseChange u) rest
         /\ ~ In (characterChange u) rest)
    /\ (isRunning e = true -> startSync clock e = Ok (e, [])).
Proof.
  intros songData history e log0 clock Hreach Hne.
  destruct (reached_invariant _ _ _ _ Hreach) as [Hflat Hc].
  pose proof (cursorOk_inBounds e Hc Hne) as Hb. unfold inBounds in Hb.
  split; [| apply startSync_running].
  intros Hrun.
  destruct (get_defined (characters e) (currentIndex e) Hb) as [u Hu].
  destruct (startSync_stopped clock e Hc Hrun) as [e' [rest [Hstart Hupd]]].
  rewrite Hu in Hstart.
  destruct (update_running clock (setIsRunning e true)) as [n [Hupd' _]];
    [simpl; lia | reflexivity |].
  rewrite Hupd' in Hupd. cbn [characters currentIndex setIsRunning] in Hupd.
  inversion Hupd; subst e' rest; clear Hupd.
  assert (Hnd : NoDup (characters e)) by (rewrite Hflat; apply flatten_NoDup).
  exists u. eexists. eexists.
  split; [exact Hu |]. split; [exact Hstart |]. split; [reflexivity |].
  split; [exact Hupd' |].
  split; intros [Habs | Hin]; try discriminate Habs.
  - revert Hin. apply (enteringFrom_fresh _ _ _ u); auto.
  - revert Hin. apply (enteringFrom_fresh _ _ _ u); auto.
Qed.

Lemma startSync_initial_notifications_witness :
  exists e' rest,
    run [] (constructor Sample.song) = Ok (constructor Sample.song, [])
    /\ characters (constructor Sample.song) <> []
    /\ isRunning (constructor Sample.song) = false
    /\ startSync (Sample.at_ 0) (constructor Sample.song)
       = Ok (e', verseChange (spread (Sample.cd "a" 0) 0 0 0)
                   :: characterChange (spread (Sample.cd "a" 0) 0 0 0) :: rest)
    /\ isRunning e' = true.
Proof.
  destruct (startSync_initial_notifications Sample.song [] _ _ (Sample.at_ 0) eq_refl)
    as [Hstopped _]; [discriminate |].
  destruct (Hstopped eq_refl) as [u [e' [rest [Hu [Hstart [Hrun _]]]]]].
  exists e', rest. split; [reflexivity |]. split; [discriminate |].
  split; [reflexivity |]. split; [| exact Hrun].
  vm_compute in Hu. injection Hu as <-. exact Hstart.
Defined.

(* ===================================================================== *)
(** ** The empty sequence *)
(* ===================================================================== *)

(** C8, as stated, fails: on an empty sequence [startSync] runs [update],
    which emits "time-update". *)
Lemma startSync_on_empty_emits_time_update :
  ~ (forall clock, exists e',
        startSync clock (constructor Sample.empty) = Ok (e', [])).
Proof.
  intros H. destruct (H (Sample.at_ 5)) as [e' Hstart].
  vm_compute in Hstart. discriminate Hstart.
Qed.

(** C8, amended — failure semantics.  On an engine that holds the empty
    sequence no operation throws and none emits "verse-change" or
    "character-change": [seekTo] emits nothing and changes nothing;
    [update] emits nothing when the engine is stopped and exactly
    "time-update" when it is running; [startSync] emits nothing when the
    engine is running and otherwise exactly the "time-update" of the
    [update] it runs.  The cursor stays 0. *)
Theorem empty_sequence_is_silent :
  forall songData history e log0 clock t,
    run history (constructor songData) = Ok (e, log0) ->
    characters e = [] ->
    startSync clock e
    = Ok (if isRunning e then (e, [])
          else (setSyncLoop (setIsRunning e true) true,
                [timeUpdate (currentTime clock) (guardedDuration clock)]))
    /\ update clock e
       = Ok (if isRunning e
             then (setSyncLoop e true,
                   [timeUpdate (currentTime clock) (guardedDuration clock)])
             else (e, []))
    /\ seekTo t e = Ok (e, [])
    /\ currentIndex e = 0.
Proof.
  intros songData history e log0 clock t Hreach Hempty.
  destruct (reached_invariant _ _ _ _ Hreach) as [_ Hc].
  unfold cursorOk in Hc. rewrite Hempty in Hc. cbn in Hc.
  assert (H0 : currentIndex e = 0) by lia.
  assert (Hupd : forall e0, characters e0 = [] -> currentIndex e0 = 0 ->
                   isRunning e0 = true ->
                   update clock e0
                   = Ok (setSyncLoop e0 true,
                         [timeUpdate (currentTime clock) (guardedDuration clock)])).
  { intros e0 He0 Hi0 Hr0. unfold update. rewrite Hr0, He0. cbn [negb length advance].
    rewrite Hi0, He0. reflexivity. }
  split; [| split; [| split; [| exact H0]]].
  - unfold startSync. destruct (isRunning e) eqn:Hrun; [reflexivity |].
    cbn [characters setIsRunning]. rewrite Hempty. cbn [JsArray.len length Z.of_nat Z.ltb Z.compare bind].
    rewrite Hupd by (assumption || reflexivity). reflexivity.
  - destruct (isRunning e) eqn:Hrun.
    + now apply Hupd.
    + now apply update_stopped.
  - unfold seekTo. rewrite Hempty. cbn.
    rewrite <- H0, setCurrentIndex_same, Hempty. reflexivity.
Qed.

Lemma empty_sequence_is_silent_witness :
  run [StartSync (Sample.at_ 0)] (constructor Sample.empty)
  = Ok (setSyncLoop (setIsRunning (constructor Sample.empty) true) true,
        [timeUpdate 0 10])
  /\ update (Sample.at_ 5) (setSyncLoop (setIsRunning (constructor Sample.empty) true) true)
     = Ok (setSyncLoop (setIsRunning (constructor Sample.empty) true) true,
           [timeUpdate 5 10])
  /\ seekTo 3 (setSyncLoop (setIsRunning (constructor Sample.empty) true) true)
     = Ok (setSyncLoop (setIsRunning (constructor Sample.empty) true) true, []).
Proof.
  split; [reflexivity |].
  destruct (empty_sequence_is_silent Sample.empty [StartSync (Sample.at_ 0)] _ _
              (Sample.at_ 5) 3%Q eq_refl eq_refl) as [_ [Hupd [Hseek _]]].
  split; [exact Hupd | exact Hseek].
Defined.

(* ===================================================================== *)
(** ** Cursor bounds *)
(* ===================================================================== *)

Lemma inBounds_cursorOk e : inBounds e -> cursorOk e.
Proof. unfold inBounds, cursorOk. lia. Qed.

Lemma inBounds_nonempty e : inBounds e -> characters e <> [].
Proof. unfold inBounds. intros H. apply len_nonempty. lia. Qed.

Lemma call_inBounds c e e' log :
  inBounds e -> call c e = Ok (e', log) ->
  characters e' = characters e /\ inBounds e'.
Proof.
  intros Hb Hcall.
  destruct (call_invariant _ _ _ _ (inBounds_cursorOk _ Hb) Hcall) as [Hch Hc].
  split; [assumption |].
  apply cursorOk_inBounds; [assumption |].
  rewrite Hch. now apply inBounds_nonempty.
Qed.

(** C9 — cursor invariant.  On an engine whose cursor is within its
    (hence non-empty) sequence, [startSync], [update], [seekTo] and [reset]
    return and leave the sequence as it is and the cursor within it.
    Moreover every index that [update] moves the cursor to holds a unit of
    time at most the playback time, and after [seekTo(t)] with [t] at or
    after the first unit's time the unit at the cursor has time at most
    [t]. *)
Theorem cursor_bounds_preserved :
  forall e clock t,
    inBounds e ->
    (exists e' log,
        startSync clock e = Ok (e', log)
        /\ characters e' = characters e /\ inBounds e')
    /\ (exists e' log,
          update clock e = Ok (e', log)
          /\ characters e' = characters e /\ inBounds e'
          /\ (forall i, currentIndex e < i <= currentIndex e' ->
                exists c, JsArray.get (characters e) i = Some c
                          /\ (time c <= currentTime clock)%Q))
    /\ (exists e' log,
          seekTo t e = Ok (e', log)
          /\ characters e' = characters e /\ inBounds e'
          /\ (forall first,
                JsArray.get (characters e) 0 = Some first -> (time first <= t)%Q ->
                exists c, JsArray.get (characters e) (currentIndex e') = Some c
                          /\ (time c <= t)%Q))
    /\ (characters (reset e) = characters e /\ inBounds (reset e)).
Proof.
  intros e clock t Hb.
  pose proof (inBounds_cursorOk _ Hb) as Hc.
  split; [| split; [| split]].
  - assert (Hex : exists e' log, startSync clock e = Ok (e', log)).
    { destruct (isRunning e) eqn:Hrun.
      - exists e, []. now apply startSync_running.
      - destruct (startSync_stopped clock e Hc Hrun) as [e' [rest [Hs _]]]. eauto. }
    destruct Hex as [e' [log Hs]]. exists e', log. split; [exact Hs |].
    apply (call_inBounds (StartSync clock) e e' log Hb Hs).
  - destruct (isRunning e) eqn:Hrun.
    + destruct (update_running clock e) as [n [Hupd [Hbound [Hall _]]]];
        [unfold inBounds in Hb; lia | assumption |].
      eexists. eexists. split; [exact Hupd |].
      destruct (call_inBounds (Update clock) e _ _ Hb Hupd) as [Hch Hb'].
      split; [exact Hch |]. split; [exact Hb' |].
      cbn [currentIndex setSyncLoop setCurrentIndex]. intros i Hi.
      destruct (Hall (i - currentIndex e)) as [c Hcget]; [lia |].
      exists c. replace (currentIndex e + (i - currentIndex e)) with i in Hcget by lia.
      exact Hcget.
    + exists e, []. split; [now apply update_stopped |].
      split; [reflexivity |]. split; [assumption |]. intros i Hi. lia.
  - destruct (seekTo_spec t e) as [r [log [Hseek [_ Hcases]]]].
    eexists. eexists. split; [exact Hseek |].
    destruct (call_inBounds (SeekTo t) e _ _ Hb Hseek) as [Hch Hb'].
    split; [exact Hch |]. split; [exact Hb' |].
    cbn [currentIndex setCurrentIndex]. intros first Hfirst Hle.
    destruct Hcases as [[-> _] | [Hr [Hall _]]].
    + exists first. split; assumption.
    + destruct (get_defined (characters e) r) as [c Hcget]; [lia |].
      exists c. split; [assumption |]. apply (Hall r); [lia | assumption].
  - apply (call_inBounds Reset e (reset e) [] Hb eq_refl).
Qed.

Lemma cursor_bounds_preserved_witness :
  inBounds (constructor Sample.song)
  /\ exists e' log,
       seekTo 4 (constructor Sample.song) = Ok (e', log) /\ inBounds e'.
Proof.
  assert (Hb : inBounds (constructor Sample.song)) by (change (0 <= 0 < 3); lia).
  split; [exact Hb |].
  destruct (cursor_bounds_preserved (constructor Sample.song) (Sample.at_ 0) 4 Hb)
    as [_ [_ [[e' [log [Hseek [_ [Hb' _]]]]] _]]].
  exists e', log. split; assumption.
Defined.

(* ===================================================================== *)
(** ** on / off / emit *)
(* ===================================================================== *)

Section Sets.

Implicit Types (s : list Callback) (x y : Callback).

Lemma has_In s x : JsSet.has s x = true <-> In x s.
Proof.
  unfold JsSet.has. rewrite existsb_exists. split.
  - intros [y [Hin Heq]]. apply Nat.eqb_eq in Heq. now subst.
  - intros Hin. exists x. split; [assumption | apply Nat.eqb_refl].
Qed.

Lemma add_In s x : In x (JsSet.add x s).
Proof.
  unfold JsSet.add. destruct (JsSet.has s x) eqn:E.
  - now apply has_In.
  - apply in_or_app. right. now left.
Qed.

Lemma add_idempotent s x : JsSet.add x (JsSet.add x s) = JsSet.add x s.
Proof.
  assert (H : JsSet.has (JsSet.add x s) x = true) by apply has_In, add_In.
  unfold JsSet.add at 1. now rewrite H.
Qed.

Lemma add_NoDup s x : NoDup s -> NoDup (JsSet.add x s).
Proof.
  intros Hnd. unfold JsSet.add. destruct (JsSet.has s x) eqn:E; [assumption |].
  apply NoDup_app; [assumption | repeat constructor; auto | ].
  intros y Hy [<- | []]. apply has_In in Hy. congruence.
Qed.

Lemma delete_NoDup s x : NoDup s -> NoDup (JsSet.delete x s).
Proof. apply NoDup_filter. Qed.

Lemma delete_In s x y : In y (JsSet.delete x s) <-> In y s /\ y <> x.
Proof.
  unfold JsSet.delete. rewrite filter_In, negb_true_iff, Nat.eqb_neq.
  intuition congruence.
Qed.

Lemma called_once s x (data : Payload) :
  NoDup s -> In x s ->
  timesCalled x (map (fun callback => (callback, data)) s) = 1%nat.
Proof.
  intros Hnd Hin. unfold timesCalled. rewrite map_map. cbn [fst]. rewrite map_id.
  now apply NoDup_count_occ'.
Qed.

Lemma never_called s x (data : Payload) :
  ~ In x s -> timesCalled x (map (fun callback => (callback, data)) s) = 0%nat.
Proof.
  intros Hnin. unfold timesCalled. rewrite map_map. cbn [fst]. rewrite map_id.
  now apply count_occ_not_In.
Qed.

End Sets.

(** The three own properties. *)
Lemma property_OwnSet h event s :
  property h event = OwnSet s ->
  (event = CHARACTER_CHANGE /\ s = character_change h)
  \/ (event = VERSE_CHANGE /\ s = verse_change h)
  \/ (event = TIME_UPDATE /\ s = time_update h).
Proof.
  unfold property.
  destruct (String.eqb_spec event CHARACTER_CHANGE) as [-> |];
    [intros H; injection H as <-; auto |].
  destruct (String.eqb_spec event VERSE_CHANGE) as [-> |];
    [intros H; injection H as <-; auto |].
  destruct (String.eqb_spec event TIME_UPDATE) as [-> |];
    [intros H; injection H as <-; auto |].
  destruct (existsb (String.eqb event) objectPrototype); discriminate.
Qed.

Lemma property_withSet h event s s' :
  property h event = OwnSet s ->
  property (withSet h event s') event = OwnSet s'
  /\ withSet (withSet h event s') event s' = withSet h event s'
  /\ (handlersOk h -> NoDup s' -> handlersOk (withSet h event s'))
  /\ (handlersOk h -> NoDup s).
Proof.
  intros H. unfold handlersOk.
  destruct (property_OwnSet _ _ _ H) as [[-> ->] | [[-> ->] | [-> ->]]];
    (split; [reflexivity |]); (split; [reflexivity |]); cbn; intuition.
Qed.

Lemma call_handlersOk c e e' log :
  cursorOk e -> handlersOk (handlers e) -> call c e = Ok (e', log) ->
  handlersOk (handlers e').
Proof.
  intros Hc Hh Hcall. destruct c; simpl in Hcall.
  - destruct (isRunning e) eqn:Hrun.
    + rewrite startSync_running in Hcall by assumption. now inversion Hcall; subst.
    + destruct (startSync_stopped clock e Hc Hrun) as [e1 [rest [Hs Hupd]]].
      rewrite Hs in Hcall. inversion Hcall; subst e1 log; clear Hcall.
      destruct (update_running clock (setIsRunning e true)) as [n [Hupd' _]];
        [unfold cursorOk in Hc; simpl; lia | reflexivity |].
      rewrite Hupd' in Hupd. now inversion Hupd; subst.
  - inversion Hcall; subst. unfold stopSync. simpl. now destruct (syncLoop e).
  - destruct (isRunning e) eqn:Hrun.
    + destruct (update_running clock e) as [n [Hupd _]];
        [unfold cursorOk in Hc; lia | assumption |].
      rewrite Hupd in Hcall. now inversion Hcall; subst.
    + rewrite update_stopped in Hcall by assumption. now inversion Hcall; subst.
  - destruct (seekTo_spec time' e) as [r [log' [Hseek _]]].
    rewrite Hseek in Hcall. now inversion Hcall; subst.
  - inversion Hcall; subst. unfold reset, stopSync. simpl. now destruct (syncLoop e).
  - unfold on in Hcall. destruct (property (handlers e) event) as [s| |] eqn:Hp;
      simpl in Hcall; inversion Hcall; subst; [| assumption].
    simpl. destruct (property_withSet _ _ _ (JsSet.add callback s) Hp) as [_ [_ [Hok Hs]]].
    apply Hok; [assumption |]. now apply add_NoDup, Hs.
  - unfold off in Hcall. destruct (property (handlers e) event) as [s| |] eqn:Hp;
      simpl in Hcall; inversion Hcall; subst; [| assumption].
    simpl. destruct (property_withSet _ _ _ (JsSet.delete callback s) Hp) as [_ [_ [Hok Hs]]].
    apply Hok; [assumption |]. now apply delete_NoDup, Hs.
Qed.

Lemma reached_handlersOk songData history :
  forall e log,
    run history (constructor songData) = Ok (e, log) -> handlersOk (handlers e).
Proof.
  assert (Hgen : forall e0 e log,
             cursorOk e0 -> handlersOk (handlers e0) ->
             run history e0 = Ok (e, log) -> handlersOk (handlers e)).
  { induction history as [|c rest IH]; intros e0 e log Hc Hh Hrun; simpl in Hrun.
    - now inversion Hrun; subst.
    - destruct (call c e0) as [[e1 log1]| |] eqn:Hcall; simpl in Hrun; try discriminate.
      destruct (run rest e1) as [[e2 log2]| |] eqn:Hrest; simpl in Hrun; try discriminate.
      inversion Hrun; subst; clear Hrun.
      destruct (call_invariant _ _ _ _ Hc Hcall) as [_ Hc1].
      apply (IH e1 e log2 Hc1); [| assumption].
      now apply (call_handlersOk c e0 e1 log1). }
  intros e log. apply Hgen; [apply constructor_cursorOk |].
  repeat split; constructor.
Qed.

(** Registering twice is registering once. *)
Lemma on_twice event callback e e1 :
  on event callback e = Ok e1 -> on event callback e1 = Ok e1.
Proof.
  unfold on. destruct (property (handlers e) event) as [s| |] eqn:Hp;
    intros H; inversion H; subst; clear H.
  - destruct (property_withSet _ _ _ (JsSet.add callback s) Hp) as [Hp' [Hww _]].
    cbn [handlers setHandlers]. rewrite Hp', add_idempotent, Hww. reflexivity.
  - now rewrite Hp.
Qed.

(** On an engine reached from the constructor and for one of the three
    event kinds: after [on], each [emit] calls the callback once; after
    [off], not at all. *)
Lemma on_then_emit songData history e log event callback data e1 :
  run history (constructor songData) = Ok (e, log) ->
  (event = CHARACTER_CHANGE \/ event = VERSE_CHANGE \/ event = TIME_UPDATE) ->
  on event callback e = Ok e1 ->
  exists calls, emit event data e1 = Ok calls /\ timesCalled callback calls = 1%nat.
Proof.
  intros Hreach Hevent Hon.
  pose proof (reached_handlersOk _ _ _ _ Hreach) as Hh.
  unfold on in Hon. destruct (property (handlers e) event) as [s| |] eqn:Hp.
  - inversion Hon; subst; clear Hon.
    destruct (property_withSet _ _ _ (JsSet.add callback s) Hp) as [Hp' [_ [_ Hs]]].
    unfold emit. cbn [handlers setHandlers]. rewrite Hp'.
    eexists. split; [reflexivity |].
    apply called_once; [now apply add_NoDup, Hs | apply add_In].
  - discriminate Hon.
  - exfalso. destruct Hevent as [-> | [-> | ->]]; discriminate Hp.
Qed.

Lemma off_then_emit event callback data e e1 :
  (event = CHARACTER_CHANGE \/ event = VERSE_CHANGE \/ event = TIME_UPDATE) ->
  off event callback e = Ok e1 ->
  exists calls, emit event data e1 = Ok calls /\ timesCalled callback calls = 0%nat.
Proof.
  intros Hevent Hoff.
  unfold off in Hoff. destruct (property (handlers e) event) as [s| |] eqn:Hp.
  - inversion Hoff; subst; clear Hoff.
    destruct (property_withSet _ _ _ (JsSet.delete callback s) Hp) as [Hp' _].
    unfold emit. cbn [handlers setHandlers]. rewrite Hp'.
    eexists. split; [reflexivity |].
    apply never_called. rewrite delete_In. tauto.
  - discriminate Hoff.
  - exfalso. destruct Hevent as [-> | [-> | ->]]; discriminate Hp.
Qed.

(** A name that is neither one of the three kinds nor inherited from
    [Object.prototype] is ignored. *)
Lemma foreign_name_ignored event callback data e :
  property (handlers e) event = Undefined ->
  on event callback e = Ok e /\ off event callback e = Ok e /\ emit event data e = Ok [].
Proof. intros H. unfold on, off, emit. now rewrite H. Qed.

Lemma inherited_name_throws event callback data e :
  property (handlers e) event = Inherited ->
  on event callback e = Throw TypeError
  /\ off event callback e = Throw TypeError
  /\ emit event data e = Throw TypeError.
Proof. intros H. unfold on, off, emit. now rewrite H. Qed.

(** C10 — the claim's last part against the code: "toString" is none of the
    three event kinds, yet [this.handlers["toString"]] is the method every
    object inherits, which passes the guard and has neither [add],
    [delete] nor [forEach]; [on], [off] and [emit] throw a [TypeError]
    instead of doing nothing.  (The rest of the claim holds: [on_twice],
    [on_then_emit], [off_then_emit], [foreign_name_ignored].) *)
Theorem inherited_event_name_throws :
  forall e callback data,
    on "toString" callback e = Throw TypeError
    /\ off "toString" callback e = Throw TypeError
    /\ emit "toString" data e = Throw TypeError.
Proof. intros e callback data. now apply inherited_name_throws. Qed.

(** What the observers see of a seek: the "verse-change" observers are
    called first, then the "character-change" observers, each group in
    registration order. *)
Lemma deliver_seek e u :
  deliver e [verseChange u; characterChange u]
  = Ok (map (fun callback => (callback, VerseData (verseIdx u) u)) (verse_change (handlers e))
        ++ map (fun callback => (callback, CharacterData u)) (character_change (handlers e))).
Proof. cbn. now rewrite app_nil_r. Qed.

(* ===================================================================== *)
(** ** The scenarios of the specification, run on the model *)
(* ===================================================================== *)

Module Scenario.

Import Sample.

Example flattened : flattenCharacters song = [a; b; c].
Proof. reflexivity. Qed.

(** Scenario A: ticks at 1, 3 and 6 after the start. *)
Example scenario_A :
  let r := run [StartSync (at_ 0); Update (at_ 1); Update (at_ 3); Update (at_ 6)]
               (constructor song) in
  cursor r = Some 2
  /\ emitted r
     = Some [verseChange a; characterChange a; timeUpdate 0 10;
             timeUpdate 1 10;
             timeUpdate 3 10; characterChange b;
             timeUpdate 6 10; verseChange c; characterChange c].
Proof. split; reflexivity. Qed.

(** Scenario B: [seek(4)]. *)
Example scenario_B :
  cursor (seekTo 4 (constructor song)) = Some 1
  /\ emitted (seekTo 4 (constructor song)) = Some [verseChange b; characterChange b].
Proof. split; reflexivity. Qed.

(** Scenario C: [seek(-10)]. *)
Example scenario_C :
  cursor (seekTo (-10) (constructor song)) = Some 0
  /\ emitted (seekTo (-10) (constructor song)) = Some [verseChange a; characterChange a].
Proof. split; reflexivity. Qed.

(** Scenario D on the code: nothing is thrown, and the two ticks (the one
    of the start and the one at 5) emit "time-update". *)
Example scenario_D :
  emitted (run [StartSync (at_ 0); Update (at_ 5); SeekTo 3] (constructor empty))
  = Some [timeUpdate 0 10; timeUpdate 5 10].
Proof. reflexivity. Qed.

(** A start when playback is already past several units: the first tick,
    run by [startSync] itself, enters them. *)
Example late_start :
  emitted (startSync (at_ 7) (constructor song))
  = Some [verseChange a; characterChange a; timeUpdate 7 10;
          characterChange b; verseChange c; characterChange c].
Proof. reflexivity. Qed.

(** Unsorted input: sorted by time, numbered in reading order. *)
Example shuffled_flattened :
  map (fun u => (time u, globalIdx u)) (flattenCharacters shuffled)
  = [(2%Q, 1%nat); (5%Q, 0%nat)].
Proof. reflexivity. Qed.

End Scenario.

(* ===================================================================== *)
(** * Further properties of the engine *)
(* ===================================================================== *)

(** ** Seeking on a sorted sequence *)

(** Where [seekTo] leaves the cursor on a sequence sorted by time: on the
    highest index whose unit is not later than [t], every unit behind it
    being later; or on 0 when every unit is later than [t]. *)
Lemma seekTo_sorted t e :
  StronglySorted leTime (characters e) ->
  exists r log,
    seekTo t e = Ok (setCurrentIndex e r, log)
    /\ log = match JsArray.get (characters e) r with
             | Some u => [verseChange u; characterChange u]
             | None => []
             end
    /\ 0 <= r <= Z.max 0 (JsArray.len (characters e) - 1)
    /\ (forall j c, r < j -> JsArray.get (characters e) j = Some c -> (t < time c)%Q)
    /\ ((r = 0 /\ forall j c, JsArray.get (characters e) j = Some c -> (t < time c)%Q)
        \/ (exists c, JsArray.get (characters e) r = Some c /\ (time c <= t)%Q)).
Proof.
  intros Hs.
  destruct (seekTo_spec t e) as [r [log [Hseek [Hlog Hcases]]]].
  exists r, log. split; [exact Hseek |]. split; [exact Hlog |].
  destruct Hcases as [[-> Hstop] | [Hrange [Hall Hstop]]].
  - assert (Hlater : forall j c, JsArray.get (characters e) j = Some c -> (t < time c)%Q).
    { intros j c Hc. apply Qnot_le_lt.
      apply (stopsAt_sorted _ _ 0 j c Hs Hstop); [| assumption].
      apply get_in_range in Hc. lia. }
    split; [lia |]. split; [intros j c _; apply Hlater |]. left. now split.
  - split; [lia |]. split.
    + intros j c Hj Hc. apply Qnot_le_lt.
      apply (stopsAt_sorted _ _ (r + 1) j c Hs Hstop); [lia | assumption].
    + right. destruct (get_defined (characters e) r) as [c Hc]; [lia |].
      exists c. split; [assumption |]. apply (Hall r); [lia | assumption].
Qed.

Lemma reached_sorted songData history e log :
  run history (constructor songData) = Ok (e, log) ->
  StronglySorted leTime (characters e).
Proof.
  intros H. destruct (reached_invariant _ _ _ _ H) as [-> _]. apply flatten_sorted.
Qed.

(** X1 — seek, then tick.  After [seekTo(t)] on a running engine, a tick
    whose playback time is at most [t] enters no unit: it emits
    "time-update" only and leaves the cursor where the seek put it. *)
Theorem seek_then_tick_is_stable :
  forall songData history e log0 t clock,
    run history (constructor songData) = Ok (e, log0) ->
    isRunning e = true ->
    (currentTime clock <= t)%Q ->
    exists e1 log1 e2,
      seekTo t e = Ok (e1, log1)
      /\ update clock e1
         = Ok (e2, [timeUpdate (currentTime clock) (guardedDuration clock)])
      /\ currentIndex e2 = currentIndex e1.
Proof.
  intros songData history e log0 t clock Hreach Hrun Hle.
  destruct (seekTo_sorted t e (reached_sorted _ _ _ _ Hreach))
    as [r [log [Hseek [_ [Hr [Hlater _]]]]]].
  destruct (update_running clock (setCurrentIndex e r)) as [n [Hupd [_ [Hall _]]]];
    [simpl; lia | exact Hrun |].
  cbn [characters currentIndex setCurrentIndex] in Hupd, Hall.
  assert (Hn : n = 0%nat).
  { destruct n as [|n]; [reflexivity | exfalso].
    destruct (Hall 1) as [c [Hc Hct]]; [lia |].
    pose proof (Hlater (r + 1) c ltac:(lia) Hc). lra. }
  subst n. cbn [enteringFrom] in Hupd.
  eexists. eexists. eexists. split; [exact Hseek |]. split; [exact Hupd |].
  simpl. lia.
Qed.

Lemma seek_then_tick_is_stable_witness :
  exists e1 log1 e2,
    seekTo 4 (setSyncLoop (setIsRunning (constructor Sample.song) true) true)
    = Ok (e1, log1)
    /\ update (Sample.at_ 3) e1 = Ok (e2, [timeUpdate 3 10])
    /\ currentIndex e2 = currentIndex e1.
Proof.
  apply (seek_then_tick_is_stable Sample.song [StartSync (Sample.at_ 0)] _ _ 4
           (Sample.at_ 3) eq_refl eq_refl).
  vm_compute. discriminate.
Defined.

(** X2 — ticking reaches the seek position.  On a running engine whose
    cursor is not ahead of the position [seekTo(t)] would choose, one tick
    at playback time [t] moves the cursor exactly to that position. *)
Theorem tick_reaches_seek_position :
  forall songData history e log0 clock e1 log1,
    run history (constructor songData) = Ok (e, log0) ->
    isRunning e = true ->
    seekTo (currentTime clock) e = Ok (e1, log1) ->
    currentIndex e <= currentIndex e1 ->
    exists e2 log2,
      update clock e = Ok (e2, log2) /\ currentIndex e2 = currentIndex e1.
Proof.
  intros songData history e log0 clock e1 log1 Hreach Hrun Hseek Hahead.
  pose proof (reached_sorted _ _ _ _ Hreach) as Hs.
  destruct (reached_invariant _ _ _ _ Hreach) as [_ Hc]. unfold cursorOk in Hc.
  destruct (seekTo_sorted (currentTime clock) e Hs)
    as [r [log [Hseek' [_ [Hr [Hlater Hcases]]]]]].
  rewrite Hseek' in Hseek. inversion Hseek; subst e1 log1; clear Hseek.
  cbn [currentIndex setCurrentIndex] in *.
  destruct (update_running clock e) as [n [Hupd [Hbound [Hall Hstop]]]];
    [lia | assumption |].
  eexists. eexists. split; [exact Hupd |]. cbn [currentIndex setSyncLoop setCurrentIndex].
  assert (Hup : currentIndex e + Z.of_nat n <= r).
  { destruct n as [|n]; [lia |].
    destruct (Hall (Z.of_nat (S n))) as [c [Hcget Hct]]; [lia |].
    destruct (Z_le_gt_dec (currentIndex e + Z.of_nat (S n)) r) as [|Hgt]; [assumption |].
    assert (Hbehind : r < currentIndex e + Z.of_nat (S n)) by lia.
    pose proof (Hlater _ c Hbehind Hcget). lra. }
  destruct (Z.eq_dec (currentIndex e + Z.of_nat n) r) as [|Hne]; [assumption | exfalso].
  assert (Hlt : currentIndex e + Z.of_nat n < r) by lia.
  destruct Hcases as [[-> _] | [c [Hcget Hct]]]; [lia |].
  pose proof (get_in_range _ _ _ Hcget) as Hrange.
  destruct Hstop as [Hend | [next [Hnext Hnt]]]; [lia |].
  destruct (Z.eq_dec (currentIndex e + Z.of_nat n + 1) r) as [Heq | Hne'].
  - rewrite Heq, Hcget in Hnext. injection Hnext as <-. lra.
  - assert (leTime next c)
      by (apply (sorted_get (characters e) (currentIndex e + Z.of_nat n + 1) r);
          [assumption | lia | assumption | assumption]).
    unfold leTime in *. lra.
Qed.

Lemma tick_reaches_seek_position_witness :
  exists e1 log1 e2 log2,
    seekTo 6 (setSyncLoop (setIsRunning (constructor Sample.song) true) true)
    = Ok (e1, log1)
    /\ currentIndex e1 = 2
    /\ update (Sample.at_ 6) (setSyncLoop (setIsRunning (constructor Sample.song) true) true)
       = Ok (e2, log2)
    /\ currentIndex e2 = currentIndex e1.
Proof.
  eexists. eexists.
  destruct (tick_reaches_seek_position Sample.song [StartSync (Sample.at_ 0)] _ _
              (Sample.at_ 6) _ _ eq_refl eq_refl eq_refl)
    as [e2 [log2 [Hupd Hidx]]].
  - vm_compute. discriminate.
  - exists e2, log2. split; [reflexivity |]. split; [reflexivity |].
    split; assumption.
Defined.

(** X3 — a tick that brings no later time.  After a tick at time [t] on a
    running engine, a further tick at a time not after [t] (the same frame
    time, or a clock that ran backward) emits "time-update" only and leaves
    the engine exactly as it is. *)
Theorem tick_without_progress_changes_nothing :
  forall songData history e log0 clock clock' e1 log1,
    run history (constructor songData) = Ok (e, log0) ->
    isRunning e = true ->
    update clock e = Ok (e1, log1) ->
    (currentTime clock' <= currentTime clock)%Q ->
    update clock' e1
    = Ok (e1, [timeUpdate (currentTime clock') (guardedDuration clock')]).
Proof.
  intros songData history e log0 clock clock' e1 log1 Hreach Hrun Hupd Hle.
  destruct (reached_invariant _ _ _ _ Hreach) as [_ Hc]. unfold cursorOk in Hc.
  destruct (update_running clock e) as [n [Hupd1 [Hbound [_ Hstop]]]];
    [lia | assumption |].
  rewrite Hupd1 in Hupd. inversion Hupd; subst e1 log1; clear Hupd.
  set (e1 := setSyncLoop (setCurrentIndex e (currentIndex e + Z.of_nat n)) true).
  destruct (update_running clock' e1) as [m [Hupd2 [Hbound2 [Hall2 _]]]];
    [simpl; lia | exact Hrun |].
  cbn [characters currentIndex setSyncLoop setCurrentIndex e1] in Hbound2, Hall2.
  assert (Hm : m = 0%nat).
  { destruct m as [|m]; [reflexivity | exfalso].
    destruct (Hall2 1) as [c [Hcget Hct]]; [lia |].
    destruct Hstop as [Hend | [next [Hnext Hnt]]].
    - apply get_in_range in Hcget. lia.
    - rewrite Hnext in Hcget. injection Hcget as <-. lra. }
  subst m. rewrite Hupd2. cbn [enteringFrom].
  rewrite Z.add_0_r, setCurrentIndex_same. reflexivity.
Qed.

Lemma tick_without_progress_changes_nothing_witness :
  exists e1 log1,
    update (Sample.at_ 3) (setSyncLoop (setIsRunning (constructor Sample.song) true) true)
    = Ok (e1, log1)
    /\ currentIndex e1 = 1
    /\ update (Sample.at_ 1) e1 = Ok (e1, [timeUpdate 1 10]).
Proof.
  eexists. eexists. split; [reflexivity |]. split; [reflexivity |].
  apply (tick_without_progress_changes_nothing Sample.song [StartSync (Sample.at_ 0)]
           _ _ (Sample.at_ 3) (Sample.at_ 1) _ _ eq_refl eq_refl eq_refl).
  vm_compute. discriminate.
Defined.

(** ** Runs of ticks *)

Lemma unitsFrom_app chars :
  forall n m i,
    length (unitsFrom chars i n) = n ->
    unitsFrom chars i (n + m)
    = unitsFrom chars i n ++ unitsFrom chars (i + Z.of_nat n) m.
Proof.
  induction n as [|n IH]; intros m i Hlen.
  - cbn. now rewrite Z.add_0_r.
  - cbn [unitsFrom Nat.add] in *.
    destruct (JsArray.get chars (i + 1)) as [u|]; [| discriminate Hlen].
    cbn [length] in Hlen. cbn [app]. f_equal.
    rewrite IH by lia. f_equal. f_equal. lia.
Qed.

Lemma ticks_spec clocks :
  forall e,
    cursorOk e -> isRunning e = true ->
    exists e' log (n : nat),
      run (map Update clocks) e = Ok (e', log)
      /\ currentIndex e' = currentIndex e + Z.of_nat n
      /\ filter isCharacterChange log
         = map characterChange (unitsFrom (characters e) (currentIndex e) n)
      /\ length (unitsFrom (characters e) (currentIndex e) n) = n.
Proof.
  induction clocks as [|clock clocks IH]; intros e Hc Hrun.
  - exists e, [], 0%nat. cbn. split; [reflexivity |]. split; [lia |]. now split.
  - destruct (update_running clock e) as [n [Hupd [Hbound [Hall _]]]];
      [unfold cursorOk in Hc; lia | assumption |].
    assert (Hdef : forall k, 0 < k <= Z.of_nat n ->
                     exists c, JsArray.get (characters e) (currentIndex e + k) = Some c).
    { intros k Hk. destruct (Hall k Hk) as [c [Hcget _]]. eauto. }
    destruct (unitsFrom_nth (characters e) n (currentIndex e) Hdef) as [Hlen _].
    pose proof (enteringFrom_characterChange (characters e) n (currentIndex e) Hdef) as Hfil.
    destruct (call_invariant (Update clock) _ _ _ Hc Hupd) as [_ Hc1].
    destruct (IH _ Hc1 Hrun) as [e' [log [m [Hrest [Hidx [Hfil' Hlen']]]]]].
    cbn [characters currentIndex setSyncLoop setCurrentIndex] in Hidx, Hfil', Hlen'.
    exists e', (timeUpdate (currentTime clock) (guardedDuration clock)
                  :: enteringFrom (characters e) (currentIndex e) n ++ log), (n + m)%nat.
    split; [| split; [lia | split]].
    + cbn [map run call]. rewrite Hupd. cbn [bind]. rewrite Hrest. reflexivity.
    + cbn [filter isCharacterChange fst timeUpdate].
      change (TIME_UPDATE =? CHARACTER_CHANGE)%string with false.
      rewrite filter_app, Hfil, Hfil', unitsFrom_app, map_app by assumption.
      reflexivity.
    + rewrite unitsFrom_app, length_app by assumption. lia.
Qed.

(** X4 — no unit is skipped or repeated.  Over any run of ticks of a
    running engine, whatever their playback times, the "character-change"
    notifications are exactly the units from the one after the initial
    cursor up to the final cursor, each once and in sequence order. *)
Theorem ticks_enter_consecutive_units :
  forall songData history e log0 clocks,
    run history (constructor songData) = Ok (e, log0) ->
    isRunning e = true ->
    exists e' log (n : nat),
      run (map Update clocks) e = Ok (e', log)
      /\ currentIndex e' = currentIndex e + Z.of_nat n
      /\ filter isCharacterChange log
         = map characterChange (unitsFrom (characters e) (currentIndex e) n)
      /\ length (unitsFrom (characters e) (currentIndex e) n) = n.
Proof.
  intros songData history e log0 clocks Hreach Hrun.
  destruct (reached_invariant _ _ _ _ Hreach) as [_ Hc].
  now apply ticks_spec.
Qed.

Lemma ticks_enter_consecutive_units_witness :
  exists e' log,
    run (map Update [Sample.at_ 1; Sample.at_ 6; Sample.at_ 2])
        (setSyncLoop (setIsRunning (constructor Sample.song) true) true)
    = Ok (e', log)
    /\ filter isCharacterChange log = [characterChange Sample.b; characterChange Sample.c].
Proof.
  destruct (ticks_enter_consecutive_units Sample.song [StartSync (Sample.at_ 0)] _ _
              [Sample.at_ 1; Sample.at_ 6; Sample.at_ 2] eq_refl eq_refl)
    as [e' [log [n [Hrun _]]]].
  exists e', log. split; [exact Hrun |].
  vm_compute in Hrun. injection Hrun as _ <-. reflexivity.
Defined.

(** X5 — after a stop nothing ticks.  Once [stopSync] or [reset] has run,
    a frame that still fires finds the engine stopped: any number of
    [update] calls emit nothing and leave the engine as it is. *)
Theorem stopped_engine_ignores_ticks :
  forall e clocks,
    run (map Update clocks) (stopSync e) = Ok (stopSync e, [])
    /\ run (map Update clocks) (reset e) = Ok (reset e, []).
Proof.
  assert (H : forall clocks e0, isRunning e0 = false ->
                run (map Update clocks) e0 = Ok (e0, [])).
  { induction clocks as [|clock clocks IH]; intros e0 Hstop; [reflexivity |].
    cbn [map run call]. rewrite update_stopped by assumption. cbn [bind].
    rewrite IH by assumption. reflexivity. }
  intros e clocks. split; apply H.
  - apply stopSync_fields.
  - unfold reset. apply stopSync_fields.
Qed.

(** ** More on seeking *)

(** X6 — seeking is monotone.  On the engine's sequence a later target time
    never yields an earlier cursor: if [t1 <= t2] the cursor after
    [seekTo(t1)] is at most the cursor after [seekTo(t2)]. *)
Theorem seekTo_is_monotone :
  forall songData history e log0 t1 t2,
    run history (constructor songData) = Ok (e, log0) ->
    (t1 <= t2)%Q ->
    exists e1 log1 e2 log2,
      seekTo t1 e = Ok (e1, log1)
      /\ seekTo t2 e = Ok (e2, log2)
      /\ currentIndex e1 <= currentIndex e2.
Proof.
  intros songData history e log0 t1 t2 Hreach Hle.
  pose proof (reached_sorted _ _ _ _ Hreach) as Hs.
  destruct (seekTo_sorted t1 e Hs) as [r1 [log1 [Hseek1 [_ [Hr1 [_ Hcases1]]]]]].
  destruct (seekTo_sorted t2 e Hs) as [r2 [log2 [Hseek2 [_ [Hr2 [Hlater2 _]]]]]].
  eexists. eexists. eexists. eexists.
  split; [exact Hseek1 |]. split; [exact Hseek2 |].
  cbn [currentIndex setCurrentIndex].
  destruct Hcases1 as [[-> _] | [c [Hc Hct]]]; [lia |].
  destruct (Z_le_gt_dec r1 r2) as [|Hgt]; [assumption | exfalso].
  assert (Hbehind : r2 < r1) by lia.
  pose proof (Hlater2 r1 c Hbehind Hc). lra.
Qed.

Lemma seekTo_is_monotone_witness :
  exists e1 log1 e2 log2,
    seekTo 1 (constructor Sample.song) = Ok (e1, log1)
    /\ seekTo 4 (constructor Sample.song) = Ok (e2, log2)
    /\ currentIndex e1 <= currentIndex e2.
Proof.
  apply (seekTo_is_monotone Sample.song [] _ _ 1 4 eq_refl).
  vm_compute. discriminate.
Defined.

(** X7 — seeking to a unit's own time.  Seeking to the time of a unit of
    the sequence (what a click on its tile asks for) puts the cursor on a
    unit of exactly that time, at the unit's index or, when later units
    share the time, at the last of them. *)
Theorem seekTo_unit_time :
  forall songData history e log0 j u,
    run history (constructor songData) = Ok (e, log0) ->
    JsArray.get (characters e) j = Some u ->
    exists e' log c,
      seekTo (time u) e = Ok (e', log)
      /\ j <= currentIndex e'
      /\ JsArray.get (characters e) (currentIndex e') = Some c
      /\ (time c == time u)%Q
      /\ (forall i c', currentIndex e' < i ->
            JsArray.get (characters e) i = Some c' -> (time u < time c')%Q).
Proof.
  intros songData history e log0 j u Hreach Hu.
  pose proof (reached_sorted _ _ _ _ Hreach) as Hs.
  destruct (seekTo_sorted (time u) e Hs) as [r [log [Hseek [_ [Hr [Hlater Hcases]]]]]].
  destruct Hcases as [[_ Hnone] | [c [Hc Hct]]].
  - pose proof (Hnone j u Hu). lra.
  - assert (Hjr : j <= r).
    { destruct (Z_le_gt_dec j r) as [|Hgt]; [assumption | exfalso].
      assert (Hbehind : r < j) by lia.
      pose proof (Hlater j u Hbehind Hu). lra. }
    exists (setCurrentIndex e r), log, c.
    cbn [currentIndex setCurrentIndex].
    split; [exact Hseek |]. split; [exact Hjr |]. split; [exact Hc |].
    split; [| exact Hlater].
    apply Qle_antisym; [exact Hct |].
    destruct (Z.eq_dec j r) as [-> | Hne].
    + rewrite Hu in Hc. injection Hc as <-. apply Qle_refl.
    + apply (sorted_get (characters e) j r u c); [assumption | lia | assumption | assumption].
Qed.

Lemma seekTo_unit_time_witness :
  exists e' log,
    JsArray.get (characters (constructor Sample.song)) 1 = Some Sample.b
    /\ seekTo (time Sample.b) (constructor Sample.song) = Ok (e', log)
    /\ currentIndex e' = 1.
Proof.
  destruct (seekTo_unit_time Sample.song [] _ _ 1 Sample.b eq_refl eq_refl)
    as [e' [log [c [Hseek _]]]].
  exists e', log. split; [reflexivity |]. split; [exact Hseek |].
  vm_compute in Hseek. injection Hseek as <- _. reflexivity.
Defined.

(** X8 — a seek is a full recompute.  Where [seekTo(t)] puts the cursor and
    what it emits depend on the song and on [t] only: after any history of
    calls the result is the one a freshly constructed engine would give. *)
Theorem seekTo_forgets_history :
  forall songData history e log0 t,
    run history (constructor songData) = Ok (e, log0) ->
    exists e' fresh log,
      seekTo t e = Ok (e', log)
      /\ seekTo t (constructor songData) = Ok (fresh, log)
      /\ currentIndex e' = currentIndex fresh
      /\ isRunning e' = isRunning e
      /\ handlers e' = handlers e.
Proof.
  intros songData history e log0 t Hreach.
  destruct (reached_invariant _ _ _ _ Hreach) as [Hflat _].
  destruct (seekTo_spec t (constructor songData)) as [r [log [Hfresh _]]].
  exists (setCurrentIndex e r), (setCurrentIndex (constructor songData) r), log.
  split; [| split; [exact Hfresh | now cbn]].
  unfold seekTo in *. rewrite Hflat.
  cbn [characters constructor setCurrentIndex currentIndex] in Hfresh |- *.
  destruct (seekScan (S (length (flattenCharacters songData)))
                     (flattenCharacters songData) t 0 0) as [r'| |];
    cbn [bind] in Hfresh |- *; try discriminate Hfresh.
  rewrite Hflat.
  destruct (JsArray.get (flattenCharacters songData) r') as [u|];
    inversion Hfresh; subst; reflexivity.
Qed.

Lemma seekTo_forgets_history_witness :
  exists e' fresh log,
    seekTo 4 (setSyncLoop (setCurrentIndex (setIsRunning (constructor Sample.song) true) 2) true)
    = Ok (e', log)
    /\ seekTo 4 (constructor Sample.song) = Ok (fresh, log)
    /\ currentIndex e' = currentIndex fresh.
Proof.
  destruct (seekTo_forgets_history Sample.song [StartSync (Sample.at_ 7)] _ _ 4 eq_refl)
    as [e' [fresh [log [H1 [H2 [H3 _]]]]]].
  exists e', fresh, log. repeat split; assumption.
Defined.

(** X9 — reset, then start.  On a non-empty sequence [reset] followed by
    [startSync] announces the first unit of the sequence: the log starts
    with "verse-change" and "character-change" for the unit at index 0, and
    the engine runs. *)
Theorem reset_then_start_announces_first_unit :
  forall songData history e log0 clock,
    run history (constructor songData) = Ok (e, log0) ->
    characters e <> [] ->
    exists first e' rest,
      JsArray.get (characters e) 0 = Some first
      /\ run [Reset; StartSync clock] e
         = Ok (e', verseChange first :: characterChange first :: rest)
      /\ isRunning e' = true.
Proof.
  intros songData history e log0 clock Hreach Hne.
  apply len_nonempty in Hne.
  destruct (get_defined (characters e) 0) as [first Hfirst]; [lia |].
  assert (Hc : cursorOk (reset e)).
  { unfold cursorOk, reset.
    destruct (stopSync_fields (setCurrentIndex e 0)) as [-> [-> _]]. simpl. lia. }
  assert (Hstop : isRunning (reset e) = false) by apply stopSync_fields.
  destruct (startSync_stopped clock (reset e) Hc Hstop) as [e' [rest [Hstart Hupd]]].
  assert (Hget : JsArray.get (characters (reset e)) (currentIndex (reset e)) = Some first).
  { unfold reset. destruct (stopSync_fields (setCurrentIndex e 0)) as [-> [-> _]].
    exact Hfirst. }
  rewrite Hget in Hstart.
  destruct (update_running clock (setIsRunning (reset e) true)) as [n [Hupd' _]];
    [unfold cursorOk in Hc; simpl; lia | reflexivity |].
  rewrite Hupd' in Hupd. inversion Hupd; subst e' rest; clear Hupd.
  exists first. eexists. eexists. split; [exact Hfirst |]. split.
  - cbn [run call bind]. rewrite Hstart. reflexivity.
  - reflexivity.
Qed.

Lemma reset_then_start_announces_first_unit_witness :
  exists e' rest,
    run [Reset; StartSync (Sample.at_ 0)]
        (setCurrentIndex (constructor Sample.song) 2)
    = Ok (e', verseChange Sample.a :: characterChange Sample.a :: rest).
Proof.
  destruct (reset_then_start_announces_first_unit Sample.song [SeekTo 6] _ _
              (Sample.at_ 0) eq_refl)
    as [first [e' [rest [Hfirst [Hrun _]]]]]; [discriminate |].
  exists e', rest. vm_compute in Hfirst. injection Hfirst as <-. exact Hrun.
Defined.

(* ===================================================================== *)
(** * Further properties of flattenCharacters *)
(* ===================================================================== *)

(** The units a verse contributes, numbered from [charIdx] and
    [globalIdx]. *)
Fixpoint numbered (cs : list Song.CharData) (verseIdx charIdx globalIdx : nat)
  : list TextUnit :=
  match cs with
  | [] => []
  | cd :: cs' =>
    spread cd verseIdx charIdx globalIdx
      :: numbered cs' verseIdx (S charIdx) (S globalIdx)
  end.

Fixpoint numberedVerses (vs : list Song.Verse) (verseIdx globalIdx : nat)
  : list TextUnit :=
  match vs with
  | [] => []
  | v :: vs' =>
    numbered (Song.characters v) verseIdx 0 globalIdx
      ++ numberedVerses vs' (S verseIdx) (globalIdx + length (Song.characters v))
  end.

(** The number of characters in the verses before verse [j]. *)
Definition charsBefore (vs : list Song.Verse) (j : nat) : nat :=
  length (flat_map Song.characters (firstn j vs)).

Lemma numbered_length cs vi ci g : length (numbered cs vi ci g) = length cs.
Proof.
  revert ci g. induction cs as [|cd cs IH]; intros ci g; simpl; [reflexivity |].
  now rewrite IH.
Qed.

Lemma numbered_nth cs vi :
  forall ci g k,
    nth_error (numbered cs vi ci g) k
    = option_map (fun cd => spread cd vi (ci + k) (g + k)) (nth_error cs k).
Proof.
  induction cs as [|cd cs IH]; intros ci g [|k]; simpl; try reflexivity.
  - now rewrite !Nat.add_0_r.
  - rewrite IH. now rewrite !Nat.add_succ_r.
Qed.

Lemma pushChars_numbered vi :
  forall cs ci chars,
    JsArray.forEach_from
      (fun charData charIdx chars =>
         JsArray.push chars (spread charData vi charIdx (length chars)))
      cs ci chars
    = chars ++ numbered cs vi ci (length chars).
Proof.
  induction cs as [|cd cs IH]; intros ci chars; simpl.
  - now rewrite app_nil_r.
  - rewrite IH. unfold JsArray.push. rewrite length_app, <- app_assoc. simpl.
    now rewrite Nat.add_1_r.
Qed.

Lemma pushVerses_numbered :
  forall vs vi chars,
    JsArray.forEach_from pushVerse vs vi chars
    = chars ++ numberedVerses vs vi (length chars).
Proof.
  induction vs as [|v vs IH]; intros vi chars; simpl.
  - now rewrite app_nil_r.
  - rewrite IH. unfold pushVerse, JsArray.forEach. rewrite pushChars_numbered.
    rewrite length_app, numbered_length, <- app_assoc. reflexivity.
Qed.

Lemma pushAll_numbered songData :
  pushAll songData = numberedVerses (Song.verses songData) 0 0.
Proof. unfold pushAll, JsArray.forEach. now rewrite pushVerses_numbered. Qed.

Lemma numberedVerses_In :
  forall vs vi g u,
    In u (numberedVerses vs vi g) <->
    exists j v k cd,
      nth_error vs j = Some v
      /\ nth_error (Song.characters v) k = Some cd
      /\ u = spread cd (vi + j) k (g + charsBefore vs j + k).
Proof.
  induction vs as [|v vs IH]; intros vi g u; simpl.
  - split; [contradiction |]. intros [[|j] [v [k [cd [H _]]]]]; discriminate H.
  - rewrite in_app_iff, IH. split.
    + intros [Hin | [j [v' [k [cd [Hv [Hcd ->]]]]]]].
      * apply In_nth_error in Hin. destruct Hin as [k Hk].
        rewrite numbered_nth in Hk.
        destruct (nth_error (Song.characters v) k) as [cd|] eqn:Hcd; [| discriminate Hk].
        injection Hk as <-. exists 0%nat, v, k, cd.
        split; [reflexivity |]. split; [assumption |].
        unfold charsBefore. simpl. now rewrite !Nat.add_0_r.
      * exists (S j), v', k, cd. split; [assumption |]. split; [assumption |].
        unfold charsBefore. simpl. rewrite length_app. f_equal; lia.
    + intros [[|j] [v' [k [cd [Hv [Hcd ->]]]]]]; simpl in Hv.
      * injection Hv as <-. left. apply (nth_error_In _ k).
        rewrite numbered_nth, Hcd. unfold charsBefore. simpl.
        now rewrite !Nat.add_0_r.
      * right. exists j, v', k, cd. split; [assumption |]. split; [assumption |].
        unfold charsBefore. simpl. rewrite length_app. f_equal; lia.
Qed.

Lemma numberedVerses_length :
  forall vs vi g,
    length (numberedVerses vs vi g) = length (flat_map Song.characters vs).
Proof.
  induction vs as [|v vs IH]; intros vi g; simpl; [reflexivity |].
  now rewrite !length_app, numbered_length, IH.
Qed.

Lemma flatten_In songData u :
  In u (flattenCharacters songData) <->
  exists j v k cd,
    nth_error (Song.verses songData) j = Some v
    /\ nth_error (Song.characters v) k = Some cd
    /\ u = spread cd j k (charsBefore (Song.verses songData) j + k).
Proof.
  rewrite <- (numberedVerses_In (Song.verses songData) 0 0 u), <- pushAll_numbered.
  split; apply Permutation_in; [apply flatten_perm | symmetry; apply flatten_perm].
Qed.

(** X10 — units address their source.  The sequence has one unit per
    character of the song data.  Every unit carries the verse index and
    the in-verse index of the character it was made from, with that
    character's glyph, annotations and time, and its [globalIdx] is the
    number of characters in the earlier verses plus its in-verse index;
    every character of every verse has its unit; and two units with the
    same verse index and in-verse index are the same unit. *)
Theorem flattenCharacters_addresses_source :
  forall songData,
    length (flattenCharacters songData)
    = length (flat_map Song.characters (Song.verses songData))
    /\ (forall u, In u (flattenCharacters songData) ->
          exists v cd,
            nth_error (Song.verses songData) (verseIdx u) = Some v
            /\ nth_error (Song.characters v) (charIdx u) = Some cd
            /\ char u = Song.char cd /\ pinyin u = Song.pinyin cd
            /\ meaning u = Song.meaning cd /\ time u = Song.time cd
            /\ globalIdx u
               = (charsBefore (Song.verses songData) (verseIdx u) + charIdx u)%nat)
    /\ (forall j v k cd,
          nth_error (Song.verses songData) j = Some v ->
          nth_error (Song.characters v) k = Some cd ->
          exists u, In u (flattenCharacters songData)
                    /\ verseIdx u = j /\ charIdx u = k)
    /\ (forall u u',
          In u (flattenCharacters songData) -> In u' (flattenCharacters songData) ->
          verseIdx u = verseIdx u' -> charIdx u = charIdx u' -> u = u').
Proof.
  intros songData. split; [| split; [| split]].
  - unfold flattenCharacters. rewrite sort_length, pushAll_numbered.
    apply numberedVerses_length.
  - intros u Hu. apply flatten_In in Hu.
    destruct Hu as [j [v [k [cd [Hv [Hcd ->]]]]]].
    exists v, cd. cbn. repeat split; assumption.
  - intros j v k cd Hv Hcd.
    exists (spread cd j k (charsBefore (Song.verses songData) j + k)).
    split; [| split; reflexivity].
    apply flatten_In. exists j, v, k, cd. auto.
  - intros u u' Hu Hu' Hvi Hci.
    apply flatten_In in Hu. apply flatten_In in Hu'.
    destruct Hu as [j [v [k [cd [Hv [Hcd ->]]]]]].
    destruct Hu' as [j' [v' [k' [cd' [Hv' [Hcd' ->]]]]]].
    cbn in Hvi, Hci. subst j' k'.
    rewrite Hv in Hv'. injection Hv' as <-.
    rewrite Hcd in Hcd'. injection Hcd' as <-. reflexivity.
Qed.

(** ** Units of equal time *)

(** [a] comes before [b]: earlier, or of the same time and earlier in
    reading order. *)
Definition before (a b : TextUnit) : Prop :=
  (time a < time b)%Q \/ ((time a == time b)%Q /\ (globalIdx a < globalIdx b)%nat).

Definition earlierRead (a b : TextUnit) : Prop := (globalIdx a < globalIdx b)%nat.

Lemma before_leTime a b : before a b -> leTime a b.
Proof. unfold before, leTime. intros [H | [H _]]; lra. Qed.

Lemma before_of_le a b : leTime a b -> earlierRead a b -> before a b.
Proof.
  unfold leTime, earlierRead, before. intros Hle Hidx.
  destruct (Qlt_le_dec (time a) (time b)) as [Hlt | Hge]; [now left | right].
  split; [now apply Qle_antisym | assumption].
Qed.

Lemma insert_stable x l :
  StronglySorted before l -> Forall (earlierRead x) l ->
  StronglySorted before (JsArray.insert byTime x l).
Proof.
  induction 1 as [|y l Hs IH Hall]; intros Hx; simpl.
  - repeat constructor.
  - inversion Hx as [|? ? Hxy Hxl]; subst.
    destruct (Qle_bool (byTime x y) 0) eqn:E.
    + apply byTime_test in E.
      constructor; [now constructor |].
      constructor; [now apply before_of_le |].
      rewrite Forall_forall in Hall, Hxl |- *. intros z Hz.
      apply before_of_le; [| now apply Hxl].
      pose proof (before_leTime _ _ (Hall z Hz)). unfold leTime in *. lra.
    + apply byTime_test_false in E.
      constructor; [now apply IH |].
      eapply Permutation_Forall; [symmetry; apply insert_perm |].
      constructor; [now left | assumption].
Qed.

Lemma sort_stable l :
  StronglySorted earlierRead l -> StronglySorted before (JsArray.sort byTime l).
Proof.
  induction 1 as [|x l Hs IH Hall]; simpl; [constructor |].
  apply insert_stable; [assumption |].
  eapply Permutation_Forall; [symmetry; apply sort_perm | assumption].
Qed.

Lemma seq_increasing : forall n a, StronglySorted lt (seq a n).
Proof.
  induction n as [|n IH]; intros a; simpl; constructor; [apply IH |].
  apply Forall_forall. intros b Hb. apply in_seq in Hb. lia.
Qed.

Lemma pushAll_earlierRead songData : StronglySorted earlierRead (pushAll songData).
Proof.
  pose proof (seq_increasing (length (pushAll songData)) 0) as H.
  rewrite <- pushAll_globalIdx in H.
  induction (pushAll songData) as [|x l IH]; [constructor |].
  simpl in H. inversion H as [|? ? Hs Hall]; subst.
  constructor; [now apply IH |]. rewrite Forall_map in Hall. exact Hall.
Qed.

Lemma stable_nth (l : list TextUnit) :
  StronglySorted before l ->
  forall i j a b, (i < j)%nat ->
    nth_error l i = Some a -> nth_error l j = Some b -> before a b.
Proof.
  induction 1 as [|x l Hs IH Hall]; intros i j a b Hij Ha Hb.
  - destruct i; discriminate.
  - destruct j as [|j]; [lia |]. simpl in Hb.
    destruct i as [|i]; simpl in Ha.
    + injection Ha as <-. rewrite Forall_forall in Hall.
      apply Hall. eapply nth_error_In, Hb.
    + eapply IH; [| exact Ha | exact Hb]. lia.
Qed.

(** X11 — ties keep reading order.  Of two units of the sequence the one
    at the lower index has the strictly earlier time, or the same time and
    the lower [globalIdx]: units that share a time stay in the order in
    which the song data lists them. *)
Theorem flattenCharacters_keeps_reading_order_of_ties :
  forall songData i j a b,
    i < j ->
    JsArray.get (flattenCharacters songData) i = Some a ->
    JsArray.get (flattenCharacters songData) j = Some b ->
    (time a < time b)%Q
    \/ ((time a == time b)%Q /\ (globalIdx a < globalIdx b)%nat).
Proof.
  intros songData i j a b Hij Ha Hb.
  apply get_Some in Ha. apply get_Some in Hb.
  destruct Ha as [H0 Ha]. destruct Hb as [_ Hb].
  apply (stable_nth (flattenCharacters songData)
           (sort_stable _ (pushAll_earlierRead songData))
           (Z.to_nat i) (Z.to_nat j)); [lia | assumption | assumption].
Qed.

(** One verse whose first and third characters share the time 3. *)
Definition tiedSong : Song.SongData :=
  {| Song.verses :=
       [ {| Song.characters := [Sample.cd "p" 3; Sample.cd "q" 1; Sample.cd "r" 3];
            Song.translation := "" |} ] |}.

Lemma flattenCharacters_keeps_reading_order_of_ties_witness :
  exists a b,
    JsArray.get (flattenCharacters tiedSong) 1 = Some a
    /\ JsArray.get (flattenCharacters tiedSong) 2 = Some b
    /\ (time a == time b)%Q
    /\ globalIdx a = 0%nat /\ globalIdx b = 2%nat
    /\ ((time a < time b)%Q
        \/ ((time a == time b)%Q /\ (globalIdx a < globalIdx b)%nat)).
Proof.
  eexists. eexists. split; [reflexivity |]. split; [reflexivity |].
  split; [reflexivity |]. split; [reflexivity |]. split; [reflexivity |].
  apply (flattenCharacters_keeps_reading_order_of_ties tiedSong 1 2);
    [lia | reflexivity | reflexivity].
Defined.

(* ===================================================================== *)
(** * Further properties of on / off / emit *)
(* ===================================================================== *)

(** One of the three event kinds of the engine. *)
Definition isKind (event : string) : Prop :=
  event = CHARACTER_CHANGE \/ event = VERSE_CHANGE \/ event = TIME_UPDATE.

(** Whether [callback] is in the set of [event]. *)
Definition registered (e : Engine) (event : string) (callback : Callback) : bool :=
  match property (handlers e) event with
  | OwnSet s => JsSet.has s callback
  | _ => false
  end.

Lemma kind_property h event :
  isKind event -> exists s, property h event = OwnSet s.
Proof. intros [-> | [-> | ->]]; eexists; reflexivity. Qed.

Lemma withSet_same h event s :
  property h event = OwnSet s -> withSet h event s = h.
Proof.
  intros H. destruct (property_OwnSet _ _ _ H) as [[-> ->] | [[-> ->] | [-> ->]]];
    now destruct h.
Qed.

Lemma withSet_twice h event s s' :
  withSet (withSet h event s) event s' = withSet h event s'.
Proof.
  unfold withSet.
  destruct (String.eqb event CHARACTER_CHANGE); [reflexivity |].
  destruct (String.eqb event VERSE_CHANGE); [reflexivity |].
  destruct (String.eqb event TIME_UPDATE); reflexivity.
Qed.

Lemma property_withSet_other h event event' s :
  event' <> event -> property (withSet h event s) event' = property h event'.
Proof.
  intros Hne. unfold property, withSet.
  destruct (String.eqb_spec event CHARACTER_CHANGE);
    [subst; destruct (String.eqb_spec event' CHARACTER_CHANGE); [congruence | reflexivity] |].
  destruct (String.eqb_spec event VERSE_CHANGE);
    [subst; destruct (String.eqb_spec event' VERSE_CHANGE); [congruence | reflexivity] |].
  destruct (String.eqb_spec event TIME_UPDATE);
    [subst; destruct (String.eqb_spec event' TIME_UPDATE); [congruence | reflexivity] |].
  reflexivity.
Qed.

Lemma setHandlers_same e : setHandlers e (handlers e) = e.
Proof. now destruct e. Qed.

Lemma delete_absent s x : ~ In x s -> JsSet.delete x s = s.
Proof.
  intros Hnin. unfold JsSet.delete. induction s as [|y s IH]; [reflexivity |].
  simpl. destruct (Nat.eqb_spec x y) as [-> | Hne].
  - exfalso. apply Hnin. now left.
  - simpl. f_equal. apply IH. intros Hin. apply Hnin. now right.
Qed.

Lemma delete_added s x : ~ In x s -> JsSet.delete x (JsSet.add x s) = s.
Proof.
  intros Hnin. unfold JsSet.add.
  destruct (JsSet.has s x) eqn:E; [apply has_In in E; contradiction |].
  pose proof (delete_absent s x Hnin) as Hsame.
  unfold JsSet.delete in *. cbv iota. rewrite filter_app. simpl.
  rewrite Nat.eqb_refl. simpl. rewrite app_nil_r. exact Hsame.
Qed.

Lemma delete_calls x s (data : Payload) :
  map (fun callback => (callback, data)) (JsSet.delete x s)
  = filter (fun c => negb (Nat.eqb x (fst c))) (map (fun callback => (callback, data)) s).
Proof.
  unfold JsSet.delete. induction s as [|y s IH]; [reflexivity |].
  simpl. destruct (Nat.eqb x y); simpl; [exact IH | now rewrite IH].
Qed.

(** X12 — registering is idempotent.  On an engine reached from the
    constructor and for each of the three event kinds, [on] returns, a
    second [on] of the same callback changes nothing, and every later
    [emit] of that kind calls the callback exactly once. *)
Theorem on_registers_once :
  forall songData history e log event callback,
    run history (constructor songData) = Ok (e, log) ->
    isKind event ->
    exists e1,
      on event callback e = Ok e1
      /\ on event callback e1 = Ok e1
      /\ forall data, exists calls,
           emit event data e1 = Ok calls /\ timesCalled callback calls = 1%nat.
Proof.
  intros songData history e log event callback Hreach Hkind.
  pose proof (reached_handlersOk _ _ _ _ Hreach) as Hh.
  destruct (kind_property (handlers e) event Hkind) as [s Hp].
  destruct (property_withSet _ _ _ (JsSet.add callback s) Hp) as [Hp' [_ [_ Hs]]].
  exists (setHandlers e (withSet (handlers e) event (JsSet.add callback s))).
  assert (Hon : on event callback e
                = Ok (setHandlers e (withSet (handlers e) event (JsSet.add callback s))))
    by (unfold on; now rewrite Hp).
  split; [exact Hon |]. split; [now apply on_twice in Hon |].
  intros data. unfold emit. cbn [handlers setHandlers]. rewrite Hp'.
  eexists. split; [reflexivity |].
  apply called_once; [now apply add_NoDup, Hs | apply add_In].
Qed.

Lemma on_registers_once_witness :
  exists e1,
    on VERSE_CHANGE 7%nat (constructor Sample.song) = Ok e1
    /\ on VERSE_CHANGE 7%nat e1 = Ok e1
    /\ emit VERSE_CHANGE (TimeData 0 0) e1 = Ok [(7%nat, TimeData 0 0)].
Proof.
  destruct (on_registers_once Sample.song [] _ _ VERSE_CHANGE 7%nat eq_refl)
    as [e1 [Hon [Hon2 _]]]; [right; left; reflexivity |].
  exists e1. split; [exact Hon |]. split; [exact Hon2 |].
  vm_compute in Hon. injection Hon as <-. reflexivity.
Defined.

(** X13 — observers are called in registration order.  Registering a
    callback that is not yet registered for an event kind puts it last:
    [emit] makes the calls it made before, in the same order, and then
    calls the new callback. *)
Theorem on_appends_in_registration_order :
  forall e event callback data calls,
    isKind event ->
    registered e event callback = false ->
    emit event data e = Ok calls ->
    exists e1,
      on event callback e = Ok e1
      /\ emit event data e1 = Ok (calls ++ [(callback, data)]).
Proof.
  intros e event callback data calls Hkind Hreg Hemit.
  destruct (kind_property (handlers e) event Hkind) as [s Hp].
  unfold registered in Hreg. rewrite Hp in Hreg.
  unfold emit in Hemit. rewrite Hp in Hemit. injection Hemit as <-.
  destruct (property_withSet _ _ _ (JsSet.add callback s) Hp) as [Hp' _].
  eexists. split; [unfold on; rewrite Hp; reflexivity |].
  unfold emit. cbn [handlers setHandlers]. rewrite Hp'.
  unfold JsSet.add. rewrite Hreg, map_app. reflexivity.
Qed.

Lemma on_appends_in_registration_order_witness :
  exists e0 e1,
    on TIME_UPDATE 1%nat (constructor Sample.song) = Ok e0
    /\ on TIME_UPDATE 2%nat e0 = Ok e1
    /\ emit TIME_UPDATE (TimeData 3 10) e1
       = Ok ([(1%nat, TimeData 3 10)] ++ [(2%nat, TimeData 3 10)]).
Proof.
  eexists. 
  destruct (on_appends_in_registration_order
              (setHandlers (constructor Sample.song)
                 (withSet (handlers (constructor Sample.song)) TIME_UPDATE [1%nat]))
              TIME_UPDATE 2%nat (TimeData 3 10) [(1%nat, TimeData 3 10)])
    as [e1 [Hon Hemit]];
    [right; right; reflexivity | reflexivity | reflexivity |].
  exists e1. split; [reflexivity |]. split; assumption.
Defined.

(** X14 — [off] removes that callback and nothing else.  For each of the
    three event kinds [off] returns; afterwards [emit] makes the calls it
    made before without those to the removed callback, the others in their
    order; the callback is not called at all, however often it had been
    registered, and a second [off] changes nothing. *)
Theorem off_removes_only_that_callback :
  forall e event callback data calls,
    isKind event ->
    emit event data e = Ok calls ->
    exists e2,
      off event callback e = Ok e2
      /\ emit event data e2
         = Ok (filter (fun c => negb (Nat.eqb callback (fst c))) calls)
      /\ (forall data', exists calls',
            emit event data' e2 = Ok calls' /\ timesCalled callback calls' = 0%nat)
      /\ off event callback e2 = Ok e2.
Proof.
  intros e event callback data calls Hkind Hemit.
  destruct (kind_property (handlers e) event Hkind) as [s Hp].
  unfold emit in Hemit. rewrite Hp in Hemit. injection Hemit as <-.
  destruct (property_withSet _ _ _ (JsSet.delete callback s) Hp) as [Hp' _].
  exists (setHandlers e (withSet (handlers e) event (JsSet.delete callback s))).
  split; [unfold off; now rewrite Hp |]. split; [| split].
  - unfold emit. cbn [handlers setHandlers]. rewrite Hp'. now rewrite delete_calls.
  - intros data'. unfold emit. cbn [handlers setHandlers]. rewrite Hp'.
    exists (map (fun cb => (cb, data')) (JsSet.delete callback s)).
    split; [reflexivity |]. apply never_called.
    intros Hin. apply delete_In in Hin. tauto.
  - unfold off. cbn [handlers setHandlers]. rewrite Hp'.
    rewrite (delete_absent (JsSet.delete callback s) callback)
      by (intros Hin; apply delete_In in Hin; tauto).
    now rewrite withSet_twice.
Qed.

Lemma off_removes_only_that_callback_witness :
  exists e2,
    off TIME_UPDATE 1%nat
        (setHandlers (constructor Sample.song)
           (withSet (handlers (constructor Sample.song)) TIME_UPDATE [1%nat; 2%nat]))
    = Ok e2
    /\ emit TIME_UPDATE (TimeData 3 10) e2 = Ok [(2%nat, TimeData 3 10)].
Proof.
  destruct (off_removes_only_that_callback
              (setHandlers (constructor Sample.song)
                 (withSet (handlers (constructor Sample.song)) TIME_UPDATE [1%nat; 2%nat]))
              TIME_UPDATE 1%nat (TimeData 3 10)
              [(1%nat, TimeData 3 10); (2%nat, TimeData 3 10)])
    as [e2 [Hoff [Hemit _]]];
    [right; right; reflexivity | reflexivity |].
  exists e2. split; assumption.
Defined.

(** X15 — [on] then [off] is a round trip.  Registering a callback that was
    not registered for an event kind and removing it again gives back the
    engine as it was. *)
Theorem on_then_off_restores_engine :
  forall e event callback,
    isKind event ->
    registered e event callback = false ->
    exists e1, on event callback e = Ok e1 /\ off event callback e1 = Ok e.
Proof.
  intros e event callback Hkind Hreg.
  destruct (kind_property (handlers e) event Hkind) as [s Hp].
  unfold registered in Hreg. rewrite Hp in Hreg.
  assert (Hnin : ~ In callback s) by (intros Hin; apply has_In in Hin; congruence).
  destruct (property_withSet _ _ _ (JsSet.add callback s) Hp) as [Hp' _].
  eexists. split; [unfold on; rewrite Hp; reflexivity |].
  unfold off. cbn [handlers setHandlers]. rewrite Hp'.
  rewrite (delete_added s callback Hnin), withSet_twice.
  rewrite (withSet_same _ _ _ Hp). cbn [setHandlers characters currentIndex isRunning syncLoop].
  now destruct e.
Qed.

Lemma on_then_off_restores_engine_witness :
  exists e1,
    on CHARACTER_CHANGE 5%nat (constructor Sample.song) = Ok e1
    /\ off CHARACTER_CHANGE 5%nat e1 = Ok (constructor Sample.song).
Proof.
  apply (on_then_off_restores_engine (constructor Sample.song) CHARACTER_CHANGE 5%nat);
    [left; reflexivity | reflexivity].
Defined.

(** X16 — event kinds do not interfere.  Registering or removing a callback
    under one event name changes nothing about what [emit] does under any
    other name. *)
Theorem other_events_are_untouched :
  forall e event event' callback data e1,
    event' <> event ->
    on event callback e = Ok e1 \/ off event callback e = Ok e1 ->
    emit event' data e1 = emit event' data e.
Proof.
  intros e event event' callback data e1 Hne Hcall.
  unfold on, off in Hcall.
  destruct (property (handlers e) event) as [s| |] eqn:Hp.
  - unfold emit.
    destruct Hcall as [H | H]; injection H as <-; cbn [handlers setHandlers];
      now rewrite property_withSet_other.
  - destruct Hcall as [H | H]; discriminate H.
  - destruct Hcall as [H | H]; injection H as <-; reflexivity.
Qed.

Lemma other_events_are_untouched_witness :
  exists e1,
    on VERSE_CHANGE 3%nat (constructor Sample.song) = Ok e1
    /\ emit CHARACTER_CHANGE (TimeData 0 0) e1
       = emit CHARACTER_CHANGE (TimeData 0 0) (constructor Sample.song).
Proof.
  eexists. split; [reflexivity |].
  apply (other_events_are_untouched (constructor Sample.song) VERSE_CHANGE
           CHARACTER_CHANGE 3%nat (TimeData 0 0)); [discriminate | left; reflexivity].
Defined.

(** ** What the engine itself emits *)

Definition ofKind (x : Emission) : Prop := isKind (fst x).

Lemma enteringFrom_kinds chars i n : Forall ofKind (enteringFrom chars i n).
Proof.
  apply Forall_forall. intros x Hin.
  destruct (enteringFrom_In _ _ _ _ Hin) as [k [cur [_ [_ [-> | ->]]]]];
    unfold ofKind, isKind; cbn; auto.
Qed.

Lemma announce_kinds (o : option TextUnit) :
  Forall ofKind match o with
                | Some u => [verseChange u; characterChange u]
                | None => []
                end.
Proof.
  destruct o as [u|]; [| constructor].
  apply Forall_cons; [unfold ofKind, isKind; cbn; auto |].
  apply Forall_cons; [unfold ofKind, isKind; cbn; auto | constructor].
Qed.

Lemma call_kinds c e e' log :
  cursorOk e -> call c e = Ok (e', log) -> Forall ofKind log.
Proof.
  intros Hc Hcall. destruct c; simpl in Hcall.
  - destruct (isRunning e) eqn:Hrun.
    + rewrite startSync_running in Hcall by assumption.
      inversion Hcall; subst. constructor.
    + destruct (startSync_stopped clock e Hc Hrun) as [e1 [rest [Hs Hupd]]].
      rewrite Hs in Hcall. inversion Hcall; subst e1 log; clear Hcall.
      destruct (update_running clock (setIsRunning e true)) as [n [Hupd' _]];
        [unfold cursorOk in Hc; simpl; lia | reflexivity |].
      rewrite Hupd' in Hupd. inversion Hupd; subst.
      apply Forall_app. split; [apply announce_kinds |].
      constructor; [unfold ofKind, isKind; cbn; auto | apply enteringFrom_kinds].
  - inversion Hcall; subst. constructor.
  - destruct (isRunning e) eqn:Hrun.
    + destruct (update_running clock e) as [n [Hupd _]];
        [unfold cursorOk in Hc; lia | assumption |].
      rewrite Hupd in Hcall. inversion Hcall; subst.
      constructor; [unfold ofKind, isKind; cbn; auto | apply enteringFrom_kinds].
    + rewrite update_stopped in Hcall by assumption. inversion Hcall; subst. constructor.
  - destruct (seekTo_spec time' e) as [r [log' [Hseek [Hlog _]]]].
    rewrite Hseek in Hcall. inversion Hcall; subst. apply announce_kinds.
  - inversion Hcall; subst. constructor.
  - destruct (on event callback e); simpl in Hcall; inversion Hcall; subst. constructor.
  - destruct (off event callback e); simpl in Hcall; inversion Hcall; subst. constructor.
Qed.

Lemma run_kinds history :
  forall e e' log, cursorOk e -> run history e = Ok (e', log) -> Forall ofKind log.
Proof.
  induction history as [|c rest IH]; intros e e' log Hc Hrun; simpl in Hrun.
  - inversion Hrun; subst. constructor.
  - destruct (call c e) as [[e1 log1]| |] eqn:Hcall; simpl in Hrun; try discriminate.
    destruct (run rest e1) as [[e2 log2]| |] eqn:Hrest; simpl in Hrun; try discriminate.
    inversion Hrun; subst; clear Hrun.
    destruct (call_invariant _ _ _ _ Hc Hcall) as [_ Hc1].
    apply Forall_app. split.
    + exact (call_kinds _ _ _ _ Hc Hcall).
    + exact (IH _ _ _ Hc1 Hrest).
Qed.

Lemma deliver_kinds e log :
  Forall ofKind log -> exists calls, deliver e log = Ok calls.
Proof.
  induction 1 as [|[event data] log Hk _ IH]; [now exists [] |].
  destruct IH as [more Hmore].
  destruct (kind_property (handlers e) event Hk) as [s Hp].
  eexists. cbn [deliver]. unfold emit. rewrite Hp. cbn [bind]. rewrite Hmore.
  reflexivity.
Qed.

(** X17 — the engine never trips over its own emits.  Whatever the history
    of calls, every notification the engine emits is of one of its three
    event kinds; hence delivering them to the registered observers, whoever
    they are, never throws. *)
Theorem engine_emits_only_its_three_kinds :
  forall songData history e log,
    run history (constructor songData) = Ok (e, log) ->
    Forall (fun x => fst x = CHARACTER_CHANGE \/ fst x = VERSE_CHANGE
                     \/ fst x = TIME_UPDATE) log
    /\ forall observers, exists calls, deliver observers log = Ok calls.
Proof.
  intros songData history e log Hreach.
  pose proof (run_kinds _ _ _ _ (constructor_cursorOk songData) Hreach) as Hk.
  split; [exact Hk |]. intros observers. now apply deliver_kinds.
Qed.

Lemma engine_emits_only_its_three_kinds_witness :
  exists e log calls,
    run [On CHARACTER_CHANGE 1%nat; StartSync (Sample.at_ 3)] (constructor Sample.song)
    = Ok (e, log)
    /\ deliver e log = Ok calls.
Proof.
  eexists. eexists.
  destruct (engine_emits_only_its_three_kinds Sample.song
              [On CHARACTER_CHANGE 1%nat; StartSync (Sample.at_ 3)] _ _ eq_refl)
    as [_ Hdeliver].
  destruct (Hdeliver
              (setSyncLoop
                 (setCurrentIndex
                    (setIsRunning
                       (setHandlers (constructor Sample.song)
                          (withSet (handlers (constructor Sample.song))
                             CHARACTER_CHANGE [1%nat])) true) 1) true))
    as [calls Hcalls].
  exists calls. split; [reflexivity | exact Hcalls].
Defined.

(* ===================================================================== *)
(** * StateManager (src/scripts/state-manager.js) *)
(* ===================================================================== *)

(** The values the application keeps in the state: [null], [undefined],
    booleans, numbers ([NaN] apart), the song data, and what a read of a
    name inherited from [Object.prototype] yields. *)
Inductive Value :=
| VNull
| VUndefined
| VBool (b : bool)
| VNum (q : Q)
| VNaN
| VSong (songData : Song.SongData)
| VInherited (name : string).

(** Plain objects as the ordered list of their own properties.  An own
    property named [__proto__] (only [JSON.parse] or a computed key makes
    one) is outside the model: assigning it would change the prototype. *)
Module JsObject.

Definition t : Type := list (string * Value).

Fixpoint own (o : t) (key : string) : option Value :=
  match o with
  | [] => None
  | (k, v) :: o' => if (k =? key)%string then Some v else own o' key
  end.

(** [o[key]] *)
Definition get (o : t) (key : string) : Value :=
  match own o key with
  | Some v => v
  | None =>
    if existsb (String.eqb key) objectPrototype then VInherited key else VUndefined
  end.

(** [o[key] = v]: in place when the property exists, else added last. *)
Fixpoint set (o : t) (key : string) (v : Value) : t :=
  match o with
  | [] => [(key, v)]
  | (k, w) :: o' =>
    if (k =? key)%string then (k, v) :: o' else (k, w) :: set o' key v
  end.

(** [Object.assign(target, source)] *)
Definition assign (target source : t) : t :=
  fold_left (fun o kv => set o (fst kv) (snd kv)) source target.

(** The keys are pairwise distinct and none is [__proto__]. *)
Fixpoint plain (o : t) : bool :=
  match o with
  | [] => true
  | (k, _) :: o' =>
    negb (k =? "__proto__")%string
    && negb (existsb (fun kv => (fst kv =? k)%string) o')
    && plain o'
  end.

End JsObject.

Module StateManager.

(** [callback(newValue, oldValue)] *)
Definition Notification : Type := Callback * Value * Value.

(** [observers]: a [Map] from keys to sets of callbacks; entries are added
    and never removed. *)
Definition Observers : Type := list (string * list Callback).

Fixpoint mapGet (m : Observers) (key : string) : option (list Callback) :=
  match m with
  | [] => None
  | (k, s) :: m' => if (k =? key)%string then Some s else mapGet m' key
  end.

Fixpoint mapSet (m : Observers) (key : string) (s : list Callback) : Observers :=
  match m with
  | [] => [(key, s)]
  | (k, s0) :: m' =>
    if (k =? key)%string then (k, s) :: m' else (k, s0) :: mapSet m' key s
  end.

Record t := mk {
  state : JsObject.t;
  observers : Observers
}.

Definition constructor : t :=
  {| state :=
       [ ("song", VNull);
         ("currentVerseIndex", VNum (-1));
         ("currentCharIndex", VNum (-1));
         ("isPlaying", VBool false);
         ("audioTime", VNum 0);
         ("duration", VNum 0);
         ("introComplete", VBool false) ]%string;
     observers := [] |}.

(** The calls one key of [updates] causes. *)
Definition notify (m : Observers) (newState oldState : JsObject.t) (key : string)
  : list Notification :=
  match mapGet m key with
  | Some callbacks =>
    map (fun callback => (callback, JsObject.get newState key, JsObject.get oldState key))
        callbacks
  | None => []
  end.

(** [setState(updates)], with [updates] given by its own properties in the
    order [for ... in] visits them; returns the calls made. *)
Definition setState (updates : JsObject.t) (m : t) : t * list Notification :=
  let oldState := state m in
  let newState := JsObject.assign (state m) updates in
  ({| state := newState; observers := observers m |},
   flat_map (fun kv => notify (observers m) newState oldState (fst kv)) updates).

(** [subscribe(key, callback)]; the function it returns is
    [unsubscribe key callback]. *)
Definition subscribe (key : string) (callback : Callback) (m : t) : t :=
  let obs :=
    match mapGet (observers m) key with
    | Some _ => observers m
    | None => mapSet (observers m) key []
    end in
  match mapGet obs key with
  | Some s => {| state := state m; observers := mapSet obs key (JsSet.add callback s) |}
  | None => m
  end.

Definition unsubscribe (key : string) (callback : Callback) (m : t) : Result t :=
  match mapGet (observers m) key with
  | Some s =>
    Ok {| state := state m; observers := mapSet (observers m) key (JsSet.delete callback s) |}
  | None => Throw TypeError
  end.

Definition getState (m : t) : JsObject.t := state m.

Definition reset (m : t) : t * list Notification :=
  setState [ ("currentVerseIndex", VNum (-1));
             ("currentCharIndex", VNum (-1));
             ("isPlaying", VBool false);
             ("audioTime", VNum 0) ]%string m.

(** Whether [callback] is subscribed to [key]. *)
Definition subscribed (m : t) (key : string) (callback : Callback) : bool :=
  match mapGet (observers m) key with
  | Some s => JsSet.has s callback
  | None => false
  end.

(** Histories of calls on a manager. *)
Inductive Call :=
| SetState (updates : JsObject.t)
| Subscribe (key : string) (callback : Callback)
| Unsubscribe (key : string) (callback : Callback)
| Reset.

Definition call (c : Call) (m : t) : Result (t * list Notification) :=
  match c with
  | SetState updates => Ok (setState updates m)
  | Subscribe key callback => Ok (subscribe key callback m, [])
  | Unsubscribe key callback => m' <- unsubscribe key callback m ;; Ok (m', [])
  | Reset => Ok (reset m)
  end.

Fixpoint run (history : list Call) (m : t) : Result (t * list Notification) :=
  match history with
  | [] => Ok (m, [])
  | c :: rest =>
    '(m1, log1) <- call c m ;;
    '(m2, log2) <- run rest m1 ;;
    Ok (m2, log1 ++ log2)
  end.

End StateManager.

(** ** Objects and maps *)

Section ObjectFacts.

Implicit Types (o : JsObject.t) (key : string) (v : Value).

Lemma own_set_same o key v : JsObject.own (JsObject.set o key v) key = Some v.
Proof.
  induction o as [|[k w] o IH]; simpl.
  - now rewrite String.eqb_refl.
  - destruct (String.eqb_spec k key) as [-> | Hne]; simpl.
    + now rewrite String.eqb_refl.
    + destruct (String.eqb_spec k key); [contradiction | exact IH].
Qed.

Lemma own_set_other o key key' v :
  key' <> key -> JsObject.own (JsObject.set o key v) key' = JsObject.own o key'.
Proof.
  intros Hne. induction o as [|[k w] o IH]; simpl.
  - destruct (String.eqb_spec key key'); [congruence | reflexivity].
  - destruct (String.eqb_spec k key) as [-> | Hk]; simpl.
    + destruct (String.eqb_spec key key'); [congruence | reflexivity].
    + destruct (String.eqb_spec k key'); [reflexivity | exact IH].
Qed.

Lemma own_assign_other source :
  forall o key,
    ~ In key (map fst source) ->
    JsObject.own (JsObject.assign o source) key = JsObject.own o key.
Proof.
  unfold JsObject.assign.
  induction source as [|[k v] source IH]; intros o key Hnin; simpl; [reflexivity |].
  simpl in Hnin. rewrite IH by tauto. apply own_set_other. intros ->. tauto.
Qed.

Lemma plain_tail k v o : JsObject.plain ((k, v) :: o) = true ->
  k <> "__proto__"%string /\ ~ In k (map fst o) /\ JsObject.plain o = true.
Proof.
  simpl. intros H. apply andb_prop in H. destruct H as [H Hplain].
  apply andb_prop in H. destruct H as [Hproto Hfresh].
  split; [| split; [| assumption]].
  - intros ->. discriminate Hproto.
  - intros Hin. apply in_map_iff in Hin. destruct Hin as [[k' v'] [Hk Hin]].
    simpl in Hk. subst k'. apply negb_true_iff in Hfresh.
    assert (Hex : existsb (fun kv => (fst kv =? k)%string) o = true).
    { apply existsb_exists. exists (k, v'). split; [assumption |].
      simpl. apply String.eqb_refl. }
    congruence.
Qed.

Lemma own_assign_in source :
  forall o key v,
    JsObject.plain source = true -> In (key, v) source ->
    JsObject.own (JsObject.assign o source) key = Some v.
Proof.
  induction source as [|[k w] source IH]; intros o key v Hplain Hin; [contradiction |].
  destruct (plain_tail _ _ _ Hplain) as [_ [Hfresh Hrest]].
  destruct Hin as [Heq | Hin].
  - injection Heq as -> ->.
    change (JsObject.assign o ((key, v) :: source))
      with (JsObject.assign (JsObject.set o key v) source).
    rewrite own_assign_other by assumption. apply own_set_same.
  - change (JsObject.assign o ((k, w) :: source))
      with (JsObject.assign (JsObject.set o k w) source).
    now apply IH.
Qed.

End ObjectFacts.

Section MapFacts.

Import StateManager.

Implicit Types (m : Observers) (key : string) (s : list Callback).

Lemma mapGet_set_same m key s : mapGet (mapSet m key s) key = Some s.
Proof.
  induction m as [|[k s0] m IH]; simpl.
  - now rewrite String.eqb_refl.
  - destruct (String.eqb_spec k key) as [-> | Hne]; simpl.
    + now rewrite String.eqb_refl.
    + destruct (String.eqb_spec k key); [contradiction | exact IH].
Qed.

Lemma mapGet_set_other m key key' s :
  key' <> key -> mapGet (mapSet m key s) key' = mapGet m key'.
Proof.
  intros Hne. induction m as [|[k s0] m IH]; simpl.
  - destruct (String.eqb_spec key key'); [congruence | reflexivity].
  - destruct (String.eqb_spec k key) as [-> | Hk]; simpl.
    + destruct (String.eqb_spec key key'); [congruence | reflexivity].
    + destruct (String.eqb_spec k key'); [reflexivity | exact IH].
Qed.

Lemma mapSet_twice m key s s' : mapSet (mapSet m key s) key s' = mapSet m key s'.
Proof.
  induction m as [|[k s0] m IH]; simpl.
  - now rewrite String.eqb_refl.
  - destruct (String.eqb_spec k key) as [-> | Hne]; simpl.
    + now rewrite String.eqb_refl.
    + destruct (String.eqb_spec k key); [contradiction | now rewrite IH].
Qed.

Lemma mapSet_same m key s : mapGet m key = Some s -> mapSet m key s = m.
Proof.
  induction m as [|[k s0] m IH]; simpl; [discriminate |].
  destruct (String.eqb_spec k key) as [-> | Hne].
  - intros H. now injection H as ->.
  - intros H. now rewrite IH.
Qed.

End MapFacts.

(** ** setState, subscribe and the function it returns *)

Module StateManagerFacts.

Import StateManager.

(** How often [callback] was called. *)
Definition timesNotified (callback : Callback) (log : list Notification) : nat :=
  count_occ Nat.eq_dec (map (fun n => fst (fst n)) log) callback.

(** No set holds a callback twice. *)
Definition setsOk (m : t) : Prop :=
  forall key s, mapGet (observers m) key = Some s -> NoDup s.

Definition subscribers (m : t) (key : string) : list Callback :=
  match mapGet (observers m) key with
  | Some s => s
  | None => []
  end.

Lemma subscribe_get key callback m :
  mapGet (observers (subscribe key callback m)) key
  = Some (JsSet.add callback (subscribers m key))
  /\ state (subscribe key callback m) = state m
  /\ forall key', key' <> key ->
       mapGet (observers (subscribe key callback m)) key' = mapGet (observers m) key'.
Proof.
  unfold subscribe, subscribers.
  destruct (mapGet (observers m) key) as [s|] eqn:E.
  - rewrite E. cbn [observers state]. split; [apply mapGet_set_same |].
    split; [reflexivity |]. intros key' Hne. now apply mapGet_set_other.
  - rewrite mapGet_set_same. cbn [observers state]. rewrite mapSet_twice.
    split; [apply mapGet_set_same |]. split; [reflexivity |].
    intros key' Hne. now apply mapGet_set_other.
Qed.

Lemma call_setsOk c m m' log : setsOk m -> call c m = Ok (m', log) -> setsOk m'.
Proof.
  unfold setsOk. intros Hok Hcall. destruct c; simpl in Hcall.
  - injection Hcall as <- _. exact Hok.
  - injection Hcall as <- _. intros key' s Hs.
    destruct (subscribe_get key callback m) as [Hget [_ Hother]].
    destruct (String.eqb_spec key' key) as [-> | Hne].
    + rewrite Hget in Hs. injection Hs as <-. apply add_NoDup.
      unfold subscribers. destruct (mapGet (observers m) key) eqn:E; [eauto | constructor].
    + rewrite Hother in Hs by assumption. eauto.
  - unfold unsubscribe in Hcall.
    destruct (mapGet (observers m) key) as [s0|] eqn:E; simpl in Hcall; [| discriminate].
    injection Hcall as <- _. cbn [observers]. intros key' s Hs.
    destruct (String.eqb_spec key' key) as [-> | Hne].
    + rewrite mapGet_set_same in Hs. injection Hs as <-. apply delete_NoDup. eauto.
    + rewrite mapGet_set_other in Hs by assumption. eauto.
  - injection Hcall as <- _. exact Hok.
Qed.

Lemma reached_setsOk history :
  forall m log, run history constructor = Ok (m, log) -> setsOk m.
Proof.
  assert (Hgen : forall m0 m log, setsOk m0 -> run history m0 = Ok (m, log) -> setsOk m).
  { induction history as [|c rest IH]; intros m0 m log Hok Hrun; simpl in Hrun.
    - now injection Hrun as <- _.
    - destruct (call c m0) as [[m1 log1]| |] eqn:Hcall; simpl in Hrun; try discriminate.
      destruct (run rest m1) as [[m2 log2]| |] eqn:Hrest; simpl in Hrun; try discriminate.
      injection Hrun as <- _.
      apply (IH m1 m2 log2); [| assumption]. now apply (call_setsOk c m0 m1 log1). }
  intros m log. apply Hgen. intros key s H. discriminate H.
Qed.

Lemma notify_count m newState oldState key callback :
  setsOk m ->
  timesNotified callback (notify (observers m) newState oldState key)
  = if subscribed m key callback then 1%nat else 0%nat.
Proof.
  intros Hok. unfold timesNotified, notify, subscribed.
  destruct (mapGet (observers m) key) as [s|] eqn:E; [| reflexivity].
  rewrite map_map. cbn [fst]. rewrite map_id.
  destruct (JsSet.has s callback) eqn:Hhas.
  - apply NoDup_count_occ'; [eauto | now apply has_In].
  - apply count_occ_not_In. intros Hin. apply has_In in Hin. congruence.
Qed.

(** X18 — [setState] merges.  When the keys of [updates] are pairwise
    distinct and none is [__proto__], after [setState(updates)] every key
    of [updates] reads as the value given for it, every other key reads as
    before, and the observers are the same. *)
Theorem setState_merges :
  forall updates m,
    JsObject.plain updates = true ->
    (forall key v, In (key, v) updates ->
       JsObject.get (getState (fst (setState updates m))) key = v)
    /\ (forall key, ~ In key (map fst updates) ->
          JsObject.get (getState (fst (setState updates m))) key
          = JsObject.get (getState m) key)
    /\ observers (fst (setState updates m)) = observers m.
Proof.
  intros updates m Hplain. cbn [setState fst getState state observers].
  split; [| split; [| reflexivity]].
  - intros key v Hin. unfold JsObject.get. now rewrite (own_assign_in _ _ _ _ Hplain Hin).
  - intros key Hnin. unfold JsObject.get. now rewrite own_assign_other.
Qed.

Lemma setState_merges_witness :
  JsObject.plain [("isPlaying", VBool true); ("volume", VNum 1)]%string = true
  /\ JsObject.get
       (getState (fst (setState [("isPlaying", VBool true); ("volume", VNum 1)]%string
                                constructor)))
       "volume" = VNum 1
  /\ JsObject.get
       (getState (fst (setState [("isPlaying", VBool true); ("volume", VNum 1)]%string
                                constructor)))
       "duration" = VNum 0.
Proof.
  split; [reflexivity |].
  destruct (setState_merges [("isPlaying", VBool true); ("volume", VNum 1)]%string
              constructor eq_refl) as [Hin [Hout _]].
  split.
  - apply Hin. right. left. reflexivity.
  - rewrite Hout; [reflexivity |]. simpl. intros [H | [H | []]]; discriminate H.
Defined.

(** X19 — who is notified.  On a manager reached from the constructor,
    [setState(updates)] calls a callback once for every key of [updates]
    it is subscribed to, whether or not the value of the key changed, and
    not at all when it is subscribed to none of them; every call passes
    the value the key has after the whole merge and the value it had
    before. *)
Theorem setState_notifies_subscribers_of_updated_keys :
  forall history m log0 updates,
    run history constructor = Ok (m, log0) ->
    (forall callback,
        timesNotified callback (snd (setState updates m))
        = length (filter (fun kv => subscribed m (fst kv) callback) updates))
    /\ (forall callback newValue oldValue,
          In (callback, newValue, oldValue) (snd (setState updates m)) ->
          exists key,
            In key (map fst updates)
            /\ subscribed m key callback = true
            /\ newValue = JsObject.get (getState (fst (setState updates m))) key
            /\ oldValue = JsObject.get (getState m) key).
Proof.
  intros history m log0 updates Hreach.
  pose proof (reached_setsOk _ _ _ Hreach) as Hok.
  cbn [setState fst snd getState state].
  generalize (JsObject.assign (state m) updates) as newState. intros newState.
  split.
  - intros callback. unfold timesNotified.
    induction updates as [|[k v] updates IH]; [reflexivity |].
    cbn [flat_map filter fst]. rewrite map_app, count_occ_app.
    pose proof (notify_count m newState (state m) k callback Hok) as Hn.
    unfold timesNotified in Hn.
    transitivity ((if subscribed m k callback then 1 else 0)
                  + length (filter (fun kv => subscribed m (fst kv) callback) updates))%nat;
      [exact (f_equal2 Nat.add Hn IH) | now destruct (subscribed m k callback)].
  - intros callback newValue oldValue Hin.
    apply in_flat_map in Hin. destruct Hin as [[k v] [Hk Hin]].
    unfold notify in Hin. cbn [fst] in Hin.
    destruct (mapGet (observers m) k) as [s|] eqn:E; [| contradiction].
    apply in_map_iff in Hin. destruct Hin as [cb [Heq Hcb]].
    injection Heq as <- <- <-.
    exists k. split; [apply in_map_iff; exists (k, v); auto |].
    split; [| split; reflexivity].
    unfold subscribed. rewrite E. now apply has_In.
Qed.

Lemma setState_notifies_subscribers_of_updated_keys_witness :
  exists m log0,
    run [Subscribe "audioTime" 4%nat; Subscribe "audioTime" 4%nat] constructor
    = Ok (m, log0)
    /\ timesNotified 4%nat (snd (setState [("audioTime", VNum 0)]%string m)) = 1%nat
    /\ snd (setState [("audioTime", VNum 0)]%string m) = [(4%nat, VNum 0, VNum 0)].
Proof.
  eexists. eexists. split; [reflexivity |]. split; [| reflexivity].
  destruct (setState_notifies_subscribers_of_updated_keys
              [Subscribe "audioTime" 4%nat; Subscribe "audioTime" 4%nat] _ _
              [("audioTime", VNum 0)]%string eq_refl) as [Hcount _].
  rewrite Hcount. reflexivity.
Defined.

Lemma call_keeps_entry c m m' log key :
  mapGet (observers m) key <> None -> call c m = Ok (m', log) ->
  mapGet (observers m') key <> None.
Proof.
  intros Hsome Hcall. destruct c; simpl in Hcall.
  - injection Hcall as <- _. exact Hsome.
  - injection Hcall as <- _.
    destruct (subscribe_get key0 callback m) as [Hget [_ Hother]].
    destruct (String.eqb_spec key key0) as [-> | Hne].
    + rewrite Hget. discriminate.
    + now rewrite Hother.
  - unfold unsubscribe in Hcall.
    destruct (mapGet (observers m) key0) as [s0|] eqn:E; simpl in Hcall; [| discriminate].
    injection Hcall as <- _. cbn [observers].
    destruct (String.eqb_spec key key0) as [-> | Hne].
    + rewrite mapGet_set_same. discriminate.
    + now rewrite mapGet_set_other.
  - injection Hcall as <- _. exact Hsome.
Qed.

Lemma run_keeps_entry history key :
  forall m m' log,
    mapGet (observers m) key <> None -> run history m = Ok (m', log) ->
    mapGet (observers m') key <> None.
Proof.
  induction history as [|c rest IH]; intros m m' log Hsome Hrun; simpl in Hrun.
  - now injection Hrun as <- _.
  - destruct (call c m) as [[m1 log1]| |] eqn:Hcall; simpl in Hrun; try discriminate.
    destruct (run rest m1) as [[m2 log2]| |] eqn:Hrest; simpl in Hrun; try discriminate.
    injection Hrun as <- _.
    apply (IH m1 m2 log2); [| assumption].
    now apply (call_keeps_entry c m m1 log1).
Qed.

Lemma has_delete_same s x : JsSet.has (JsSet.delete x s) x = false.
Proof.
  destruct (JsSet.has (JsSet.delete x s) x) eqn:E; [| reflexivity].
  apply has_In, delete_In in E. tauto.
Qed.

Lemma has_delete_other s x y : y <> x -> JsSet.has (JsSet.delete x s) y = JsSet.has s y.
Proof.
  intros Hne.
  destruct (JsSet.has s y) eqn:E.
  - apply has_In. apply delete_In. split; [now apply has_In | assumption].
  - destruct (JsSet.has (JsSet.delete x s) y) eqn:E'; [| reflexivity].
    apply has_In, delete_In in E'. destruct E' as [Hin _].
    apply has_In in Hin. congruence.
Qed.

(** X20 — the function [subscribe] returns.  At any later time, whatever
    was called on the manager in between, calling the function returned by
    [subscribe(key, callback)] does not throw; it leaves the state alone,
    ends the subscription of [callback] to [key], keeps every other
    subscription, and calling it again changes nothing. *)
Theorem unsubscribe_is_safe_and_exact :
  forall m0 key callback later m log,
    run later (subscribe key callback m0) = Ok (m, log) ->
    exists m',
      unsubscribe key callback m = Ok m'
      /\ getState m' = getState m
      /\ subscribed m' key callback = false
      /\ (forall key' callback',
            key' <> key \/ callback' <> callback ->
            subscribed m' key' callback' = subscribed m key' callback')
      /\ unsubscribe key callback m' = Ok m'.
Proof.
  intros m0 key callback later m log Hrun.
  assert (Hentry : mapGet (observers m) key <> None).
  { apply (run_keeps_entry later key _ _ _) in Hrun; [assumption |].
    destruct (subscribe_get key callback m0) as [-> _]. discriminate. }
  destruct (mapGet (observers m) key) as [s|] eqn:E; [| congruence].
  exists {| state := state m;
            observers := mapSet (observers m) key (JsSet.delete callback s) |}.
  split; [unfold unsubscribe; now rewrite E |].
  split; [reflexivity |]. split; [| split].
  - unfold subscribed. cbn [observers]. rewrite mapGet_set_same. apply has_delete_same.
  - intros key' callback' Hother. unfold subscribed. cbn [observers].
    destruct (String.eqb_spec key' key) as [-> | Hne].
    + rewrite mapGet_set_same, E. apply has_delete_other. tauto.
    + now rewrite mapGet_set_other.
  - unfold unsubscribe. cbn [observers state]. rewrite mapGet_set_same, mapSet_twice.
    rewrite (delete_absent (JsSet.delete callback s) callback)
      by (intros Hin; apply delete_In in Hin; tauto).
    reflexivity.
Qed.

Lemma unsubscribe_is_safe_and_exact_witness :
  exists m log m',
    run [Subscribe "isPlaying" 2%nat; SetState [("isPlaying", VBool true)]%string;
         Subscribe "isPlaying" 1%nat]
        (subscribe "isPlaying" 1%nat constructor)
    = Ok (m, log)
    /\ unsubscribe "isPlaying" 1%nat m = Ok m'
    /\ subscribed m' "isPlaying" 1%nat = false
    /\ subscribed m' "isPlaying" 2%nat = true.
Proof.
  eexists. eexists.
  destruct (unsubscribe_is_safe_and_exact constructor "isPlaying" 1%nat
              [Subscribe "isPlaying" 2%nat; SetState [("isPlaying", VBool true)]%string;
               Subscribe "isPlaying" 1%nat] _ _ eq_refl)
    as [m' [Hun [_ [Hgone [Hkeep _]]]]].
  exists m'. split; [reflexivity |]. split; [exact Hun |]. split; [exact Hgone |].
  rewrite Hkeep; [reflexivity | right; discriminate].
Defined.

(** X21 — subscribing is idempotent.  A second [subscribe] of the same
    callback to the same key leaves the manager as the first one did. *)
Theorem subscribe_is_idempotent :
  forall key callback m,
    subscribe key callback (subscribe key callback m) = subscribe key callback m.
Proof.
  intros key callback m.
  destruct (subscribe_get key callback m) as [Hget [Hstate _]].
  unfold subscribe at 1. rewrite Hget. cbv iota. rewrite Hget.
  rewrite add_idempotent, Hstate.
  rewrite mapSet_same by assumption.
  destruct (subscribe key callback m) as [st obs] eqn:E.
  cbn [observers state] in *. now subst st.
Qed.

(** X22 — what [reset] resets.  [reset] puts the verse index and the
    character index back to -1, [isPlaying] to false and [audioTime] to 0;
    it keeps every other key (the song, the duration, [introComplete]) and
    the observers, and it notifies the observers of those four keys only,
    once for each of the keys they are subscribed to. *)
Theorem reset_resets_playback_keys_only :
  forall history m log0,
    run history constructor = Ok (m, log0) ->
    let m' := fst (reset m) in
    JsObject.get (getState m') "currentVerseIndex" = VNum (-1)
    /\ JsObject.get (getState m') "currentCharIndex" = VNum (-1)
    /\ JsObject.get (getState m') "isPlaying" = VBool false
    /\ JsObject.get (getState m') "audioTime" = VNum 0
    /\ (forall key,
          key <> "currentVerseIndex"%string -> key <> "currentCharIndex"%string ->
          key <> "isPlaying"%string -> key <> "audioTime"%string ->
          JsObject.get (getState m') key = JsObject.get (getState m) key)
    /\ observers m' = observers m
    /\ forall callback,
         timesNotified callback (snd (reset m))
         = ((if subscribed m "currentVerseIndex" callback then 1 else 0)
            + (if subscribed m "currentCharIndex" callback then 1 else 0)
            + (if subscribed m "isPlaying" callback then 1 else 0)
            + (if subscribed m "audioTime" callback then 1 else 0))%nat.
Proof.
  intros history m log0 Hreach m'. subst m'.
  pose proof (reached_setsOk _ _ _ Hreach) as Hok.
  unfold reset. cbn [setState fst snd getState state observers].
  set (four := [("currentVerseIndex", VNum (-1)); ("currentCharIndex", VNum (-1));
                ("isPlaying", VBool false); ("audioTime", VNum 0)]%string).
  assert (Hplain : JsObject.plain four = true) by reflexivity.
  assert (Hin : forall key v, In (key, v) four ->
                  JsObject.get (JsObject.assign (state m) four) key = v).
  { intros key v H. unfold JsObject.get. now rewrite (own_assign_in _ _ _ _ Hplain H). }
  split; [apply Hin; simpl; auto |]. split; [apply Hin; simpl; auto |].
  split; [apply Hin; simpl; auto |]. split; [apply Hin; simpl; auto 6 |].
  split; [| split; [reflexivity |]].
  - intros key H1 H2 H3 H4. unfold JsObject.get.
    rewrite own_assign_other; [reflexivity |].
    simpl. intros [H | [H | [H | [H | []]]]]; congruence.
  - intros callback. unfold timesNotified. cbn [flat_map four fst].
    rewrite !map_app, !count_occ_app.
    generalize (JsObject.assign (state m) four) as newState. intros newState.
    pose proof (notify_count m newState (state m) "currentVerseIndex" callback Hok) as H1.
    pose proof (notify_count m newState (state m) "currentCharIndex" callback Hok) as H2.
    pose proof (notify_count m newState (state m) "isPlaying" callback Hok) as H3.
    pose proof (notify_count m newState (state m) "audioTime" callback Hok) as H4.
    unfold timesNotified in H1, H2, H3, H4.
    cbn [map count_occ]. rewrite Nat.add_0_r, !Nat.add_assoc.
    exact (f_equal2 Nat.add (f_equal2 Nat.add (f_equal2 Nat.add H1 H2) H3) H4).
Qed.

Lemma reset_resets_playback_keys_only_witness :
  exists m log0,
    run [SetState [("song", VSong Sample.song); ("audioTime", VNum 42)]%string;
         Subscribe "audioTime" 9%nat] constructor
    = Ok (m, log0)
    /\ JsObject.get (getState m) "audioTime" = VNum 42
    /\ JsObject.get (getState (fst (reset m))) "audioTime" = VNum 0
    /\ JsObject.get (getState (fst (reset m))) "song" = VSong Sample.song
    /\ snd (reset m) = [(9%nat, VNum 0, VNum 42)].
Proof.
  eexists. eexists. split; [reflexivity |]. split; [reflexivity |].
  destruct (reset_resets_playback_keys_only
              [SetState [("song", VSong Sample.song); ("audioTime", VNum 42)]%string;
               Subscribe "audioTime" 9%nat] _ _ eq_refl)
    as [_ [_ [_ [Htime [Hkeep _]]]]].
  split; [exact Htime |]. split; [| reflexivity].
  rewrite Hkeep by discriminate. reflexivity.
Defined.

End StateManagerFacts.

(* ===================================================================== *)
(** * VerseRenderer (verse-renderer.js) *)
(* ===================================================================== *)

From Stdlib Require Import Ascii.
From Stdlib Require Decimal DecimalNat DecimalString.

(** A [Map] with string keys. *)
Module JsMap.

Section Poly.

Context {V : Type}.

Fixpoint get (m : list (string * V)) (key : string) : option V :=
  match m with
  | [] => None
  | (k, v) :: m' => if (k =? key)%string then Some v else get m' key
  end.

Fixpoint set (m : list (string * V)) (key : string) (v : V) : list (string * V) :=
  match m with
  | [] => [(key, v)]
  | (k, w) :: m' => if (k =? key)%string then (k, v) :: m' else (k, w) :: set m' key v
  end.

End Poly.

End JsMap.

Module VerseRenderer.

(** A verse of the song data as the renderer reads it: the characters, the
    translation and [breakAfter] ([None] when it is missing or not an
    integer). *)
Record Verse := mkVerse {
  characters : list Song.CharData;
  translation : string;
  breakAfter : option Z
}.

(** The same song data as the engine reads it. *)
Definition songOf (verses : list Verse) : Song.SongData :=
  {| Song.verses :=
       map (fun v => {| Song.characters := characters v;
                        Song.translation := translation v |}) verses |}.

Record Layer := mkLayer {
  key : string;
  label : string;
  enabled : bool
}.

(** One band of a tile: the class of the band, the class of the text
    element in it, and its text. *)
Record Band := mkBand {
  bandClass : string;
  textClass : string;
  textContent : string
}.

(** A tile: its [dataset] indices, the character data its click handler
    closes over, and its bands. *)
Record Stone := mkStone {
  verseIdx : nat;
  charIdx : nat;
  charData : Song.CharData;
  bands : list Band
}.

Record VerseEl := mkVerseEl {
  datasetVerseIdx : nat;
  datasetTranslation : string;
  rows : list (list Stone)
}.

Record t := mk {
  verses : list Verse;
  container : list VerseEl;
  renderedVerses : list VerseEl;
  characterElements : list (string * Stone);
  layers : list Layer
}.

Definition constructor (verses : list Verse) : t :=
  {| verses := verses;
     container := [];
     renderedVerses := [];
     characterElements := [];
     layers := [ {| key := "hanzi"; label := "Chinese"; enabled := true |};
                 {| key := "pinyin"; label := "Pinyin"; enabled := true |};
                 {| key := "english"; label := "English"; enabled := false |} ] |}.

(** A non-negative integer inside a template literal. *)
Definition showNat (n : nat) : string :=
  DecimalString.NilEmpty.string_of_uint (Nat.to_uint n).

(** The key [`${verseIdx}-${charIdx}`]. *)
Definition keyOf (verseIdx charIdx : nat) : string :=
  (showNat verseIdx ++ "-" ++ showNat charIdx)%string.

(** [x || ''] *)
Definition orEmpty (x : option string) : string :=
  match x with
  | Some s => s
  | None => ""%string
  end.

Definition createStoneElement (layers : list Layer) (cd : Song.CharData)
           (verseIdx charIdx : nat) : Stone :=
  {| verseIdx := verseIdx;
     charIdx := charIdx;
     charData := cd;
     bands :=
       JsArray.forEach
         (fun layer _ bands =>
            if negb (enabled layer) then bands
            else if (key layer =? "hanzi")%string then
              JsArray.push bands
                {| bandClass := "stone-top"; textClass := "hanzi";
                   textContent := Song.char cd |}
            else if (key layer =? "pinyin")%string then
              JsArray.push bands
                {| bandClass := "stone-band"; textClass := "pinyin";
                   textContent := orEmpty (Song.pinyin cd) |}
            else if (key layer =? "english")%string then
              JsArray.push bands
                {| bandClass := "stone-band"; textClass := "english";
                   textContent := orEmpty (Song.meaning cd) |}
            else bands)
         layers [] |}.

(** Truthiness of [breakAfter]: [null] and 0 are falsy. *)
Definition breaks (b : option Z) : bool :=
  match b with
  | Some n => negb (n =? 0)
  | None => false
  end.

(** [breakAfter] as [createVerseElement] settles it. *)
Definition breakPoint (verse : Verse) : option Z :=
  let len := JsArray.len (characters verse) in
  let breakAfter :=
    match breakAfter verse with
    | Some n => Some (Z.max 0 (Z.min len n))
    | None => None
    end in
  match breakAfter with
  | Some b =>
    if breaks breakAfter then
      let remaining := len - b in
      if (remaining =? 1) && (1 <? b) then Some (b - 1) else Some b
    else breakAfter
  | None => None
  end.

(** [rows]: the two slices, or the whole verse. *)
Definition rowsOf (verse : Verse) : list (list Song.CharData) :=
  match breakPoint verse with
  | Some b =>
    if breaks (Some b) then
      [ firstn (Z.to_nat b) (characters verse); skipn (Z.to_nat b) (characters verse) ]
    else [ characters verse ]
  | None => [ characters verse ]
  end.

(** The first in-verse index of row [rowStartIndex]. *)
Definition rowBase (b : option Z) (rowStartIndex : nat) : nat :=
  match b with
  | Some n => if breaks b then (if Nat.eqb rowStartIndex 0 then 0 else Z.to_nat n) else 0
  | None => 0
  end%nat.

(** [createVerseElement(verse, verseIdx)]: the element, and the map with
    the tiles registered. *)
Definition createVerseElement (layers : list Layer) (verse : Verse) (verseIdx : nat)
           (elements : list (string * Stone)) : VerseEl * list (string * Stone) :=
  let b := breakPoint verse in
  let '(rowEls, elements') :=
    JsArray.forEach
      (fun rowChars rowStartIndex (acc : list (list Stone) * list (string * Stone)) =>
         if Nat.eqb (length rowChars) 0 then acc
         else
           let '(rowEl, elements1) :=
             JsArray.forEach
               (fun cd offset (acc1 : list Stone * list (string * Stone)) =>
                  let charIdx := (rowBase b rowStartIndex + offset)%nat in
                  let stone := createStoneElement layers cd verseIdx charIdx in
                  (JsArray.push (fst acc1) stone,
                   JsMap.set (snd acc1) (keyOf verseIdx charIdx) stone))
               rowChars ([], snd acc) in
           (JsArray.push (fst acc) rowEl, elements1))
      (rowsOf verse) ([], elements) in
  ({| datasetVerseIdx := verseIdx;
      datasetTranslation := translation verse;
      rows := rowEls |},
   elements').

(** [renderAll()]: the container is emptied and refilled; [renderedVerses]
    and the map are added to. *)
Definition renderAll (r : t) : t :=
  JsArray.forEach
    (fun verse verseIdx r =>
       let '(verseEl, elements) :=
         createVerseElement (layers r) verse verseIdx (characterElements r) in
       {| verses := verses r;
          container := JsArray.push (container r) verseEl;
          renderedVerses := JsArray.push (renderedVerses r) verseEl;
          characterElements := elements;
          layers := layers r |})
    (verses r)
    {| verses := verses r; container := []; renderedVerses := renderedVerses r;
       characterElements := characterElements r; layers := layers r |}.

Definition getCharacterElement (r : t) (verseIdx charIdx : nat) : option Stone :=
  JsMap.get (characterElements r) (keyOf verseIdx charIdx).

Definition clear (r : t) : t :=
  {| verses := verses r; container := []; renderedVerses := [];
     characterElements := []; layers := layers r |}.

(** Two verses: five characters broken after the fourth, and one
    character. *)
Definition sampleVerses : list Verse :=
  [ {| characters := [Sample.cd "a" 0; Sample.cd "b" 1; Sample.cd "c" 2;
                      Sample.cd "d" 3; Sample.cd "e" 4];
       translation := "first"; breakAfter := Some 4 |};
    {| characters := [Sample.cd "f" 5]; translation := "second"; breakAfter := None |} ].

End VerseRenderer.

Module VerseRendererFacts.

Import VerseRenderer.

(** ** Keys *)

Fixpoint noDash (s : string) : Prop :=
  match s with
  | EmptyString => True
  | String a s' => a <> "-"%char /\ noDash s'
  end.

Lemma string_of_uint_noDash d : noDash (DecimalString.NilEmpty.string_of_uint d).
Proof. induction d; simpl; try split; auto; discriminate. Qed.

Lemma append_dash_inj :
  forall s1 s1' s2 s2',
    noDash s1 -> noDash s1' ->
    (s1 ++ String "-" s2)%string = (s1' ++ String "-" s2')%string ->
    s1 = s1' /\ s2 = s2'.
Proof.
  induction s1 as [|a s1 IH]; intros [|a' s1'] s2 s2' H1 H1' Heq; simpl in *.
  - injection Heq as ->. auto.
  - injection Heq as <- _. destruct H1' as [Hne _]. now contradiction Hne.
  - injection Heq as -> _. destruct H1 as [Hne _]. now contradiction Hne.
  - injection Heq as -> Htail. destruct H1 as [_ H1]. destruct H1' as [_ H1'].
    destruct (IH _ _ _ H1 H1' Htail) as [-> ->]. auto.
Qed.

Lemma showNat_inj n n' : showNat n = showNat n' -> n = n'.
Proof.
  unfold showNat. intros H. apply DecimalNat.Unsigned.to_uint_inj.
  pose proof (DecimalString.NilEmpty.usu (Nat.to_uint n)) as Hn.
  pose proof (DecimalString.NilEmpty.usu (Nat.to_uint n')) as Hn'.
  rewrite H in Hn. rewrite Hn in Hn'. now injection Hn'.
Qed.

(** Distinct index pairs have distinct keys. *)
Lemma keyOf_inj v c v' c' : keyOf v c = keyOf v' c' -> v = v' /\ c = c'.
Proof.
  unfold keyOf. intros H.
  apply append_dash_inj in H; try apply string_of_uint_noDash.
  destruct H as [Hv Hc]. split; now apply showNat_inj.
Qed.

(** ** Maps *)

Section MapLemmas.

Context {V : Type}.
Implicit Types (m : list (string * V)) (key : string).

Lemma get_set_same m key (v : V) : JsMap.get (JsMap.set m key v) key = Some v.
Proof.
  induction m as [|[k w] m IH]; simpl.
  - now rewrite String.eqb_refl.
  - destruct (String.eqb_spec k key) as [-> | Hne]; simpl.
    + now rewrite String.eqb_refl.
    + destruct (String.eqb_spec k key); [contradiction | exact IH].
Qed.

Lemma get_set_other m key key' (v : V) :
  key' <> key -> JsMap.get (JsMap.set m key v) key' = JsMap.get m key'.
Proof.
  intros Hne. induction m as [|[k w] m IH]; simpl.
  - destruct (String.eqb_spec key key'); [congruence | reflexivity].
  - destruct (String.eqb_spec k key) as [-> | Hk]; simpl.
    + destruct (String.eqb_spec key key'); [congruence | reflexivity].
    + destruct (String.eqb_spec k key'); [reflexivity | exact IH].
Qed.

End MapLemmas.

(** ** Tiles *)

Definition stoneKey (s : Stone) : string := keyOf (verseIdx s) (charIdx s).

(** [characterElements.set(key, stone)] for each tile in turn. *)
Definition register (elements : list (string * Stone)) (stones : list Stone)
  : list (string * Stone) :=
  fold_left (fun m s => JsMap.set m (stoneKey s) s) stones elements.

(** The tiles of some characters of verse [vi], numbered from [start]. *)
Fixpoint tiles (layers : list Layer) (vi start : nat) (cs : list Song.CharData)
  : list Stone :=
  match cs with
  | [] => []
  | cd :: cs' => createStoneElement layers cd vi start :: tiles layers vi (S start) cs'
  end.

(** The tiles of all verses from verse [vi] on. *)
Fixpoint allTiles (layers : list Layer) (vi : nat) (vs : list Verse) : list Stone :=
  match vs with
  | [] => []
  | v :: vs' => tiles layers vi 0 (characters v) ++ allTiles layers (S vi) vs'
  end.

Lemma register_app elements l1 l2 :
  register elements (l1 ++ l2) = register (register elements l1) l2.
Proof. unfold register. apply fold_left_app. Qed.

Lemma tiles_app layers vi :
  forall l1 l2 start,
    tiles layers vi start (l1 ++ l2)
    = tiles layers vi start l1 ++ tiles layers vi (start + length l1) l2.
Proof.
  induction l1 as [|cd l1 IH]; intros l2 start; simpl.
  - now rewrite Nat.add_0_r.
  - rewrite IH. do 3 f_equal. lia.
Qed.

Lemma tiles_length layers vi start cs : length (tiles layers vi start cs) = length cs.
Proof.
  revert start. induction cs as [|cd cs IH]; intros start; simpl; [reflexivity |].
  now rewrite IH.
Qed.

Lemma tiles_nth layers vi :
  forall cs start k,
    nth_error (tiles layers vi start cs) k
    = option_map (fun cd => createStoneElement layers cd vi (start + k)) (nth_error cs k).
Proof.
  induction cs as [|cd cs IH]; intros start [|k]; simpl; try reflexivity.
  - now rewrite Nat.add_0_r.
  - rewrite IH. now rewrite Nat.add_succ_r.
Qed.

(** The inner [forEach] of [createVerseElement]. *)
Lemma row_spec layers vi base :
  forall cs offset rowEl elements,
    JsArray.forEach_from
      (fun cd offset (acc1 : list Stone * list (string * Stone)) =>
         let charIdx := (base + offset)%nat in
         let stone := createStoneElement layers cd vi charIdx in
         (JsArray.push (fst acc1) stone,
          JsMap.set (snd acc1) (keyOf vi charIdx) stone))
      cs offset (rowEl, elements)
    = (rowEl ++ tiles layers vi (base + offset) cs,
       register elements (tiles layers vi (base + offset) cs)).
Proof.
  induction cs as [|cd cs IH]; intros offset rowEl elements; simpl.
  - now rewrite app_nil_r.
  - rewrite IH. unfold JsArray.push. cbn [fst snd]. rewrite <- app_assoc.
    rewrite Nat.add_succ_r. reflexivity.
Qed.

Lemma breakPoint_bounds verse b :
  breakPoint verse = Some b -> breaks (Some b) = true ->
  1 <= b <= JsArray.len (characters verse)
  /\ (JsArray.len (characters verse) - b = 1 -> b = 1).
Proof.
  unfold breakPoint. destruct (breakAfter verse) as [n|]; [| discriminate].
  set (len := JsArray.len (characters verse)).
  assert (0 <= len) by (unfold len, JsArray.len; lia).
  cbn [breaks].
  destruct (Z.eqb_spec (Z.max 0 (Z.min len n)) 0) as [Hz | Hnz]; cbn [negb].
  - intros Hb. injection Hb as <-. rewrite Hz. cbn. discriminate.
  - destruct (Z.eqb_spec (len - Z.max 0 (Z.min len n)) 1) as [Hrem | Hrem];
      destruct (Z.ltb_spec 1 (Z.max 0 (Z.min len n))) as [Hgt | Hle]; cbn [andb];
      intros Hb _; injection Hb as <-; lia.
Qed.

(** The tiles of the rows of a verse, row by row. *)
Fixpoint rowTiles (layers : list Layer) (vi : nat) (b : option Z)
         (rowsList : list (list Song.CharData)) (rowStartIndex : nat)
  : list (list Stone) :=
  match rowsList with
  | [] => []
  | rowChars :: rest =>
    tiles layers vi (rowBase b rowStartIndex) rowChars
      :: rowTiles layers vi b rest (S rowStartIndex)
  end.

Definition nonEmpty (row : list Stone) : bool := negb (Nat.eqb (length row) 0).

(** The outer [forEach] of [createVerseElement]. *)
Lemma rows_spec layers vi b :
  forall rowsList rowStartIndex rowEls elements,
    JsArray.forEach_from
      (fun rowChars rowStartIndex (acc : list (list Stone) * list (string * Stone)) =>
         if Nat.eqb (length rowChars) 0 then acc
         else
           let '(rowEl, elements1) :=
             JsArray.forEach
               (fun cd offset (acc1 : list Stone * list (string * Stone)) =>
                  let charIdx := (rowBase b rowStartIndex + offset)%nat in
                  let stone := createStoneElement layers cd vi charIdx in
                  (JsArray.push (fst acc1) stone,
                   JsMap.set (snd acc1) (keyOf vi charIdx) stone))
               rowChars ([], snd acc) in
           (JsArray.push (fst acc) rowEl, elements1))
      rowsList rowStartIndex (rowEls, elements)
    = (rowEls ++ filter nonEmpty (rowTiles layers vi b rowsList rowStartIndex),
       register elements (concat (rowTiles layers vi b rowsList rowStartIndex))).
Proof.
  induction rowsList as [|rowChars rest IH]; intros rowStartIndex rowEls elements.
  - cbn. now rewrite app_nil_r.
  - cbn [JsArray.forEach_from rowTiles concat filter].
    destruct rowChars as [|cd rowChars].
    + cbn [length Nat.eqb tiles nonEmpty negb Datatypes.app]. apply IH.
    + cbn [length Nat.eqb]. unfold JsArray.forEach.
      pose proof (row_spec layers vi (rowBase b rowStartIndex) (cd :: rowChars) 0 [] elements)
        as Hrow.
      rewrite Nat.add_0_r in Hrow. cbn [snd fst].
      match goal with
      | |- JsArray.forEach_from _ rest _ (let '(_, _) := ?inner in _) = _ =>
        replace inner
          with (tiles layers vi (rowBase b rowStartIndex) (cd :: rowChars),
                register elements (tiles layers vi (rowBase b rowStartIndex) (cd :: rowChars)))
          by (symmetry; exact Hrow)
      end.
      rewrite IH. unfold JsArray.push, nonEmpty at 2.
      rewrite tiles_length. cbn [length Nat.eqb negb].
      rewrite <- app_assoc, register_app. reflexivity.
Qed.

Lemma createVerseElement_eq layers verse vi elements :
  createVerseElement layers verse vi elements
  = ({| datasetVerseIdx := vi; datasetTranslation := translation verse;
        rows := filter nonEmpty (rowTiles layers vi (breakPoint verse) (rowsOf verse) 0) |},
     register elements (concat (rowTiles layers vi (breakPoint verse) (rowsOf verse) 0))).
Proof.
  unfold createVerseElement, JsArray.forEach at 1.
  pose proof (rows_spec layers vi (breakPoint verse) (rowsOf verse) 0 [] elements) as H.
  cbv zeta in H |- *. rewrite H. reflexivity.
Qed.

(** The rows of a verse hold its tiles in order. *)
Lemma rowTiles_concat layers verse vi :
  concat (rowTiles layers vi (breakPoint verse) (rowsOf verse) 0)
  = tiles layers vi 0 (characters verse).
Proof.
  unfold rowsOf. destruct (breakPoint verse) as [b|] eqn:Hb.
  - destruct (breaks (Some b)) eqn:Hbreaks.
    + destruct (breakPoint_bounds verse b Hb Hbreaks) as [Hrange _].
      unfold JsArray.len in Hrange.
      cbn [rowTiles concat]. unfold rowBase. rewrite Hbreaks. cbn [Nat.eqb].
      rewrite app_nil_r.
      rewrite <- (firstn_skipn (Z.to_nat b) (characters verse)) at 3.
      rewrite tiles_app, firstn_length_le by lia. reflexivity.
    + cbn [rowTiles concat]. unfold rowBase. rewrite Hbreaks. apply app_nil_r.
  - cbn. apply app_nil_r.
Qed.

(** The verse elements of the verses from verse [vi] on. *)
Fixpoint verseEls (layers : list Layer) (vi : nat) (vs : list Verse) : list VerseEl :=
  match vs with
  | [] => []
  | v :: vs' =>
    {| datasetVerseIdx := vi; datasetTranslation := translation v;
       rows := filter nonEmpty (rowTiles layers vi (breakPoint v) (rowsOf v) 0) |}
      :: verseEls layers (S vi) vs'
  end.

Lemma renderAll_from :
  forall vs vi r0,
    JsArray.forEach_from
      (fun verse verseIdx r =>
         let '(verseEl, elements) :=
           createVerseElement (layers r) verse verseIdx (characterElements r) in
         {| verses := verses r;
            container := JsArray.push (container r) verseEl;
            renderedVerses := JsArray.push (renderedVerses r) verseEl;
            characterElements := elements;
            layers := layers r |})
      vs vi r0
    = {| verses := verses r0;
         container := container r0 ++ verseEls (layers r0) vi vs;
         renderedVerses := renderedVerses r0 ++ verseEls (layers r0) vi vs;
         characterElements :=
           register (characterElements r0) (allTiles (layers r0) vi vs);
         layers := layers r0 |}.
Proof.
  induction vs as [|v vs IH]; intros vi r0.
  - cbn. rewrite !app_nil_r. now destruct r0.
  - cbn [JsArray.forEach_from]. rewrite createVerseElement_eq, IH.
    cbn [verses container renderedVerses characterElements layers verseEls allTiles].
    unfold JsArray.push. rewrite <- !app_assoc, rowTiles_concat, register_app.
    reflexivity.
Qed.

Lemma renderAll_eq r :
  renderAll r
  = {| verses := verses r;
       container := verseEls (layers r) 0 (verses r);
       renderedVerses := renderedVerses r ++ verseEls (layers r) 0 (verses r);
       characterElements := register (characterElements r) (allTiles (layers r) 0 (verses r));
       layers := layers r |}.
Proof. unfold renderAll, JsArray.forEach. now rewrite renderAll_from. Qed.

Lemma tiles_In layers vi :
  forall cs start s,
    In s (tiles layers vi start cs) ->
    verseIdx s = vi /\ (start <= charIdx s)%nat.
Proof.
  induction cs as [|cd cs IH]; intros start s Hin; [contradiction |].
  destruct Hin as [<- | Hin]; [cbn; lia |].
  destruct (IH _ _ Hin). lia.
Qed.

Lemma allTiles_In layers :
  forall vs vi s,
    In s (allTiles layers vi vs) <->
    exists j v k cd,
      nth_error vs j = Some v /\ nth_error (characters v) k = Some cd
      /\ s = createStoneElement layers cd (vi + j) k.
Proof.
  induction vs as [|v vs IH]; intros vi s; cbn [allTiles].
  - split; [contradiction |]. intros [[|j] [v [k [cd [H _]]]]]; discriminate H.
  - rewrite in_app_iff, IH. split.
    + intros [Hin | [j [v' [k [cd [Hv [Hcd ->]]]]]]].
      * apply In_nth_error in Hin. destruct Hin as [k Hk].
        rewrite tiles_nth in Hk.
        destruct (nth_error (characters v) k) as [cd|] eqn:Hcd; [| discriminate Hk].
        injection Hk as <-. exists 0%nat, v, k, cd.
        rewrite Nat.add_0_r. auto.
      * exists (S j), v', k, cd. rewrite Nat.add_succ_r. auto.
    + intros [[|j] [v' [k [cd [Hv [Hcd ->]]]]]]; cbn in Hv.
      * injection Hv as <-. left. apply (nth_error_In _ k).
        rewrite tiles_nth, Hcd. now rewrite Nat.add_0_r.
      * right. exists j, v', k, cd. rewrite Nat.add_succ_r. auto.
Qed.

Lemma tiles_keys_NoDup layers vi :
  forall cs start, NoDup (map stoneKey (tiles layers vi start cs)).
Proof.
  induction cs as [|cd cs IH]; intros start; cbn; constructor; [| apply IH].
  intros Hin. apply in_map_iff in Hin. destruct Hin as [s [Hkey Hs]].
  apply tiles_In in Hs. destruct Hs as [_ Hle].
  unfold stoneKey in Hkey. cbn [verseIdx charIdx createStoneElement] in Hkey.
  apply keyOf_inj in Hkey. lia.
Qed.

Lemma allTiles_keys_NoDup layers :
  forall vs vi, NoDup (map stoneKey (allTiles layers vi vs)).
Proof.
  induction vs as [|v vs IH]; intros vi; cbn [allTiles map]; [constructor |].
  rewrite map_app. apply NoDup_app; [apply tiles_keys_NoDup | apply IH |].
  intros key Hin Hin'.
  apply in_map_iff in Hin. destruct Hin as [s [<- Hs]].
  apply in_map_iff in Hin'. destruct Hin' as [s' [Hkey Hs']].
  apply tiles_In in Hs. destruct Hs as [Hv _].
  apply allTiles_In in Hs'. destruct Hs' as [j [v' [k [cd [_ [_ ->]]]]]].
  unfold stoneKey in Hkey. cbn [verseIdx charIdx createStoneElement] in Hkey.
  apply keyOf_inj in Hkey. lia.
Qed.

Lemma get_register_other stones :
  forall elements key,
    ~ In key (map stoneKey stones) ->
    JsMap.get (register elements stones) key = JsMap.get elements key.
Proof.
  induction stones as [|x stones IH]; intros elements key Hnin; [reflexivity |].
  cbn in Hnin. change (register elements (x :: stones))
    with (register (JsMap.set elements (stoneKey x) x) stones).
  rewrite IH by tauto. apply get_set_other. intros ->. tauto.
Qed.

Lemma get_register_in stones :
  forall elements s,
    NoDup (map stoneKey stones) -> In s stones ->
    JsMap.get (register elements stones) (stoneKey s) = Some s.
Proof.
  induction stones as [|x stones IH]; intros elements s Hnd Hin; [contradiction |].
  cbn in Hnd. inversion Hnd as [|? ? Hfresh Hnd']; subst.
  change (register elements (x :: stones))
    with (register (JsMap.set elements (stoneKey x) x) stones).
  destruct Hin as [-> | Hin].
  - rewrite get_register_other by assumption. apply get_set_same.
  - now apply IH.
Qed.

(** X23 — the rows of a verse.  [createVerseElement] makes one tile per
    character of the verse, numbered 0, 1, 2, ... across its rows in
    order, each from its own character; it makes at most two rows and no
    empty one, and the second row has a single tile only when the first
    has a single tile as well. *)
Theorem createVerseElement_rows :
  forall layers verse vi elements,
    let verseEl := fst (createVerseElement layers verse vi elements) in
    length (concat (rows verseEl)) = length (characters verse)
    /\ (forall k,
          nth_error (concat (rows verseEl)) k
          = option_map (fun cd => createStoneElement layers cd vi k)
                       (nth_error (characters verse) k))
    /\ Forall (fun row => row <> []) (rows verseEl)
    /\ (length (rows verseEl) <= 2)%nat
    /\ (forall first second,
          rows verseEl = [first; second] ->
          length second = 1%nat -> length first = 1%nat).
Proof.
  intros layers verse vi elements verseEl. subst verseEl.
  rewrite createVerseElement_eq. cbn [fst rows].
  assert (Hconcat : concat (filter nonEmpty
                              (rowTiles layers vi (breakPoint verse) (rowsOf verse) 0))
                    = tiles layers vi 0 (characters verse)).
  { rewrite <- rowTiles_concat.
    induction (rowTiles layers vi (breakPoint verse) (rowsOf verse) 0) as [|row l IH];
      [reflexivity |].
    cbn [filter concat]. destruct row as [|s row]; cbn; [exact IH | now rewrite IH]. }
  split; [rewrite Hconcat; apply tiles_length |].
  split; [intros k; rewrite Hconcat; apply tiles_nth |].
  split; [| split].
  - apply Forall_forall. intros row Hin. apply filter_In in Hin.
    destruct Hin as [_ Hne]. intros ->. discriminate Hne.
  - unfold rowsOf. destruct (breakPoint verse) as [b|]; [destruct (breaks (Some b)) |];
      cbn [rowTiles];
      repeat (cbn [filter]; match goal with
                            | |- context [nonEmpty ?r] => destruct (nonEmpty r)
                            end); cbn; lia.
  - intros first second Hrows Hlen.
    unfold rowsOf in Hrows. destruct (breakPoint verse) as [b|] eqn:Hb.
    + destruct (breaks (Some b)) eqn:Hbreaks.
      * destruct (breakPoint_bounds verse b Hb Hbreaks) as [Hrange Horphan].
        unfold JsArray.len in Hrange, Horphan.
        cbn [rowTiles filter] in Hrows. unfold rowBase in Hrows.
        rewrite Hbreaks in Hrows. cbn [Nat.eqb] in Hrows.
        destruct (nonEmpty (tiles layers vi 0 (firstn (Z.to_nat b) (characters verse))));
          destruct (nonEmpty (tiles layers vi (Z.to_nat b)
                                    (skipn (Z.to_nat b) (characters verse))));
          try discriminate Hrows.
        injection Hrows as <- <-.
        rewrite tiles_length in Hlen |- *.
        rewrite length_skipn in Hlen. rewrite firstn_length_le by lia.
        assert (Hrem : Z.of_nat (length (characters verse)) - b = 1) by lia.
        specialize (Horphan Hrem). lia.
      * cbn [rowTiles filter] in Hrows.
        destruct (nonEmpty (tiles layers vi (rowBase (Some b) 0) (characters verse)));
          discriminate Hrows.
    + cbn [rowTiles filter] in Hrows.
      destruct (nonEmpty (tiles layers vi (rowBase None 0) (characters verse)));
        discriminate Hrows.
Qed.

Lemma get_register_Some stones :
  forall elements key s,
    JsMap.get (register elements stones) key = Some s ->
    In s stones \/ JsMap.get elements key = Some s.
Proof.
  induction stones as [|x stones IH]; intros elements key s Hget; [now right |].
  change (register elements (x :: stones))
    with (register (JsMap.set elements (stoneKey x) x) stones) in Hget.
  destruct (IH _ _ _ Hget) as [Hin | Hset]; [left; now right |].
  destruct (String.eqb_spec key (stoneKey x)) as [-> | Hne].
  - rewrite get_set_same in Hset. injection Hset as <-. left. now left.
  - rewrite get_set_other in Hset by assumption. now right.
Qed.

(** X24 — [renderAll] adds to [renderedVerses].  [renderAll] refills the
    container with one verse element per verse, in order, each with its
    index and translation, and appends those same elements to
    [renderedVerses] without emptying it first: rendering again without
    [clear] leaves the elements of the earlier rendering in front, whereas
    after [clear] the list is the container's. *)
Theorem renderAll_adds_to_renderedVerses :
  forall r,
    length (container (renderAll r)) = length (verses r)
    /\ (forall j,
          nth_error (container (renderAll r)) j
          = option_map (fun v => fst (createVerseElement (layers r) v j []))
                       (nth_error (verses r) j))
    /\ renderedVerses (renderAll r) = renderedVerses r ++ container (renderAll r)
    /\ renderedVerses (renderAll (renderAll r))
       = renderedVerses r ++ container (renderAll r) ++ container (renderAll r)
    /\ renderedVerses (renderAll (clear (renderAll r))) = container (renderAll r).
Proof.
  intros r. rewrite !renderAll_eq.
  cbn [container renderedVerses verses layers clear app].
  assert (Hels : forall vs vi,
             length (verseEls (layers r) vi vs) = length vs
             /\ forall j, nth_error (verseEls (layers r) vi vs) j
                          = option_map
                              (fun v => fst (createVerseElement (layers r) v (vi + j) []))
                              (nth_error vs j)).
  { induction vs as [|v vs IH]; intros vi; cbn [verseEls length].
    - split; [reflexivity |]. intros [|j]; reflexivity.
    - destruct (IH (S vi)) as [Hlen Hnth]. split; [now rewrite Hlen |].
      intros [|j]; cbn [nth_error option_map].
      + rewrite createVerseElement_eq, Nat.add_0_r. reflexivity.
      + rewrite Hnth, Nat.add_succ_r. reflexivity. }
  destruct (Hels (verses r) 0%nat) as [Hlen Hnth].
  split; [exact Hlen |]. split; [exact Hnth |]. split; [reflexivity |].
  split; [now rewrite <- app_assoc | reflexivity].
Qed.

End VerseRendererFacts.

(* ===================================================================== *)
(** * The tiles and the engine *)
(* ===================================================================== *)

(** The part of the application's [seekTo] and of its tile click handler
    that reaches the engine (main script, [seekTo] and the "stone-click"
    listener). *)
Module KaixinApp.

(** [Math.min] and [Math.max] on finite numbers. *)
Definition mathMin (a b : Q) : Q := if Qle_bool a b then a else b.
Definition mathMax (a b : Q) : Q := if Qle_bool a b then b else a.

(** [this.audio.duration || 258] *)
Definition durationOr258 (audioDuration : option Q) : Q :=
  match orElse audioDuration (Some 258%Q) with
  | Some d => d
  | None => 258%Q
  end.

(** [seekTo(time)] of the application, with [this.audio] and
    [this.audioSync] present: the value assigned to [audio.currentTime],
    and the engine's seek to it.  The timeline update that follows reads
    neither back and is left out. *)
Definition seekTo (audioDuration : option Q) (time' : Q) (e : Engine)
  : Q * Result (Engine * list Emission) :=
  let duration := durationOr258 audioDuration in
  let targetTime := mathMax 0 (mathMin duration time') in
  (targetTime, seekTo targetTime e).

(** The "stone-click" listener for a click on [stone]; a tile's time is a
    number. *)
Definition stoneClick (audioDuration : option Q) (stone : VerseRenderer.Stone)
           (e : Engine) : Q * Result (Engine * list Emission) :=
  seekTo audioDuration (Song.time (VerseRenderer.charData stone)) e.

End KaixinApp.

Lemma songOf_nth vs j v :
  nth_error (Song.verses (VerseRenderer.songOf vs)) j = Some v ->
  exists rv, nth_error vs j = Some rv /\ Song.characters v = VerseRenderer.characters rv.
Proof.
  unfold VerseRenderer.songOf. cbn [Song.verses]. rewrite nth_error_map.
  destruct (nth_error vs j) as [rv|]; [| discriminate].
  cbn. intros H. injection H as <-. exists rv. auto.
Qed.

Lemma songOf_nth_inv vs j rv :
  nth_error vs j = Some rv ->
  exists v, nth_error (Song.verses (VerseRenderer.songOf vs)) j = Some v
            /\ Song.characters v = VerseRenderer.characters rv.
Proof.
  intros H. unfold VerseRenderer.songOf. cbn [Song.verses].
  rewrite nth_error_map, H. cbn. eexists. split; reflexivity.
Qed.

(** X25 — every unit has its tile.  After [renderAll], for every unit of
    the sequence the engine builds from the same song data,
    [getCharacterElement(unit.verseIdx, unit.charIdx)] is the tile made for
    that unit's character: same indices, glyph, annotations and time. *)
Theorem every_unit_has_its_tile :
  forall r u,
    In u (flattenCharacters (VerseRenderer.songOf (VerseRenderer.verses r))) ->
    exists stone,
      VerseRenderer.getCharacterElement (VerseRenderer.renderAll r) (verseIdx u) (charIdx u)
      = Some stone
      /\ VerseRenderer.verseIdx stone = verseIdx u
      /\ VerseRenderer.charIdx stone = charIdx u
      /\ Song.char (VerseRenderer.charData stone) = char u
      /\ Song.pinyin (VerseRenderer.charData stone) = pinyin u
      /\ Song.meaning (VerseRenderer.charData stone) = meaning u
      /\ Song.time (VerseRenderer.charData stone) = time u.
Proof.
  intros r u Hu. apply flatten_In in Hu.
  destruct Hu as [j [v [k [cd [Hv [Hcd ->]]]]]].
  destruct (songOf_nth _ _ _ Hv) as [rv [Hrv Hchars]]. rewrite Hchars in Hcd.
  exists (VerseRenderer.createStoneElement (VerseRenderer.layers r) cd j k).
  split; [| cbn; repeat split; reflexivity].
  unfold VerseRenderer.getCharacterElement. rewrite VerseRendererFacts.renderAll_eq.
  cbn [VerseRenderer.characterElements spread verseIdx charIdx].
  apply (VerseRendererFacts.get_register_in
           _ _ (VerseRenderer.createStoneElement (VerseRenderer.layers r) cd j k)).
  - apply VerseRendererFacts.allTiles_keys_NoDup.
  - apply VerseRendererFacts.allTiles_In. exists j, rv, k, cd. auto.
Qed.

Lemma every_unit_has_its_tile_witness :
  exists stone,
    In (spread (Sample.cd "c" 2) 0 2 2)
       (flattenCharacters
          (VerseRenderer.songOf
             (VerseRenderer.verses
                (VerseRenderer.constructor VerseRenderer.sampleVerses))))
    /\ VerseRenderer.getCharacterElement
         (VerseRenderer.renderAll (VerseRenderer.constructor VerseRenderer.sampleVerses))
         0 2 = Some stone
    /\ Song.char (VerseRenderer.charData stone) = "c"%string.
Proof.
  assert (Hin : In (spread (Sample.cd "c" 2) 0 2 2)
                   (flattenCharacters
                      (VerseRenderer.songOf
                         (VerseRenderer.verses
                            (VerseRenderer.constructor VerseRenderer.sampleVerses)))))
    by (cbn; auto).
  destruct (every_unit_has_its_tile _ _ Hin) as [stone [Hget [_ [_ [Hchar _]]]]].
  exists stone. split; [exact Hin | split; [exact Hget | exact Hchar]].
Defined.

Lemma seekTo_near_unit_time e j u target :
  StronglySorted leTime (characters e) ->
  JsArray.get (characters e) j = Some u ->
  (target == time u)%Q ->
  exists r c,
    seekTo target e = Ok (setCurrentIndex e r, [verseChange c; characterChange c])
    /\ j <= r
    /\ JsArray.get (characters e) r = Some c
    /\ (time c == time u)%Q.
Proof.
  intros Hs Hu Htarget.
  destruct (seekTo_sorted target e Hs) as [r [log [Hseek [Hlog [_ [Hlater Hcases]]]]]].
  destruct Hcases as [[_ Hnone] | [c [Hc Hct]]].
  - pose proof (Hnone j u Hu). lra.
  - assert (Hjr : j <= r).
    { destruct (Z_le_gt_dec j r) as [|Hgt]; [assumption | exfalso].
      assert (Hbehind : r < j) by lia.
      pose proof (Hlater j u Hbehind Hu). lra. }
    rewrite Hc in Hlog. subst log.
    exists r, c. split; [exact Hseek |]. split; [exact Hjr |]. split; [exact Hc |].
    apply Qle_antisym; [lra |].
    destruct (Z.eq_dec j r) as [-> | Hne].
    + rewrite Hu in Hc. injection Hc as <-. apply Qle_refl.
    + apply (sorted_get (characters e) j r u c); [assumption | lia | assumption | assumption].
Qed.

Lemma clamp_within duration t :
  (0 <= t)%Q -> (t <= duration)%Q ->
  (KaixinApp.mathMax 0 (KaixinApp.mathMin duration t) == t)%Q.
Proof.
  intros H0 Hd. unfold KaixinApp.mathMax, KaixinApp.mathMin.
  destruct (Qle_bool duration t) eqn:E1.
  - apply Qle_bool_iff in E1.
    destruct (Qle_bool 0 duration) eqn:E2.
    + lra.
    + apply Qle_bool_false in E2. lra.
  - destruct (Qle_bool 0 t) eqn:E2.
    + reflexivity.
    + apply Qle_bool_false in E2. lra.
Qed.

(** X26 — a click on a tile seeks to its character.  With the tiles
    rendered from the song data the engine was built from, a click on a
    tile whose time lies between 0 and the duration the application
    assumes makes the application seek the engine to that time: the engine
    announces, with "verse-change" and then "character-change", a unit of
    exactly the tile's time, and the cursor rests on it. *)
Theorem click_on_a_tile_seeks_to_its_time :
  forall vs history e log0 r0 v c stone audioDuration,
    run history (constructor (VerseRenderer.songOf vs)) = Ok (e, log0) ->
    VerseRenderer.verses r0 = vs ->
    VerseRenderer.getCharacterElement
      (VerseRenderer.renderAll (VerseRenderer.clear r0)) v c = Some stone ->
    (0 <= Song.time (VerseRenderer.charData stone))%Q ->
    (Song.time (VerseRenderer.charData stone)
     <= KaixinApp.durationOr258 audioDuration)%Q ->
    exists e' unit,
      snd (KaixinApp.stoneClick audioDuration stone e)
      = Ok (e', [verseChange unit; characterChange unit])
      /\ (fst (KaixinApp.stoneClick audioDuration stone e)
          == Song.time (VerseRenderer.charData stone))%Q
      /\ JsArray.get (characters e) (currentIndex e') = Some unit
      /\ (time unit == Song.time (VerseRenderer.charData stone))%Q.
Proof.
  intros vs history e log0 r0 v c stone audioDuration Hreach Hvs Hget H0 Hd.
  destruct (reached_invariant _ _ _ _ Hreach) as [Hflat _].
  pose proof (reached_sorted _ _ _ _ Hreach) as Hs.
  unfold VerseRenderer.getCharacterElement in Hget.
  rewrite VerseRendererFacts.renderAll_eq in Hget.
  cbn [VerseRenderer.characterElements VerseRenderer.clear VerseRenderer.verses
       VerseRenderer.layers] in Hget.
  apply VerseRendererFacts.get_register_Some in Hget.
  destruct Hget as [Hin | Hnone]; [| discriminate Hnone].
  apply VerseRendererFacts.allTiles_In in Hin.
  destruct Hin as [j [rv [k [cd [Hrv [Hcd ->]]]]]].
  rewrite Hvs in Hrv.
  destruct (songOf_nth_inv _ _ _ Hrv) as [sv [Hsv Hchars]].
  rewrite <- Hchars in Hcd.
  assert (Hu : In (spread cd j k (charsBefore (Song.verses (VerseRenderer.songOf vs)) j + k))
                  (characters e)).
  { rewrite Hflat. apply flatten_In. exists j, sv, k, cd. auto. }
  apply In_nth_error in Hu. destruct Hu as [i Hi].
  assert (Hgeti : JsArray.get (characters e) (Z.of_nat i)
                  = Some (spread cd j k
                            (charsBefore (Song.verses (VerseRenderer.songOf vs)) j + k)))
    by (apply get_Some; split; [lia | now rewrite Nat2Z.id]).
  cbn [VerseRenderer.charData VerseRenderer.createStoneElement] in H0, Hd |- *.
  pose proof (clamp_within _ _ H0 Hd) as Hclamp.
  destruct (seekTo_near_unit_time e _ _ _ Hs Hgeti Hclamp) as [r [unit [Hseek [_ [Hunit Htime]]]]].
  exists (setCurrentIndex e r), unit.
  unfold KaixinApp.stoneClick, KaixinApp.seekTo.
  cbn [fst snd VerseRenderer.charData VerseRenderer.createStoneElement].
  split; [exact Hseek |]. split; [exact Hclamp |]. split; [exact Hunit | exact Htime].
Qed.

Lemma click_on_a_tile_seeks_to_its_time_witness :
  exists stone e' unit,
    VerseRenderer.getCharacterElement
      (VerseRenderer.renderAll
         (VerseRenderer.clear (VerseRenderer.constructor VerseRenderer.sampleVerses)))
      0 3 = Some stone
    /\ snd (KaixinApp.stoneClick None stone
              (constructor (VerseRenderer.songOf VerseRenderer.sampleVerses)))
       = Ok (e', [verseChange unit; characterChange unit])
    /\ currentIndex e' = 3.
Proof.
  eexists.
  destruct (click_on_a_tile_seeks_to_its_time VerseRenderer.sampleVerses [] _ _
              (VerseRenderer.constructor VerseRenderer.sampleVerses) 0%nat 3%nat _ None
              eq_refl eq_refl eq_refl)
    as [e' [unit [Hclick _]]].
  - vm_compute. discriminate.
  - vm_compute. discriminate.
  - exists e', unit. split; [reflexivity |]. split; [exact Hclick |].
    vm_compute in Hclick. injection Hclick as <- _. reflexivity.
Defined.
